(** * Cache eviction engines: FIFO, LRU, LFU and LRU-K

    A shallow embedding of the four cache engines of the repository
    (include/*.h, src/*Cache.cpp) and the proofs of their properties.

    Modelling conventions, shared by the four engines.

    - [int] fields are [Z]; the hash maps ([std::unordered_map]) are
      stdpp's [gmap].
    - The engines link heap nodes into lists through raw pointers.  Every
      node is created by [put] together with the index entry that points to
      it ([cache_[key] = new_node]) and carries that entry's key, so a node is
      addressed here by its key: the index maps a key to the payload of its
      node, and a linked list is the [list] of the keys of its nodes, read
      from the list's head pointer on.
    - A method is a function from the object's state to an outcome and the
      state the call leaves behind: a C++ exception is an [inl], and the state
      returned with it is the state at the [throw].
    - The reader/writer lock is not modelled: calls are atomic and run one
      after the other.
    - An [int] is a [Z].  The counters that grow with the number of calls,
      the frequency of an LFU node and [min_frequency_], are incremented as
      a 32-bit [int] is, wrapping around at [INT_MAX] ([Lfu.int_wrap]).  A
      size is bounded by the capacity, itself an [int], and its arithmetic is
      exact.
    - The LRU-K engine reads [std::chrono::steady_clock]; the reading is an
      argument [now] of the calls that take one.
    - Where the source walks an [unordered_map], the model walks
      [map_to_list]; the lemmas on the walk use only that every entry is met
      once. *)

From stdpp Require Import gmap strings list fin_maps pretty sorting.
From Stdlib Require Import ZArith Lia.

Open Scope Z_scope.

(** ** Outcomes of a call *)

Inductive exception : Type :=
| InvalidCapacityException (capacity : Z)
| invalid_argument
| out_of_range
| runtime_error
| undefined_behaviour.
(* [undefined_behaviour] is not a C++ exception: it marks a read through a
   null or dangling pointer, or [front()] of an empty list. *)

Definition M (S A : Type) : Type := S → (exception + A) * S.

#[global] Instance M_ret {S} : MRet (M S) := λ A a s, (inr a, s).
#[global] Instance M_bind {S} : MBind (M S) := λ A B f m s,
  match m s with
  | (inr a, s') => f a s'
  | (inl e, s') => (inl e, s')
  end.

(** The calls of the cache contract that the properties range over. *)
Inductive op (Key Value : Type) : Type :=
| Get (key : Key)
| Put (key : Key) (value : Value)
| Contains (key : Key)
| Clear.
Arguments Get {Key Value} key.
Arguments Put {Key Value} key value.
Arguments Contains {Key Value} key.
Arguments Clear {Key Value}.

(** ** Lists of node handles *)

(** Unlinking a node from the list it is linked in. *)
Fixpoint unlink {Key : Type} `{EqDecision Key} (node : Key) (l : list Key) : list Key :=
  match l with
  | [] => []
  | x :: r => if decide (x = node) then r else x :: unlink node r
  end.

(** An index and the list of the nodes it points to: the list holds each
    indexed key once, and nothing else. *)
Record linked {Key : Type} `{Countable Key} {Node : Type}
    (l : list Key) (m : gmap Key Node) : Prop := mkLinked {
  linked_nodup : NoDup l;
  linked_index : ∀ k, k ∈ l ↔ is_Some (m !! k);
  linked_length : length l = base.size m
}.

(** * FIFO engine (include/FifoCache.h, src/FifoCache.cpp) *)

Module Fifo.
Section Fifo.
Context {Key : Type} `{Countable Key} {Value : Type}.

(** [queue] is the chain of nodes from [head_] (oldest) to [tail_]
    (newest); [cache_] gives the value stored in the node of a key. *)
Record FifoCache : Type := mkFifoCache {
  capacity_ : Z;
  size_ : Z;
  cache_ : gmap Key Value;
  queue : list Key
}.

Definition construct (capacity : Z) : exception + FifoCache :=
  if capacity <=? 0 then inl (InvalidCapacityException capacity)
  else inr {| capacity_ := capacity; size_ := 0; cache_ := ∅; queue := [] |}.

Definition addToTail (node : Key) (q : list Key) : list Key := q ++ [node].

(** Returns the unlinked head ([None] for [nullptr]) and the rest. *)
Definition removeHead (q : list Key) : option Key * list Key :=
  match q with
  | [] => (None, [])
  | old_head :: rest => (Some old_head, rest)
  end.

Definition get (key : Key) : M FifoCache Value := λ c,
  match cache_ c !! key with
  | None => (inl out_of_range, c)
  | Some value => (inr value, c)
  end.

(** The block of [put] guarded by [size_ >= capacity_]. *)
Definition evict (c : FifoCache) : FifoCache :=
  match removeHead (queue c) with
  | (Some head_node, rest) =>
      {| capacity_ := capacity_ c; size_ := size_ c - 1;
         cache_ := delete head_node (cache_ c); queue := rest |}
  | (None, rest) =>
      {| capacity_ := capacity_ c; size_ := size_ c;
         cache_ := cache_ c; queue := rest |}
  end.

Definition put (key : Key) (value : Value) : M FifoCache unit := λ c,
  match cache_ c !! key with
  | Some _ =>
      (inr tt, {| capacity_ := capacity_ c; size_ := size_ c;
                  cache_ := <[key := value]> (cache_ c); queue := queue c |})
  | None =>
      let c1 := if size_ c >=? capacity_ c then evict c else c in
      (inr tt, {| capacity_ := capacity_ c1; size_ := size_ c1 + 1;
                  cache_ := <[key := value]> (cache_ c1);
                  queue := addToTail key (queue c1) |})
  end.

Definition contains (key : Key) (c : FifoCache) : bool :=
  bool_decide (is_Some (cache_ c !! key)).

Definition size (c : FifoCache) : Z := size_ c.
Definition capacity (c : FifoCache) : Z := capacity_ c.
Definition empty (c : FifoCache) : bool := size_ c =? 0.

Definition clear : M FifoCache unit := λ c,
  (inr tt, {| capacity_ := capacity_ c; size_ := 0; cache_ := ∅; queue := [] |}).

Definition getPolicyName (c : FifoCache) : string := "FIFO".

(** One call, keeping only the state it leaves behind. *)
Definition step (o : op Key Value) (c : FifoCache) : FifoCache :=
  match o with
  | Get key => snd (get key c)
  | Put key value => snd (put key value c)
  | Contains key => c
  | Clear => snd (clear c)
  end.

Fixpoint run (ops : list (op Key Value)) (c : FifoCache) : FifoCache :=
  match ops with
  | [] => c
  | o :: rest => run rest (step o c)
  end.

(** The representation invariant: the index and the queue hold the same
    keys, each once, and [size_] counts them. *)
Record wf (c : FifoCache) : Prop := mkWf {
  wf_capacity : 0 < capacity_ c;
  wf_size : size_ c = Z.of_nat (base.size (cache_ c));
  wf_linked : linked (queue c) (cache_ c);
  wf_bound : size_ c <= capacity_ c
}.

End Fifo.
Arguments FifoCache Key {_ _} Value.
End Fifo.

(** * LRU engine (include/LruCache.h, src/LruCache.cpp) *)

Module Lru.
Section Lru.
Context {Key : Type} `{Countable Key} {Value : Type}.

(** [chain] is the recency list between the dummy nodes [head_] and
    [tail_]: its first node is [head_->next] (most recently used), its last
    node is [tail_->prev]. *)
Record LruCache : Type := mkLruCache {
  capacity_ : Z;
  size_ : Z;
  cache_ : gmap Key Value;
  chain : list Key
}.

Definition construct (capacity : Z) : exception + LruCache :=
  if capacity <=? 0 then inl (InvalidCapacityException capacity)
  else inr {| capacity_ := capacity; size_ := 0; cache_ := ∅; chain := [] |}.

Definition addToHead (node : Key) (l : list Key) : list Key := node :: l.

Definition removeNode (node : Key) (l : list Key) : list Key := unlink node l.

Definition moveToHead (node : Key) (l : list Key) : list Key :=
  addToHead node (removeNode node l).

(** [tail_->prev] of an empty list is the dummy [head_], whose [prev] is
    null: [removeNode] then writes through a null pointer. *)
Definition removeTail (l : list Key) : option (Key * list Key) :=
  match last l with
  | Some last_node => Some (last_node, removeNode last_node l)
  | None => None
  end.

Definition get (key : Key) : M LruCache Value := λ c,
  match cache_ c !! key with
  | None => (inl out_of_range, c)
  | Some value =>
      (inr value, {| capacity_ := capacity_ c; size_ := size_ c;
                     cache_ := cache_ c; chain := moveToHead key (chain c) |})
  end.

(** The block of [put] guarded by [size_ >= capacity_]. *)
Definition evict : M LruCache unit := λ c,
  match removeTail (chain c) with
  | None => (inl undefined_behaviour, c)
  | Some (tail_node, rest) =>
      (inr tt, {| capacity_ := capacity_ c; size_ := size_ c - 1;
                  cache_ := delete tail_node (cache_ c); chain := rest |})
  end.

Definition insert (key : Key) (value : Value) : M LruCache unit := λ c,
  (inr tt, {| capacity_ := capacity_ c; size_ := size_ c + 1;
              cache_ := <[key := value]> (cache_ c);
              chain := addToHead key (chain c) |}).

Definition put (key : Key) (value : Value) : M LruCache unit := λ c,
  match cache_ c !! key with
  | Some _ =>
      (inr tt, {| capacity_ := capacity_ c; size_ := size_ c;
                  cache_ := <[key := value]> (cache_ c);
                  chain := moveToHead key (chain c) |})
  | None =>
      ((if size_ c >=? capacity_ c then evict else mret tt) ;;
       insert key value) c
  end.

Definition contains (key : Key) (c : LruCache) : bool :=
  bool_decide (is_Some (cache_ c !! key)).

Definition size (c : LruCache) : Z := size_ c.
Definition capacity (c : LruCache) : Z := capacity_ c.
Definition empty (c : LruCache) : bool := size_ c =? 0.

Definition clear : M LruCache unit := λ c,
  (inr tt, {| capacity_ := capacity_ c; size_ := 0; cache_ := ∅; chain := [] |}).

Definition getPolicyName (c : LruCache) : string := "LRU".

Definition step (o : op Key Value) (c : LruCache) : LruCache :=
  match o with
  | Get key => snd (get key c)
  | Put key value => snd (put key value c)
  | Contains key => c
  | Clear => snd (clear c)
  end.

Fixpoint run (ops : list (op Key Value)) (c : LruCache) : LruCache :=
  match ops with
  | [] => c
  | o :: rest => run rest (step o c)
  end.

Record wf (c : LruCache) : Prop := mkWf {
  wf_capacity : 0 < capacity_ c;
  wf_size : size_ c = Z.of_nat (base.size (cache_ c));
  wf_linked : linked (chain c) (cache_ c);
  wf_bound : size_ c <= capacity_ c
}.

End Lru.
Arguments LruCache Key {_ _} Value.
End Lru.

(** * LFU engine (include/LfuCache.h, src/LfuCache.cpp) *)

Module Lfu.

(** The frequency of a node and [min_frequency_] are [int]s, 32 bits wide.
    [int_wrap z] is what an [int] holds when the arithmetic gives [z]: the
    value modulo [2 ^ 32] in two's complement, so that [INT_MAX + 1] is
    [- 2 ^ 31]. *)
Definition INT_MAX : Z := 2147483647.

Definition int_wrap (z : Z) : Z := (z + 2 ^ 31) mod 2 ^ 32 - 2 ^ 31.
Arguments int_wrap : simpl never.

(** [struct FrequencyBucket]: [nodes] is the list between the bucket's
    dummy [head] and [tail], [size] the counter kept next to it. *)
Module FrequencyBucket.
Section FrequencyBucket.
Context {Key : Type} `{EqDecision Key}.

Record t : Type := mk { nodes : list Key; size : Z }.

Definition new : t := {| nodes := []; size := 0 |}.

Definition addToHead (node : Key) (b : t) : t :=
  {| nodes := node :: nodes b; size := size b + 1 |}.

(** The source unlinks the node through the node's own pointers and
    decrements the counter of this bucket. *)
Definition removeNode (node : Key) (b : t) : t :=
  {| nodes := unlink node (nodes b); size := size b - 1 |}.

Definition removeTail (b : t) : option Key * t :=
  if size b =? 0 then (None, b)
  else match last (nodes b) with
       | None => (None, b)
       | Some last_node => (Some last_node, removeNode last_node b)
       end.

Definition empty (b : t) : bool := size b =? 0.

End FrequencyBucket.
Arguments t Key : clear implicits.
End FrequencyBucket.

Section Lfu.
Context {Key : Type} `{Countable Key} {Value : Type}.

(** The payload of a [CacheNode]; its links are the bucket lists. *)
Record CacheNode : Type := mkCacheNode { value : Value; frequency : Z }.

Record LfuCache : Type := mkLfuCache {
  capacity_ : Z;
  min_frequency_ : Z;
  cache_ : gmap Key CacheNode;
  frequency_buckets_ : gmap Z (FrequencyBucket.t Key)
}.

Definition construct (capacity : Z) : exception + LfuCache :=
  if capacity <=? 0 then inl (InvalidCapacityException capacity)
  else inr {| capacity_ := capacity; min_frequency_ := 1;
              cache_ := ∅; frequency_buckets_ := ∅ |}.

(** Returns the bucket found or created, and the bucket map holding it. *)
Definition getOrCreateBucket (frequency : Z)
    (buckets : gmap Z (FrequencyBucket.t Key))
    : FrequencyBucket.t Key * gmap Z (FrequencyBucket.t Key) :=
  match buckets !! frequency with
  | Some bucket => (bucket, buckets)
  | None => (FrequencyBucket.new, <[frequency := FrequencyBucket.new]> buckets)
  end.

(** [getOrCreateBucket(frequency)->addToHead(node)], as [updateFrequency]
    and [put] both write it. *)
Definition addToBucket (frequency : Z) (node : Key)
    (buckets : gmap Z (FrequencyBucket.t Key)) : gmap Z (FrequencyBucket.t Key) :=
  let '(bucket, buckets1) := getOrCreateBucket frequency buckets in
  <[frequency := FrequencyBucket.addToHead node bucket]> buckets1.

(** [node] is the handle of a node of the index; both callers pass the node
    they have just found there. *)
Definition updateFrequency (node : Key) (c : LfuCache) : LfuCache :=
  match cache_ c !! node with
  | None => c
  | Some n =>
      let old_freq := frequency n in
      let new_freq := int_wrap (old_freq + 1) in
      let '(buckets1, min1) :=
        match frequency_buckets_ c !! old_freq with
        | Some old_bucket =>
            let old_bucket' := FrequencyBucket.removeNode node old_bucket in
            (<[old_freq := old_bucket']> (frequency_buckets_ c),
             if FrequencyBucket.empty old_bucket' && (old_freq =? min_frequency_ c)
             then int_wrap (min_frequency_ c + 1) else min_frequency_ c)
        | None => (frequency_buckets_ c, min_frequency_ c)
        end in
      {| capacity_ := capacity_ c;
         min_frequency_ := min1;
         cache_ := <[node := {| value := value n; frequency := new_freq |}]> (cache_ c);
         frequency_buckets_ := addToBucket new_freq node buckets1 |}
  end.

Definition evictLFU (c : LfuCache) : option Key * LfuCache :=
  match frequency_buckets_ c !! min_frequency_ c with
  | None => (None, c)
  | Some bucket =>
      if FrequencyBucket.empty bucket then (None, c)
      else
        let '(evicted, bucket') := FrequencyBucket.removeTail bucket in
        (evicted,
         {| capacity_ := capacity_ c; min_frequency_ := min_frequency_ c;
            cache_ := cache_ c;
            frequency_buckets_ :=
              <[min_frequency_ c := bucket']> (frequency_buckets_ c) |})
  end.

Definition get (key : Key) : M LfuCache Value := λ c,
  match cache_ c !! key with
  | None => (inl out_of_range, c)
  | Some node => (inr (value node), updateFrequency key c)
  end.

(** The block of [put] guarded by [cache_.size() >= capacity_]. *)
Definition evict (c : LfuCache) : LfuCache :=
  match evictLFU c with
  | (Some evicted, c') =>
      {| capacity_ := capacity_ c'; min_frequency_ := min_frequency_ c';
         cache_ := delete evicted (cache_ c');
         frequency_buckets_ := frequency_buckets_ c' |}
  | (None, c') => c'
  end.

(** The insertion of a new node that ends [put]. *)
Definition insert (key : Key) (v : Value) (c : LfuCache) : LfuCache :=
  {| capacity_ := capacity_ c;
     min_frequency_ := 1;
     cache_ := <[key := {| value := v; frequency := 1 |}]> (cache_ c);
     frequency_buckets_ := addToBucket 1 key (frequency_buckets_ c) |}.

(** [static_cast<size_t>(capacity_)] is [capacity_] itself: the constructor
    admits positive capacities only. *)
Definition put (key : Key) (v : Value) : M LfuCache unit := λ c,
  if capacity_ c =? 0 then (inr tt, c)
  else
    match cache_ c !! key with
    | Some node =>
        (inr tt,
         updateFrequency key
           {| capacity_ := capacity_ c; min_frequency_ := min_frequency_ c;
              cache_ := <[key := {| value := v; frequency := frequency node |}]> (cache_ c);
              frequency_buckets_ := frequency_buckets_ c |})
    | None =>
        let c1 := if Z.of_nat (base.size (cache_ c)) >=? capacity_ c
                  then evict c else c in
        (inr tt, insert key v c1)
    end.

Definition contains (key : Key) (c : LfuCache) : bool :=
  bool_decide (is_Some (cache_ c !! key)).

Definition size (c : LfuCache) : Z := Z.of_nat (base.size (cache_ c)).
Definition capacity (c : LfuCache) : Z := capacity_ c.
Definition empty (c : LfuCache) : bool := bool_decide (cache_ c = ∅).

Definition clear : M LfuCache unit := λ c,
  (inr tt, {| capacity_ := capacity_ c; min_frequency_ := 1;
              cache_ := ∅; frequency_buckets_ := ∅ |}).

Definition getFrequency (key : Key) (c : LfuCache) : Z :=
  match cache_ c !! key with
  | None => 0
  | Some node => frequency node
  end.

Definition getMinFrequency (c : LfuCache) : Z := min_frequency_ c.

Definition getPolicyName (c : LfuCache) : string := "LFU".

Definition step (o : op Key Value) (c : LfuCache) : LfuCache :=
  match o with
  | Get key => snd (get key c)
  | Put key v => snd (put key v c)
  | Contains key => c
  | Clear => snd (clear c)
  end.

Fixpoint run (ops : list (op Key Value)) (c : LfuCache) : LfuCache :=
  match ops with
  | [] => c
  | o :: rest => run rest (step o c)
  end.

(** The frequencies that have a non-empty bucket, and the least of them. *)
Definition nonempty_frequencies (c : LfuCache) : list Z :=
  (filter (λ fb, FrequencyBucket.nodes fb.2 ≠ []) (map_to_list (frequency_buckets_ c))).*1.

Definition least (l : list Z) : option Z :=
  match l with
  | [] => None
  | x :: r => Some (foldr Z.min x r)
  end.

(** What [min_frequency_] is meant to hold: the least frequency with a
    non-empty bucket, and 1 when there is none. *)
Definition true_min_frequency (c : LfuCache) : Z :=
  default 1 (least (nonempty_frequencies c)).

(** A node is linked in the bucket of frequency [f]. *)
Definition in_bucket (buckets : gmap Z (FrequencyBucket.t Key)) (f : Z) (k : Key)
    : Prop :=
  ∃ b, buckets !! f = Some b ∧ k ∈ FrequencyBucket.nodes b.

(** The list of the bucket of frequency [f], from its head to its tail;
    empty when there is no such bucket. *)
Definition bucket_nodes (f : Z) (c : LfuCache) : list Key :=
  match frequency_buckets_ c !! f with
  | Some b => FrequencyBucket.nodes b
  | None => []
  end.

(** The buckets and the index agree: a bucket's counter is the length of its
    list, which has no repetition; a node is linked in the bucket of its
    frequency and in no other. *)
Record buckets_linked (buckets : gmap Z (FrequencyBucket.t Key))
    (cache : gmap Key CacheNode) : Prop := mkBucketsLinked {
  bl_bucket : ∀ f b, buckets !! f = Some b →
      NoDup (FrequencyBucket.nodes b) ∧
      FrequencyBucket.size b = Z.of_nat (length (FrequencyBucket.nodes b));
  bl_node : ∀ k f,
      in_bucket buckets f k ↔ (∃ n, cache !! k = Some n ∧ frequency n = f)
}.

(** The representation invariant, which holds whatever the counters have
    been through. *)
Record wf (c : LfuCache) : Prop := mkWf {
  wf_capacity : 0 < capacity_ c;
  wf_bound : Z.of_nat (base.size (cache_ c)) <= capacity_ c;
  wf_buckets : buckets_linked (frequency_buckets_ c) (cache_ c);
  wf_min_one : cache_ c = ∅ → min_frequency_ c = 1;
  wf_min_bucket : cache_ c ≠ ∅ → ∃ k, in_bucket (frequency_buckets_ c) (min_frequency_ c) k
}.

(** What holds of the counters as long as none has been incremented past
    [INT_MAX]: frequencies start at 1, and [min_frequency_] is below each. *)
Record counting (c : LfuCache) : Prop := mkCounting {
  cnt_freq : ∀ k n, cache_ c !! k = Some n → 1 <= frequency n <= INT_MAX;
  cnt_min_least : ∀ k n, cache_ c !! k = Some n → min_frequency_ c <= frequency n
}.

(** The call [o] increments no frequency that is [INT_MAX] already; [get]
    and [put] increment the frequency of their key when it is stored, and
    [getFrequency] is 0 for the others. *)
Definition fits (o : op Key Value) (c : LfuCache) : bool :=
  match o with
  | Get key | Put key _ => getFrequency key c <? INT_MAX
  | Contains _ | Clear => true
  end.

(** No call of the run [ops] from [c] overflows a counter. *)
Fixpoint no_overflow (ops : list (op Key Value)) (c : LfuCache) : bool :=
  match ops with
  | [] => true
  | o :: rest => fits o c && no_overflow rest (step o c)
  end.

(** The call [o] accesses [key]: [get] and [put] do, [contains] does not. *)
Definition accesses (o : op Key Value) (key : Key) : bool :=
  match o with
  | Get k | Put k _ => bool_decide (k = key)
  | Contains _ | Clear => false
  end.

(** The position in [ops], counted from 1, of the last call that accesses
    [key]; 0 when none does.  A [get] that fails is counted too; for a key
    that is stored the last such call is one that found it or stored it,
    since [put] alone stores a key. *)
Fixpoint last_access (key : Key) (ops : list (op Key Value)) : nat :=
  match ops with
  | [] => 0%nat
  | o :: rest =>
      match last_access key rest with
      | O => if accesses o key then 1%nat else 0%nat
      | S p => S (S p)
      end
  end.

(** [l] lists its keys from the most recently accessed to the least. *)
Definition by_recency (ops : list (op Key Value)) (l : list Key) : Prop :=
  StronglySorted (λ k1 k2, (last_access k2 ops < last_access k1 ops)%nat) l.

End Lfu.
Arguments LfuCache Key {_ _} Value.
Arguments CacheNode Value : clear implicits.
End Lfu.

(** * LRU-K engine (include/LruKCache.h, src/LruKCache.cpp) *)

Module LruK.

(** [std::chrono::steady_clock::time_point]: a signed 64-bit tick count. *)
Abbreviation TimeStamp := Z (only parsing).
Definition TimeStamp_min : TimeStamp := - 2 ^ 63.
Definition TimeStamp_max : TimeStamp := 2 ^ 63 - 1.

(** A [HistoryRecord] is its [access_times], oldest first; its [key] field
    repeats the key of the table entry that owns it. *)
Abbreviation HistoryRecord := (list Z) (only parsing).

Section LruK.
Context {Key : Type} `{Countable Key} {Value : Type}.

Record CacheRecord : Type := mkCacheRecord {
  value : Value;
  access_times : list TimeStamp
}.

Record LruKCache : Type := mkLruKCache {
  capacity_ : Z;
  k_ : Z;
  history_ : gmap Key HistoryRecord;
  cache_ : gmap Key CacheRecord
}.

Definition construct (capacity k : Z) : exception + LruKCache :=
  if capacity <=? 0 then inl (InvalidCapacityException capacity)
  else if k <=? 0 then inl invalid_argument
  else inr {| capacity_ := capacity; k_ := k; history_ := ∅; cache_ := ∅ |}.

(** [push_back(now)] followed by the [pop_front()] that keeps at most [k]
    entries.  [now] is the reading of the steady clock. *)
Definition push_capped (k : Z) (now : TimeStamp) (times : list TimeStamp)
    : list TimeStamp :=
  let times' := times ++ [now] in
  if Z.of_nat (length times') >? k then tail times' else times'.

Definition recordHistoryAccess (now : TimeStamp) (key : Key) (c : LruKCache)
    : LruKCache :=
  {| capacity_ := capacity_ c; k_ := k_ c;
     history_ :=
       match history_ c !! key with
       | None => <[key := [now]]> (history_ c)
       | Some times => <[key := push_capped (k_ c) now times]> (history_ c)
       end;
     cache_ := cache_ c |}.

Definition recordCacheAccess (k : Z) (now : TimeStamp) (record : CacheRecord)
    : CacheRecord :=
  {| value := value record;
     access_times := push_capped k now (access_times record) |}.

Definition promoteToCache (key : Key) (v : Value) : M LruKCache unit := λ c,
  match history_ c !! key with
  | None => (inl runtime_error, c)
  | Some times =>
      (inr tt, {| capacity_ := capacity_ c; k_ := k_ c;
                  history_ := delete key (history_ c);
                  cache_ := <[key := {| value := v; access_times := times |}]> (cache_ c) |})
  end.

Definition getKthAccessTime (k : Z) (record : HistoryRecord) : TimeStamp :=
  match record with
  | [] => TimeStamp_min
  | first_access :: _ =>
      if Z.of_nat (length record) <? k then first_access
      else default TimeStamp_min (last record)
  end.

Definition getCacheKthAccessTime (record : CacheRecord) : TimeStamp :=
  match last (access_times record) with
  | None => TimeStamp_min
  | Some back => back
  end.

(** The first loop of [findVictimKey]; the accumulator is [None] while
    [found_in_history] is false, and then holds [victim_key] and
    [earliest_time].  The table is visited in the order of [map_to_list]:
    an [unordered_map] leaves the order open. *)
Fixpoint scanHistory (k_val : Z) (l : list (Key * HistoryRecord))
    (acc : option (Key * TimeStamp)) : exception + option (Key * TimeStamp) :=
  match l with
  | [] => inr acc
  | (key, record) :: rest =>
      if Z.of_nat (length record) <? k_val then
        match record with
        | [] => inl undefined_behaviour
        | first_access :: _ =>
            match acc with
            | None => scanHistory k_val rest (Some (key, first_access))
            | Some (_, earliest_time) =>
                if first_access <? earliest_time
                then scanHistory k_val rest (Some (key, first_access))
                else scanHistory k_val rest acc
            end
        end
      else scanHistory k_val rest acc
  end.

(** The second loop; the accumulator is [victim_key] and [earliest_time]. *)
Fixpoint scanCache (l : list (Key * CacheRecord)) (acc : Key * TimeStamp)
    : Key * TimeStamp :=
  match l with
  | [] => acc
  | (key, record) :: rest =>
      let kth_access := getCacheKthAccessTime record in
      if kth_access <? acc.2 then scanCache rest (key, kth_access)
      else scanCache rest acc
  end.

Definition findVictimKey (c : LruKCache) : exception + Key :=
  match scanHistory (k_ c) (map_to_list (history_ c)) None with
  | inl e => inl e
  | inr (Some (victim_key, _)) => inr victim_key
  | inr None =>
      match map_to_list (cache_ c) with
      | [] => inl runtime_error
      | (first_key, record) :: rest =>
          inr (scanCache ((first_key, record) :: rest) (first_key, TimeStamp_max)).1
      end
  end.

Definition get (now : TimeStamp) (key : Key) : M LruKCache Value := λ c,
  match cache_ c !! key with
  | Some record =>
      let record' := recordCacheAccess (k_ c) now record in
      (inr (value record'),
       {| capacity_ := capacity_ c; k_ := k_ c; history_ := history_ c;
          cache_ := <[key := record']> (cache_ c) |})
  | None => (inl out_of_range, c)
  end.

(** The block of [put] guarded by [cache_.size() >= cap]. *)
Definition evict : M LruKCache unit := λ c,
  match findVictimKey c with
  | inl e => (inl e, c)
  | inr victim_key =>
      match cache_ c !! victim_key with
      | Some _ =>
          (inr tt, {| capacity_ := capacity_ c; k_ := k_ c;
                      history_ := history_ c;
                      cache_ := delete victim_key (cache_ c) |})
      | None =>
          (inr tt, {| capacity_ := capacity_ c; k_ := k_ c;
                      history_ := delete victim_key (history_ c);
                      cache_ := cache_ c |})
      end
  end.

(** Whether [put] goes on to promote the key: its history record holds at
    least [k_val] entries. *)
Definition reachedK (key : Key) (c : LruKCache) : bool :=
  match history_ c !! key with
  | Some times => Z.of_nat (length times) >=? k_ c
  | None => false
  end.

Definition put (now : TimeStamp) (key : Key) (v : Value) : M LruKCache unit := λ c,
  match cache_ c !! key with
  | Some record =>
      (inr tt,
       {| capacity_ := capacity_ c; k_ := k_ c; history_ := history_ c;
          cache_ :=
            <[key := recordCacheAccess (k_ c) now
                       {| value := v; access_times := access_times record |}]>
              (cache_ c) |})
  | None =>
      let c1 := recordHistoryAccess now key c in
      if reachedK key c1 then
        ((if Z.of_nat (base.size (cache_ c1)) >=? capacity_ c1
          then evict else mret tt) ;;
         promoteToCache key v) c1
      else (inr tt, c1)
  end.

Definition contains (key : Key) (c : LruKCache) : bool :=
  bool_decide (is_Some (cache_ c !! key)).

Definition size (c : LruKCache) : Z := Z.of_nat (base.size (cache_ c)).
Definition capacity (c : LruKCache) : Z := capacity_ c.
Definition empty (c : LruKCache) : bool := bool_decide (cache_ c = ∅).

Definition clear : M LruKCache unit := λ c,
  (inr tt, {| capacity_ := capacity_ c; k_ := k_ c; history_ := ∅; cache_ := ∅ |}).

Definition getK (c : LruKCache) : Z := k_ c.

(** ["LRU-" + std::to_string(k_val)]: the decimal numeral of [k_]. *)
Definition getPolicyName (c : LruKCache) : string := "LRU-" +:+ pretty (k_ c).

Definition getHistoryAccessCount (key : Key) (c : LruKCache) : Z :=
  match history_ c !! key with
  | None => 0
  | Some times => Z.of_nat (length times)
  end.

Definition getCacheAccessCount (key : Key) (c : LruKCache) : Z :=
  match cache_ c !! key with
  | None => 0
  | Some record => Z.of_nat (length (access_times record))
  end.

(** One call at clock reading [now]. *)
Definition step (now : TimeStamp) (o : op Key Value) (c : LruKCache) : LruKCache :=
  match o with
  | Get key => snd (get now key c)
  | Put key v => snd (put now key v c)
  | Contains key => c
  | Clear => snd (clear c)
  end.

Fixpoint run (ops : list (TimeStamp * op Key Value)) (c : LruKCache) : LruKCache :=
  match ops with
  | [] => c
  | (now, o) :: rest => run rest (step now o c)
  end.

(** The representation invariant: a key is in one table at most, and a
    history record holds between 1 and [k_ - 1] timestamps. *)
Record wf (c : LruKCache) : Prop := mkWf {
  wf_capacity : 0 < capacity_ c;
  wf_k : 0 < k_ c;
  wf_disjoint : ∀ key, is_Some (history_ c !! key) → cache_ c !! key = None;
  wf_history : ∀ key times, history_ c !! key = Some times →
      (0 < length times)%nat ∧ Z.of_nat (length times) < k_ c
}.

(** Every queue of timestamps is in ascending order and holds no timestamp
    later than [bound]. *)
Definition ascending (bound : TimeStamp) (times : list TimeStamp) : Prop :=
  StronglySorted Z.le times ∧ Forall (λ t, t <= bound) times.

Definition ordered (bound : TimeStamp) (c : LruKCache) : Prop :=
  (∀ key times, history_ c !! key = Some times → ascending bound times) ∧
  (∀ key record, cache_ c !! key = Some record →
                 ascending bound (access_times record)).

End LruK.
Arguments LruKCache Key {_ _} Value.
Arguments CacheRecord Value : clear implicits.
End LruK.

(** * Proofs *)

(** ** Unlinking *)

Section Links.
Context {Key : Type} `{EqDecision Key}.
Implicit Types (node x : Key) (l : list Key).

Lemma unlink_notin node l : node ∉ l → unlink node l = l.
Proof.
  induction l as [|x r IH]; simpl; [done|].
  intros Hn. apply not_elem_of_cons in Hn as [Hx Hr].
  destruct (decide (x = node)); [congruence|]. by rewrite IH.
Qed.

Lemma elem_of_unlink node l x :
  NoDup l → x ∈ unlink node l ↔ x ∈ l ∧ x ≠ node.
Proof.
  induction l as [|y r IH]; simpl; intros Hnd.
  - rewrite elem_of_nil. tauto.
  - apply NoDup_cons in Hnd as [Hy Hr].
    destruct (decide (y = node)) as [->|Hne].
    + rewrite elem_of_cons. split.
      * intros Hx. split; [by right|]. by intros ->.
      * intros [[->|Hx] Hne]; [done|done].
    + rewrite !elem_of_cons, IH by done. intuition congruence.
Qed.

Lemma NoDup_unlink node l : NoDup l → NoDup (unlink node l).
Proof.
  induction l as [|y r IH]; simpl; intros Hnd; [done|].
  apply NoDup_cons in Hnd as [Hy Hr].
  destruct (decide (y = node)); [done|].
  apply NoDup_cons. split; [|by apply IH].
  rewrite elem_of_unlink by done. tauto.
Qed.

Lemma length_unlink node l :
  node ∈ l → S (length (unlink node l)) = length l.
Proof.
  induction l as [|y r IH]; simpl; intros Hin.
  - by apply elem_of_nil in Hin.
  - destruct (decide (y = node)) as [->|Hne]; [done|].
    apply elem_of_cons in Hin as [->|Hin]; [done|].
    simpl. by rewrite IH.
Qed.

Lemma unlink_last l node : NoDup (l ++ [node]) → unlink node (l ++ [node]) = l.
Proof.
  induction l as [|y r IH]; simpl; intros Hnd.
  - by rewrite decide_True.
  - apply NoDup_cons in Hnd as [Hy Hr].
    destruct (decide (y = node)) as [->|Hne].
    + exfalso. apply Hy, elem_of_app. right. by apply list_elem_of_singleton.
    + by rewrite IH.
Qed.

Lemma unlink_perm node l : node ∈ l → node :: unlink node l ≡ₚ l.
Proof.
  induction l as [|y r IH]; simpl; intros Hin.
  - by apply elem_of_nil in Hin.
  - destruct (decide (y = node)) as [->|Hne]; [done|].
    apply elem_of_cons in Hin as [->|Hin]; [done|].
    rewrite Permutation_swap. by rewrite IH.
Qed.

End Links.

(** ** An index and its list *)

Section Linked.
Context {Key : Type} `{Countable Key} {Node : Type}.
Implicit Types (l : list Key) (m : gmap Key Node).

Lemma linked_empty : linked ([] : list Key) (∅ : gmap Key Node).
Proof.
  split; [apply NoDup_nil_2 | | done].
  intros k. rewrite lookup_empty, elem_of_nil. split; [done | by intros [? ?]].
Qed.

Lemma linked_perm l l' m : l ≡ₚ l' → linked l m → linked l' m.
Proof.
  intros Hp [Hn Hi Hl]. split.
  - by rewrite <- Hp.
  - intros k. by rewrite <- Hp.
  - by rewrite <- Hp.
Qed.

Lemma linked_update l m k node :
  linked l m → is_Some (m !! k) → linked l (<[k := node]> m).
Proof.
  intros [Hn Hi Hl] Hk. split; [done | |].
  - intros k'. rewrite Hi. destruct (decide (k' = k)) as [->|Hne].
    + rewrite lookup_insert_eq. split; [by eexists | done].
    + by rewrite lookup_insert_ne.
  - by rewrite map_size_insert_Some.
Qed.

Lemma linked_cons l m k node :
  linked l m → m !! k = None → linked (k :: l) (<[k := node]> m).
Proof.
  intros [Hn Hi Hl] Hk. split.
  - apply NoDup_cons. split; [|done].
    intros [? ?]%Hi. congruence.
  - intros k'. rewrite elem_of_cons, Hi.
    destruct (decide (k' = k)) as [->|Hne].
    + rewrite lookup_insert_eq. split; [by eexists | by left].
    + rewrite lookup_insert_ne by done. split; [|by right].
      by intros [?|?].
  - simpl. by rewrite map_size_insert_None, Hl.
Qed.

Lemma linked_snoc l m k node :
  linked l m → m !! k = None → linked (l ++ [k]) (<[k := node]> m).
Proof.
  intros Hl Hk. apply (linked_perm (k :: l)).
  - apply Permutation_cons_append.
  - by apply linked_cons.
Qed.

Lemma linked_unlink l m k :
  linked l m → linked (unlink k l) (delete k m).
Proof.
  intros [Hn Hi Hl]. split.
  - by apply NoDup_unlink.
  - intros k'. rewrite elem_of_unlink, Hi by done.
    destruct (decide (k' = k)) as [->|Hne].
    + rewrite lookup_delete_eq. split; [by intros [_ ?] | by intros [? ?]].
    + rewrite lookup_delete_ne by done. split; [by intros [? _] | done].
  - destruct (m !! k) as [node|] eqn:Hk.
    + assert (k ∈ l) as Hin by (apply Hi; by eexists).
      apply length_unlink in Hin.
      rewrite map_size_delete_Some by (by eexists). lia.
    + rewrite map_size_delete_None by done.
      rewrite unlink_notin; [done|].
      intros [? ?]%Hi. congruence.
Qed.

Lemma linked_lookup l m k : linked l m → k ∈ l → is_Some (m !! k).
Proof. intros [_ Hi _]. apply Hi. Qed.

Lemma linked_elem l m k : linked l m → is_Some (m !! k) → k ∈ l.
Proof. intros [_ Hi _]. apply Hi. Qed.

Lemma linked_nil_size m : linked [] m → base.size m = 0%nat.
Proof. intros [_ _ Hl]. by rewrite <- Hl. Qed.

(** Moving an indexed node to the front keeps the list linked. *)
Lemma linked_move l m k :
  linked l m → is_Some (m !! k) → linked (k :: unlink k l) m.
Proof.
  intros Hl Hk. apply (linked_perm l); [|done].
  symmetry. apply unlink_perm. by apply (linked_elem l m).
Qed.

End Linked.

(** ** FIFO *)

Section FifoProofs.
Context {Key : Type} `{Countable Key} {Value : Type}.
Implicit Types (c : Fifo.FifoCache Key Value) (key : Key) (v : Value).

Lemma fifo_construct_wf capacity c : Fifo.construct capacity = inr c → Fifo.wf c.
Proof.
  unfold Fifo.construct. destruct (Z.leb_spec capacity 0); [done|].
  intros [= <-]. split; simpl; [lia | done | apply linked_empty | lia].
Qed.

Lemma fifo_clear_wf c : Fifo.wf c → Fifo.wf (snd (Fifo.clear c)).
Proof.
  intros [Hc _ _ _]. split; simpl; [done | done | apply linked_empty | lia].
Qed.

(** On a full queue the eviction unlinks the head, and nothing else. *)
Lemma fifo_evict_head c :
  Fifo.wf c → 0 < Fifo.size_ c →
  ∃ h rest, Fifo.queue c = h :: rest ∧ is_Some (Fifo.cache_ c !! h) ∧
    Fifo.evict c = Fifo.mkFifoCache (Fifo.capacity_ c) (Fifo.size_ c - 1)
                     (delete h (Fifo.cache_ c)) rest.
Proof.
  intros [Hc Hs Hl Hb] Hpos. unfold Fifo.evict.
  destruct (Fifo.queue c) as [|h rest] eqn:Hq; simpl.
  - pose proof (linked_nil_size _ Hl). lia.
  - exists h, rest. split; [done|]. split; [|done].
    apply (linked_lookup _ _ _ Hl). by left.
Qed.

Lemma fifo_evict_wf c :
  Fifo.wf c → 0 < Fifo.size_ c →
  linked (Fifo.queue (Fifo.evict c)) (Fifo.cache_ (Fifo.evict c)) ∧
  Fifo.size_ (Fifo.evict c) = Z.of_nat (base.size (Fifo.cache_ (Fifo.evict c))) ∧
  Fifo.size_ (Fifo.evict c) = Fifo.size_ c - 1 ∧
  Fifo.capacity_ (Fifo.evict c) = Fifo.capacity_ c.
Proof.
  intros Hwf Hpos.
  destruct (fifo_evict_head c Hwf Hpos) as (h & rest & Hq & Hh & ->). simpl.
  destruct Hwf as [Hc Hs Hl Hb].
  pose proof (linked_unlink _ _ h Hl) as Hu.
  rewrite Hq in Hu. simpl in Hu. rewrite decide_True in Hu by done.
  rewrite map_size_delete_Some by done.
  pose proof (linked_length _ _ Hl) as Hlen. rewrite Hq in Hlen. simpl in Hlen.
  split; [done|]. split; [lia|]. split; [lia | done].
Qed.

Lemma fifo_put_wf key v c : Fifo.wf c → Fifo.wf (snd (Fifo.put key v c)).
Proof.
  intros Hwf. pose proof Hwf as [Hc Hs Hl Hb]. unfold Fifo.put.
  destruct (Fifo.cache_ c !! key) as [old|] eqn:Hk; simpl.
  - split; simpl; try done.
    + rewrite map_size_insert_Some; [done | by eexists].
    + apply linked_update; [done | by eexists].
  - destruct (Z.geb_spec (Fifo.size_ c) (Fifo.capacity_ c)) as [Hfull|Hroom].
    + destruct (fifo_evict_wf c Hwf) as (Hl' & Hs' & Hd & Hcap); [lia|].
      assert (Fifo.cache_ (Fifo.evict c) !! key = None) as Hk'.
      { unfold Fifo.evict. destruct (Fifo.queue c); simpl; [done|].
        apply lookup_delete_None. by right. }
      split; simpl.
      * by rewrite Hcap.
      * rewrite map_size_insert_None by done. lia.
      * by apply linked_snoc.
      * lia.
    + split; simpl.
      * done.
      * rewrite map_size_insert_None by done. lia.
      * by apply linked_snoc.
      * lia.
Qed.

Lemma fifo_get_state key c : snd (Fifo.get key c) = c.
Proof. unfold Fifo.get. by destruct (Fifo.cache_ c !! key). Qed.

Lemma fifo_step_wf o c : Fifo.wf c → Fifo.wf (Fifo.step o c).
Proof.
  destruct o; simpl; intros Hwf.
  - by rewrite fifo_get_state.
  - by apply fifo_put_wf.
  - done.
  - by apply fifo_clear_wf.
Qed.

Lemma fifo_run_wf ops c : Fifo.wf c → Fifo.wf (Fifo.run ops c).
Proof.
  revert c. induction ops as [|o rest IH]; simpl; intros c Hwf; [done|].
  by apply IH, fifo_step_wf.
Qed.

Lemma fifo_run_app ops1 ops2 c :
  Fifo.run (ops1 ++ ops2) c = Fifo.run ops2 (Fifo.run ops1 c).
Proof.
  revert c. induction ops1 as [|o r IH]; simpl; intros c; [done|]. apply IH.
Qed.

Lemma fifo_reachable_wf capacity c0 ops :
  Fifo.construct capacity = inr c0 → Fifo.wf (Fifo.run ops c0).
Proof. intros Hc. by apply fifo_run_wf, (fifo_construct_wf capacity). Qed.

(** Any number of [get]s of one key leaves the engine as it was. *)
Lemma fifo_run_gets key n c : Fifo.run (replicate n (Get key)) c = c.
Proof.
  induction n as [|n IH]; simpl; [done|]. by rewrite fifo_get_state.
Qed.

Lemma fifo_contains_true key c :
  Fifo.contains key c = true ↔ is_Some (Fifo.cache_ c !! key).
Proof. unfold Fifo.contains. apply bool_decide_eq_true. Qed.

Lemma fifo_contains_false key c :
  Fifo.contains key c = false ↔ Fifo.cache_ c !! key = None.
Proof.
  unfold Fifo.contains. rewrite bool_decide_eq_false. symmetry. apply eq_None_not_Some.
Qed.

(** [put] on a key of the index: the value changes, the queue does not. *)
Lemma fifo_put_existing key v c :
  is_Some (Fifo.cache_ c !! key) →
  Fifo.put key v c =
    (inr tt, Fifo.mkFifoCache (Fifo.capacity_ c) (Fifo.size_ c)
               (<[key := v]> (Fifo.cache_ c)) (Fifo.queue c)).
Proof. intros [old Hk]. unfold Fifo.put. by rewrite Hk. Qed.

(** [put] of a new key on a full engine: the head leaves, the key is
    appended. *)
Lemma fifo_put_full key v c :
  Fifo.wf c → Fifo.cache_ c !! key = None → Fifo.size_ c = Fifo.capacity_ c →
  ∃ h rest, Fifo.queue c = h :: rest ∧ h ≠ key ∧
    Fifo.put key v c =
      (inr tt, Fifo.mkFifoCache (Fifo.capacity_ c) (Fifo.size_ c)
                 (<[key := v]> (delete h (Fifo.cache_ c))) (rest ++ [key])).
Proof.
  intros Hwf Hk Hfull. pose proof Hwf as [Hc Hs Hl Hb].
  destruct (fifo_evict_head c Hwf) as (h & rest & Hq & Hh & Hev); [lia|].
  exists h, rest. split; [done|]. split.
  { intros ->. rewrite Hk in Hh. by destruct Hh. }
  unfold Fifo.put. rewrite Hk.
  destruct (Z.geb_spec (Fifo.size_ c) (Fifo.capacity_ c)); [|lia].
  rewrite Hev. simpl. unfold Fifo.addToTail. do 3 f_equal. lia.
Qed.

End FifoProofs.

(** ** LRU *)

Section LruProofs.
Context {Key : Type} `{Countable Key} {Value : Type}.
Implicit Types (c : Lru.LruCache Key Value) (key : Key) (v : Value).

Lemma lru_construct_wf capacity c : Lru.construct capacity = inr c → Lru.wf c.
Proof.
  unfold Lru.construct. destruct (Z.leb_spec capacity 0); [done|].
  intros [= <-]. split; simpl; [lia | done | apply linked_empty | lia].
Qed.

Lemma lru_clear_wf c : Lru.wf c → Lru.wf (snd (Lru.clear c)).
Proof.
  intros [Hc _ _ _]. split; simpl; [done | done | apply linked_empty | lia].
Qed.

Lemma lru_contains_true key c :
  Lru.contains key c = true ↔ is_Some (Lru.cache_ c !! key).
Proof. unfold Lru.contains. apply bool_decide_eq_true. Qed.

Lemma lru_contains_false key c :
  Lru.contains key c = false ↔ Lru.cache_ c !! key = None.
Proof.
  unfold Lru.contains. rewrite bool_decide_eq_false. symmetry.
  apply eq_None_not_Some.
Qed.

(** [get] of an indexed key returns its value and relinks its node at the
    head. *)
Lemma lru_get_existing key value c :
  Lru.cache_ c !! key = Some value →
  Lru.get key c =
    (inr value, Lru.mkLruCache (Lru.capacity_ c) (Lru.size_ c) (Lru.cache_ c)
                  (key :: unlink key (Lru.chain c))).
Proof. intros Hk. unfold Lru.get. by rewrite Hk. Qed.

Lemma lru_get_missing key c :
  Lru.cache_ c !! key = None → Lru.get key c = (inl out_of_range, c).
Proof. intros Hk. unfold Lru.get. by rewrite Hk. Qed.

Lemma lru_put_existing key v c :
  is_Some (Lru.cache_ c !! key) →
  Lru.put key v c =
    (inr tt, Lru.mkLruCache (Lru.capacity_ c) (Lru.size_ c)
               (<[key := v]> (Lru.cache_ c)) (key :: unlink key (Lru.chain c))).
Proof. intros [old Hk]. unfold Lru.put. by rewrite Hk. Qed.

(** On a non-empty engine the eviction unlinks the last node of the chain. *)
Lemma lru_evict_tail c :
  Lru.wf c → 0 < Lru.size_ c →
  ∃ t rest, Lru.chain c = rest ++ [t] ∧ is_Some (Lru.cache_ c !! t) ∧
    Lru.evict c =
      (inr tt, Lru.mkLruCache (Lru.capacity_ c) (Lru.size_ c - 1)
                 (delete t (Lru.cache_ c)) rest).
Proof.
  intros [Hc Hs Hl Hb] Hpos. unfold Lru.evict, Lru.removeTail.
  destruct (last (Lru.chain c)) as [t|] eqn:Hlast.
  - apply last_Some in Hlast as [rest Hrest]. exists t, rest.
    split; [done|]. split.
    + apply (linked_lookup _ _ _ Hl). rewrite Hrest, elem_of_app. right.
      by apply list_elem_of_singleton.
    + unfold Lru.removeNode. rewrite Hrest, unlink_last; [done|].
      rewrite <- Hrest. by destruct Hl.
  - apply last_None in Hlast. rewrite Hlast in Hl.
    pose proof (linked_nil_size _ Hl). lia.
Qed.

Lemma lru_put_full key v c :
  Lru.wf c → Lru.cache_ c !! key = None → Lru.size_ c = Lru.capacity_ c →
  ∃ t rest, Lru.chain c = rest ++ [t] ∧ t ≠ key ∧
    Lru.put key v c =
      (inr tt, Lru.mkLruCache (Lru.capacity_ c) (Lru.size_ c)
                 (<[key := v]> (delete t (Lru.cache_ c))) (key :: rest)).
Proof.
  intros Hwf Hk Hfull. pose proof Hwf as [Hc Hs Hl Hb].
  destruct (lru_evict_tail c Hwf) as (t & rest & Hq & Ht & Hev); [lia|].
  exists t, rest. split; [done|]. split.
  { intros ->. rewrite Hk in Ht. by destruct Ht. }
  unfold Lru.put. rewrite Hk.
  destruct (Z.geb_spec (Lru.size_ c) (Lru.capacity_ c)); [|lia].
  unfold mbind, M_bind. rewrite Hev. unfold Lru.insert, Lru.addToHead. simpl.
  do 3 f_equal. lia.
Qed.

Lemma lru_put_room key v c :
  Lru.cache_ c !! key = None → Lru.size_ c < Lru.capacity_ c →
  Lru.put key v c =
    (inr tt, Lru.mkLruCache (Lru.capacity_ c) (Lru.size_ c + 1)
               (<[key := v]> (Lru.cache_ c)) (key :: Lru.chain c)).
Proof.
  intros Hk Hroom. unfold Lru.put. rewrite Hk.
  destruct (Z.geb_spec (Lru.size_ c) (Lru.capacity_ c)); [lia|]. done.
Qed.

Lemma lru_get_wf key c : Lru.wf c → Lru.wf (snd (Lru.get key c)).
Proof.
  intros [Hc Hs Hl Hb]. destruct (Lru.cache_ c !! key) as [value|] eqn:Hk.
  - rewrite (lru_get_existing _ value) by done. split; simpl; try done.
    apply linked_move; [done | by eexists].
  - by rewrite lru_get_missing.
Qed.

Lemma lru_put_wf key v c : Lru.wf c → Lru.wf (snd (Lru.put key v c)).
Proof.
  intros Hwf. pose proof Hwf as [Hc Hs Hl Hb].
  destruct (Lru.cache_ c !! key) as [old|] eqn:Hk.
  - rewrite lru_put_existing by (by eexists). split; simpl; try done.
    + rewrite map_size_insert_Some; [done | by eexists].
    + apply linked_move.
      * apply linked_update; [done | by eexists].
      * rewrite lookup_insert_eq. by eexists.
  - destruct (Z.lt_ge_cases (Lru.size_ c) (Lru.capacity_ c)) as [Hroom|Hfull].
    + rewrite lru_put_room by done. split; simpl.
      * done.
      * rewrite map_size_insert_None by done. lia.
      * by apply linked_cons.
      * lia.
    + destruct (lru_put_full key v c Hwf Hk) as (t & rest & Hq & Hne & ->); [lia|].
      pose proof (linked_unlink _ _ t Hl) as Hu.
      rewrite Hq, unlink_last in Hu by (rewrite <- Hq; by destruct Hl).
      assert (is_Some (Lru.cache_ c !! t)) as Ht.
      { apply (linked_lookup _ _ _ Hl). rewrite Hq, elem_of_app. right.
        by apply list_elem_of_singleton. }
      assert (delete t (Lru.cache_ c) !! key = None) as Hk'
        by (apply lookup_delete_None; by right).
      split; simpl.
      * done.
      * rewrite map_size_insert_None, map_size_delete_Some by done.
        assert (base.size (Lru.cache_ c) ≠ 0%nat); [|lia].
        apply map_size_ne_0_lookup. destruct Ht as [x Hx]. by exists t, x.
      * by apply linked_cons.
      * done.
Qed.

Lemma lru_step_wf o c : Lru.wf c → Lru.wf (Lru.step o c).
Proof.
  destruct o; simpl; intros Hwf.
  - by apply lru_get_wf.
  - by apply lru_put_wf.
  - done.
  - by apply lru_clear_wf.
Qed.

Lemma lru_run_wf ops c : Lru.wf c → Lru.wf (Lru.run ops c).
Proof.
  revert c. induction ops as [|o rest IH]; simpl; intros c Hwf; [done|].
  by apply IH, lru_step_wf.
Qed.

Lemma lru_reachable_wf capacity c0 ops :
  Lru.construct capacity = inr c0 → Lru.wf (Lru.run ops c0).
Proof. intros Hc. by apply lru_run_wf, (lru_construct_wf capacity). Qed.

(** [put] never fails on a well-formed engine. *)
Lemma lru_put_ok key v c : Lru.wf c → fst (Lru.put key v c) = inr tt.
Proof.
  intros Hwf. pose proof Hwf as [Hc Hs Hl Hb].
  destruct (Lru.cache_ c !! key) as [old|] eqn:Hk.
  - by rewrite lru_put_existing by (by eexists).
  - destruct (Z.lt_ge_cases (Lru.size_ c) (Lru.capacity_ c)) as [Hroom|Hfull].
    + by rewrite lru_put_room.
    + by destruct (lru_put_full key v c Hwf Hk) as (t & rest & _ & _ & ->); [lia|].
Qed.

End LruProofs.

(** ** LFU *)

Section LfuBuckets.
Context {Key : Type} `{Countable Key} {Value : Type}.
Implicit Types (B : gmap Z (Lfu.FrequencyBucket.t Key)).
Implicit Types (C : gmap Key (Lfu.CacheNode Value)).
Implicit Types (b : Lfu.FrequencyBucket.t Key) (k key : Key) (f g : Z).

Local Abbreviation nodes := Lfu.FrequencyBucket.nodes.
Local Abbreviation counted B :=
  (∀ f b, B !! f = Some b →
     NoDup (nodes b) ∧ Lfu.FrequencyBucket.size b = Z.of_nat (length (nodes b))).

Lemma lfu_addToBucket_eq g k B :
  Lfu.addToBucket g k B !! g =
    Some (Lfu.FrequencyBucket.addToHead k (default Lfu.FrequencyBucket.new (B !! g))).
Proof.
  unfold Lfu.addToBucket, Lfu.getOrCreateBucket.
  destruct (B !! g) eqn:E; simpl; by rewrite lookup_insert_eq.
Qed.

Lemma lfu_addToBucket_ne g g' k B :
  g' ≠ g → Lfu.addToBucket g k B !! g' = B !! g'.
Proof.
  intros Hne. unfold Lfu.addToBucket, Lfu.getOrCreateBucket.
  destruct (B !! g); simpl; by rewrite !lookup_insert_ne by done.
Qed.

Lemma lfu_in_bucket_add g k B g' k' :
  Lfu.in_bucket (Lfu.addToBucket g k B) g' k' ↔
  (g' = g ∧ k' = k) ∨ Lfu.in_bucket B g' k'.
Proof.
  unfold Lfu.in_bucket. destruct (decide (g' = g)) as [->|Hne].
  - rewrite lfu_addToBucket_eq. split.
    + intros (b & [= <-] & Hin). simpl in Hin.
      apply elem_of_cons in Hin as [->|Hin]; [by left|]. right.
      destruct (B !! g) as [b0|]; simpl in Hin; [by exists b0|].
      by apply elem_of_nil in Hin.
    + intros [[_ ->] | (b & Hb & Hin)]; eexists; (split; [done|]); simpl.
      * by left.
      * rewrite Hb. simpl. by right.
  - rewrite lfu_addToBucket_ne by done. split; [by right|].
    by intros [[? _]|?].
Qed.

Lemma lfu_counted_add g k B :
  counted B → ¬ Lfu.in_bucket B g k → counted (Lfu.addToBucket g k B).
Proof.
  intros HB Hnot f b. destruct (decide (f = g)) as [->|Hne].
  - rewrite lfu_addToBucket_eq. intros [= <-]. simpl.
    destruct (B !! g) as [b0|] eqn:Hb0; simpl.
    + destruct (HB _ _ Hb0) as [Hnd Hsz]. split.
      * apply NoDup_cons. split; [|done]. intros Hin. apply Hnot. by exists b0.
      * lia.
    + split; [apply NoDup_singleton | done].
  - rewrite lfu_addToBucket_ne by done. apply HB.
Qed.

Lemma lfu_in_bucket_remove g k b B g' k' :
  counted B → B !! g = Some b →
  Lfu.in_bucket (<[g := Lfu.FrequencyBucket.removeNode k b]> B) g' k' ↔
  Lfu.in_bucket B g' k' ∧ ¬ (g' = g ∧ k' = k).
Proof.
  intros HB Hb. unfold Lfu.in_bucket. destruct (HB _ _ Hb) as [Hnd _].
  destruct (decide (g' = g)) as [->|Hne].
  - rewrite lookup_insert_eq, Hb. split.
    + intros (b' & [= <-] & Hin). simpl in Hin.
      apply elem_of_unlink in Hin as [Hin Hk]; [|done].
      split; [by exists b | by intros [_ ?]].
    + intros [(b' & [= <-] & Hin) Hk]. eexists. split; [done|]. simpl.
      apply elem_of_unlink; [done|]. split; [done|]. intros ->. by apply Hk.
  - rewrite lookup_insert_ne by done. split; [|by intros [? _]].
    intros Hin. split; [done|]. by intros [? _].
Qed.

Lemma lfu_counted_remove g k b B :
  counted B → B !! g = Some b → k ∈ nodes b →
  counted (<[g := Lfu.FrequencyBucket.removeNode k b]> B).
Proof.
  intros HB Hb Hin f b'. destruct (decide (f = g)) as [->|Hne].
  - rewrite lookup_insert_eq. intros [= <-]. simpl.
    destruct (HB _ _ Hb) as [Hnd Hsz]. split; [by apply NoDup_unlink|].
    apply length_unlink in Hin. lia.
  - rewrite lookup_insert_ne by done. apply HB.
Qed.

(** The index entry of a linked node tells its bucket. *)
Lemma lfu_linked_bucket B C k n :
  Lfu.buckets_linked B C → C !! k = Some n →
  ∃ b, B !! Lfu.frequency n = Some b ∧ k ∈ nodes b.
Proof. intros [_ Hn] Hk. apply Hn. by exists n. Qed.

Lemma lfu_linked_absent B C k f :
  Lfu.buckets_linked B C → C !! k = None → ¬ Lfu.in_bucket B f k.
Proof. intros [_ Hn] Hk [n [? _]]%Hn. congruence. Qed.

Lemma lfu_linked_unique B C k n f :
  Lfu.buckets_linked B C → C !! k = Some n → Lfu.in_bucket B f k →
  f = Lfu.frequency n.
Proof. intros [_ Hn] Hk [n' [? <-]]%Hn. congruence. Qed.

Lemma lfu_linked_empty :
  Lfu.buckets_linked (∅ : gmap Z (Lfu.FrequencyBucket.t Key))
                     (∅ : gmap Key (Lfu.CacheNode Value)).
Proof.
  split.
  - intros f b. by rewrite lookup_empty.
  - intros k f. split.
    + intros (b & Hb & _). by rewrite lookup_empty in Hb.
    + intros (n & Hn & _). by rewrite lookup_empty in Hn.
Qed.

(** Overwriting the value of a node keeps the buckets linked. *)
Lemma lfu_linked_set_value B C k n v :
  Lfu.buckets_linked B C → C !! k = Some n →
  Lfu.buckets_linked B (<[k := Lfu.mkCacheNode v (Lfu.frequency n)]> C).
Proof.
  intros [Hb Hn] Hk. split; [done|].
  intros k' f. rewrite Hn. destruct (decide (k' = k)) as [->|Hne].
  - rewrite lookup_insert_eq, Hk. split.
    + intros (n' & [= <-] & <-). by eexists.
    + intros (n' & [= <-] & <-). by eexists.
  - by rewrite lookup_insert_ne.
Qed.

(** Linking a new node in the bucket of frequency [g]. *)
Lemma lfu_linked_insert B C k v g :
  Lfu.buckets_linked B C → C !! k = None →
  Lfu.buckets_linked (Lfu.addToBucket g k B) (<[k := Lfu.mkCacheNode v g]> C).
Proof.
  intros HL Hk. pose proof HL as [Hb Hn]. split.
  - apply lfu_counted_add; [done|]. by apply (lfu_linked_absent B C).
  - intros k' f. rewrite lfu_in_bucket_add, Hn.
    destruct (decide (k' = k)) as [->|Hne].
    + rewrite lookup_insert_eq, Hk. split.
      * intros [[-> _] | (n & ? & _)]; [by eexists | done].
      * intros (n & [= <-] & <-). by left.
    + rewrite lookup_insert_ne by done. split; [|by right].
      by intros [[_ ?]|?].
Qed.

(** Unlinking a node and dropping its index entry. *)
Lemma lfu_linked_delete B C k n b :
  Lfu.buckets_linked B C → C !! k = Some n → B !! Lfu.frequency n = Some b →
  Lfu.buckets_linked
    (<[Lfu.frequency n := Lfu.FrequencyBucket.removeNode k b]> B) (delete k C).
Proof.
  intros HL Hk Hbk. pose proof HL as [Hb Hn].
  destruct (lfu_linked_bucket B C k n HL Hk) as (b' & Hb' & Hin).
  assert (b' = b) as -> by congruence. split.
  - by apply lfu_counted_remove.
  - intros k' f. rewrite lfu_in_bucket_remove by done. rewrite Hn.
    destruct (decide (k' = k)) as [->|Hne].
    + rewrite lookup_delete_eq. split.
      * intros [(n' & Hn' & <-) Hnot]. exfalso. apply Hnot. split; congruence.
      * by intros (n' & ? & _).
    + rewrite lookup_delete_ne by done. split; [by intros [? _]|].
      intros ?. split; [done | by intros [_ ?]].
Qed.

(** Moving a node from the bucket of its frequency to the bucket of [g]. *)
Lemma lfu_linked_update B C k n b g :
  Lfu.buckets_linked B C → C !! k = Some n → B !! Lfu.frequency n = Some b →
  Lfu.buckets_linked
    (Lfu.addToBucket g k (<[Lfu.frequency n := Lfu.FrequencyBucket.removeNode k b]> B))
    (<[k := Lfu.mkCacheNode (Lfu.value n) g]> C).
Proof.
  intros HL Hk Hbk.
  pose proof (lfu_linked_delete B C k n b HL Hk Hbk) as HD.
  pose proof (lfu_linked_insert _ _ k (Lfu.value n) g HD (lookup_delete_eq C k))
    as HI.
  by rewrite insert_delete_eq in HI.
Qed.

End LfuBuckets.

Section LfuProofs.
Context {Key : Type} `{Countable Key} {Value : Type}.
Implicit Types (c : Lfu.LfuCache Key Value) (key k : Key) (v : Value).
Implicit Types (b : Lfu.FrequencyBucket.t Key) (n : Lfu.CacheNode Value).

Local Abbreviation nodes := Lfu.FrequencyBucket.nodes.

Lemma lfu_contains_true key c :
  Lfu.contains key c = true ↔ is_Some (Lfu.cache_ c !! key).
Proof. unfold Lfu.contains. apply bool_decide_eq_true. Qed.

Lemma lfu_contains_false key c :
  Lfu.contains key c = false ↔ Lfu.cache_ c !! key = None.
Proof.
  unfold Lfu.contains. rewrite bool_decide_eq_false. symmetry.
  apply eq_None_not_Some.
Qed.

(** What [updateFrequency] does to a node linked in bucket [b]. *)
Lemma lfu_updateFrequency_eq key n b c :
  Lfu.cache_ c !! key = Some n →
  Lfu.frequency_buckets_ c !! Lfu.frequency n = Some b →
  Lfu.updateFrequency key c =
    Lfu.mkLfuCache (Lfu.capacity_ c)
      (if Lfu.FrequencyBucket.empty (Lfu.FrequencyBucket.removeNode key b)
          && (Lfu.frequency n =? Lfu.min_frequency_ c)
       then Lfu.int_wrap (Lfu.min_frequency_ c + 1) else Lfu.min_frequency_ c)
      (<[key := Lfu.mkCacheNode (Lfu.value n) (Lfu.int_wrap (Lfu.frequency n + 1))]>
         (Lfu.cache_ c))
      (Lfu.addToBucket (Lfu.int_wrap (Lfu.frequency n + 1)) key
         (<[Lfu.frequency n := Lfu.FrequencyBucket.removeNode key b]>
            (Lfu.frequency_buckets_ c))).
Proof. intros Hk Hb. unfold Lfu.updateFrequency. by rewrite Hk, Hb. Qed.

(** The index after [updateFrequency], whatever the buckets hold. *)
Lemma lfu_updateFrequency_cache key n c :
  Lfu.cache_ c !! key = Some n →
  Lfu.cache_ (Lfu.updateFrequency key c) =
    <[key := Lfu.mkCacheNode (Lfu.value n) (Lfu.int_wrap (Lfu.frequency n + 1))]>
      (Lfu.cache_ c).
Proof.
  intros Hk. unfold Lfu.updateFrequency. rewrite Hk.
  by destruct (Lfu.frequency_buckets_ c !! Lfu.frequency n).
Qed.

Lemma lfu_updateFrequency_capacity key c :
  Lfu.capacity_ (Lfu.updateFrequency key c) = Lfu.capacity_ c.
Proof.
  unfold Lfu.updateFrequency. destruct (Lfu.cache_ c !! key) as [n|]; [|done].
  by destruct (Lfu.frequency_buckets_ c !! Lfu.frequency n).
Qed.

Lemma lfu_bucket_empty_nil B C f b key :
  Lfu.buckets_linked (Value := Value) B C → B !! f = Some b →
  Lfu.FrequencyBucket.empty (Lfu.FrequencyBucket.removeNode key b) = true →
  key ∈ nodes b → unlink key (nodes b) = [].
Proof.
  intros [Hb _] Hbf He Hin. destruct (Hb _ _ Hbf) as [_ Hsz].
  unfold Lfu.FrequencyBucket.empty in He. simpl in He.
  apply Z.eqb_eq in He. apply length_unlink in Hin.
  apply length_zero_iff_nil. lia.
Qed.

Lemma lfu_updateFrequency_wf key c :
  Lfu.wf c → is_Some (Lfu.cache_ c !! key) → Lfu.wf (Lfu.updateFrequency key c).
Proof.
  intros [Hcap Hbound HL Hone Hmin] [n Hk].
  destruct (lfu_linked_bucket _ _ _ _ HL Hk) as (b & Hb & Hin).
  pose proof (lfu_linked_update _ _ _ _ _ (Lfu.int_wrap (Lfu.frequency n + 1))
                HL Hk Hb) as HL'.
  rewrite (lfu_updateFrequency_eq key n b) by done.
  pose proof HL as [Hcnt _].
  assert (Lfu.cache_ c ≠ ∅) as Hne by (intros E; by rewrite E in Hk).
  split; simpl.
  - done.
  - rewrite map_size_insert_Some; [done | by eexists].
  - done.
  - intros E. by apply insert_non_empty in E.
  - intros _.
    destruct (Lfu.FrequencyBucket.empty (Lfu.FrequencyBucket.removeNode key b))
      eqn:He; simpl.
    + destruct (Z.eqb_spec (Lfu.frequency n) (Lfu.min_frequency_ c)) as [Hf|Hf].
      * exists key. apply lfu_in_bucket_add. left. split; [by rewrite Hf | done].
      * destruct (Hmin Hne) as [k0 Hk0]. exists k0.
        apply lfu_in_bucket_add. right.
        apply lfu_in_bucket_remove; [done | done |].
        split; [done|]. intros [? _]. congruence.
    + destruct (decide (Lfu.frequency n = Lfu.min_frequency_ c)) as [Hf|Hf].
      * unfold Lfu.FrequencyBucket.empty in He. simpl in He.
        apply Z.eqb_neq in He. destruct (Hcnt _ _ Hb) as [Hnd Hsz].
        pose proof (length_unlink _ _ Hin) as Hlen.
        destruct (unlink key (nodes b)) as [|k0 r] eqn:Hu; [simpl in Hlen; lia|].
        exists k0. apply lfu_in_bucket_add. right. rewrite <- Hf.
        exists (Lfu.FrequencyBucket.removeNode key b).
        rewrite lookup_insert_eq. split; [done|]. simpl. rewrite Hu. by left.
      * destruct (Hmin Hne) as [k0 Hk0]. exists k0.
        apply lfu_in_bucket_add. right.
        apply lfu_in_bucket_remove; [done | done |].
        split; [done|]. intros [? _]. congruence.
Qed.

Lemma lfu_set_value_wf key n v c :
  Lfu.wf c → Lfu.cache_ c !! key = Some n →
  Lfu.wf (Lfu.mkLfuCache (Lfu.capacity_ c) (Lfu.min_frequency_ c)
            (<[key := Lfu.mkCacheNode v (Lfu.frequency n)]> (Lfu.cache_ c))
            (Lfu.frequency_buckets_ c)).
Proof.
  intros [Hcap Hbound HL Hone Hmin] Hk.
  assert (Lfu.cache_ c ≠ ∅) as Hne by (intros E; by rewrite E in Hk).
  split; simpl.
  - done.
  - rewrite map_size_insert_Some; [done | by eexists].
  - by apply lfu_linked_set_value.
  - intros E. by apply insert_non_empty in E.
  - intros _. by apply Hmin.
Qed.

(** On a non-empty engine the eviction unlinks the last node of the bucket
    of [min_frequency_] and erases its index entry. *)
Lemma lfu_evict_eq c :
  Lfu.wf c → Lfu.cache_ c ≠ ∅ →
  ∃ bm rest t n,
    Lfu.frequency_buckets_ c !! Lfu.min_frequency_ c = Some bm ∧
    nodes bm = rest ++ [t] ∧
    Lfu.cache_ c !! t = Some n ∧ Lfu.frequency n = Lfu.min_frequency_ c ∧
    Lfu.evict c =
      Lfu.mkLfuCache (Lfu.capacity_ c) (Lfu.min_frequency_ c)
        (delete t (Lfu.cache_ c))
        (<[Lfu.min_frequency_ c := Lfu.FrequencyBucket.removeNode t bm]>
           (Lfu.frequency_buckets_ c)).
Proof.
  intros [Hcap Hbound HL Hone Hmin] Hne.
  destruct (Hmin Hne) as (k0 & bm & Hbm & Hk0).
  pose proof HL as [Hcnt Hnode]. destruct (Hcnt _ _ Hbm) as [Hnd Hsz].
  destruct (last (nodes bm)) as [t|] eqn:Hlast.
  2:{ apply last_None in Hlast. rewrite Hlast in Hk0. by apply elem_of_nil in Hk0. }
  pose proof Hlast as Hlast'. apply last_Some in Hlast' as [rest Hrest].
  assert (t ∈ nodes bm) as Ht.
  { rewrite Hrest, elem_of_app. right. by apply list_elem_of_singleton. }
  assert (Lfu.in_bucket (Lfu.frequency_buckets_ c) (Lfu.min_frequency_ c) t)
    as [n [Hn Hf]]%Hnode by (by exists bm).
  exists bm, rest, t, n. do 4 (split; [done|]).
  assert ((Lfu.FrequencyBucket.size bm =? 0) = false) as Hz.
  { apply Z.eqb_neq. rewrite Hsz, Hrest, length_app. simpl. lia. }
  unfold Lfu.evict, Lfu.evictLFU, Lfu.FrequencyBucket.empty,
    Lfu.FrequencyBucket.removeTail.
  by rewrite Hbm, Hz, Hlast.
Qed.

Lemma lfu_insert_wf key v c :
  0 < Lfu.capacity_ c → Z.of_nat (base.size (Lfu.cache_ c)) < Lfu.capacity_ c →
  Lfu.buckets_linked (Lfu.frequency_buckets_ c) (Lfu.cache_ c) →
  Lfu.cache_ c !! key = None →
  Lfu.wf (Lfu.insert key v c).
Proof.
  intros Hcap Hroom HL Hk.
  pose proof (lfu_linked_insert _ _ key v 1 HL Hk) as HL'.
  unfold Lfu.insert. split; simpl.
  - done.
  - rewrite map_size_insert_None by done. lia.
  - done.
  - done.
  - intros _. exists key. apply lfu_in_bucket_add. by left.
Qed.

Lemma lfu_construct_wf capacity c : Lfu.construct capacity = inr c → Lfu.wf c.
Proof.
  unfold Lfu.construct. destruct (Z.leb_spec capacity 0); [done|].
  intros [= <-]. split; simpl.
  - lia.
  - rewrite map_size_empty. lia.
  - apply lfu_linked_empty.
  - done.
  - done.
Qed.

Lemma lfu_clear_wf c : Lfu.wf c → Lfu.wf (snd (Lfu.clear c)).
Proof.
  intros [Hcap _ _ _ _]. split; simpl.
  - done.
  - rewrite map_size_empty. lia.
  - apply lfu_linked_empty.
  - done.
  - done.
Qed.

Lemma lfu_get_existing key n c :
  Lfu.cache_ c !! key = Some n →
  Lfu.get key c = (inr (Lfu.value n), Lfu.updateFrequency key c).
Proof. intros Hk. unfold Lfu.get. by rewrite Hk. Qed.

Lemma lfu_get_missing key c :
  Lfu.cache_ c !! key = None → Lfu.get key c = (inl out_of_range, c).
Proof. intros Hk. unfold Lfu.get. by rewrite Hk. Qed.

Lemma lfu_get_wf key c : Lfu.wf c → Lfu.wf (snd (Lfu.get key c)).
Proof.
  intros Hwf. destruct (Lfu.cache_ c !! key) as [n|] eqn:Hk.
  - rewrite (lfu_get_existing key n) by done. simpl.
    apply lfu_updateFrequency_wf; [done | by eexists].
  - by rewrite lfu_get_missing.
Qed.

Lemma lfu_put_existing key n v c :
  Lfu.wf c → Lfu.cache_ c !! key = Some n →
  Lfu.put key v c =
    (inr tt,
     Lfu.updateFrequency key
       (Lfu.mkLfuCache (Lfu.capacity_ c) (Lfu.min_frequency_ c)
          (<[key := Lfu.mkCacheNode v (Lfu.frequency n)]> (Lfu.cache_ c))
          (Lfu.frequency_buckets_ c))).
Proof.
  intros Hwf Hk. unfold Lfu.put. rewrite Hk.
  destruct (Z.eqb_spec (Lfu.capacity_ c) 0) as [E|_]; [|done].
  pose proof (Lfu.wf_capacity _ Hwf). lia.
Qed.

Lemma lfu_put_new key v c :
  Lfu.wf c → Lfu.cache_ c !! key = None →
  Lfu.put key v c =
    (inr tt,
     Lfu.insert key v
       (if Z.of_nat (base.size (Lfu.cache_ c)) >=? Lfu.capacity_ c
        then Lfu.evict c else c)).
Proof.
  intros Hwf Hk. unfold Lfu.put. rewrite Hk.
  destruct (Z.eqb_spec (Lfu.capacity_ c) 0) as [E|_]; [|done].
  pose proof (Lfu.wf_capacity _ Hwf). lia.
Qed.

Lemma lfu_put_wf key v c : Lfu.wf c → Lfu.wf (snd (Lfu.put key v c)).
Proof.
  intros Hwf. destruct (Lfu.cache_ c !! key) as [n|] eqn:Hk.
  - rewrite (lfu_put_existing key n) by done. simpl.
    apply lfu_updateFrequency_wf; [by apply lfu_set_value_wf|].
    simpl. rewrite lookup_insert_eq. by eexists.
  - rewrite lfu_put_new by done. simpl.
    pose proof Hwf as [Hcap Hbound HL Hone Hmin].
    destruct (Z.geb_spec (Z.of_nat (base.size (Lfu.cache_ c))) (Lfu.capacity_ c))
      as [Hfull|Hroom].
    + assert (Lfu.cache_ c ≠ ∅) as Hne.
      { intros E. rewrite E, map_size_empty in Hfull. lia. }
      destruct (lfu_evict_eq c Hwf Hne) as (bm & rest & t & n & Hbm & Hrest & Ht & Hf & ->).
      apply lfu_insert_wf; simpl.
      * done.
      * rewrite map_size_delete_Some by (by eexists).
        assert (base.size (Lfu.cache_ c) ≠ 0%nat); [|lia].
        by apply map_size_non_empty_iff.
      * rewrite <- Hf. apply lfu_linked_delete; [done | done | by rewrite Hf].
      * apply lookup_delete_None. by right.
    + by apply lfu_insert_wf.
Qed.

Lemma lfu_step_wf o c : Lfu.wf c → Lfu.wf (Lfu.step o c).
Proof.
  destruct o; simpl; intros Hwf.
  - by apply lfu_get_wf.
  - by apply lfu_put_wf.
  - done.
  - by apply lfu_clear_wf.
Qed.

Lemma lfu_run_wf ops c : Lfu.wf c → Lfu.wf (Lfu.run ops c).
Proof.
  revert c. induction ops as [|o rest IH]; simpl; intros c Hwf; [done|].
  by apply IH, lfu_step_wf.
Qed.

Lemma lfu_reachable_wf capacity c0 ops :
  Lfu.construct capacity = inr c0 → Lfu.wf (Lfu.run ops c0).
Proof. intros Hc. by apply lfu_run_wf, (lfu_construct_wf capacity). Qed.

(** *** The counters, as long as none overflows *)

Lemma lfu_int_wrap_fits z :
  - 2 ^ 31 <= z <= Lfu.INT_MAX → Lfu.int_wrap z = z.
Proof.
  unfold Lfu.int_wrap, Lfu.INT_MAX. intros Hz. rewrite Z.mod_small; lia.
Qed.

Lemma lfu_updateFrequency_counting key n c :
  Lfu.wf c → Lfu.counting c →
  Lfu.cache_ c !! key = Some n → Lfu.frequency n < Lfu.INT_MAX →
  Lfu.counting (Lfu.updateFrequency key c).
Proof.
  intros [Hcap Hbound HL Hone Hmin] [Hfreq Hleast] Hk Hfit.
  destruct (lfu_linked_bucket _ _ _ _ HL Hk) as (b & Hb & Hin).
  rewrite (lfu_updateFrequency_eq key n b) by done.
  pose proof HL as [Hcnt _].
  pose proof (Hfreq _ _ Hk) as Hpos. pose proof (Hleast _ _ Hk) as Hle.
  assert (Lfu.int_wrap (Lfu.frequency n + 1) = Lfu.frequency n + 1) as Hw.
  { apply lfu_int_wrap_fits. unfold Lfu.INT_MAX in *. lia. }
  rewrite Hw. split; simpl.
  - intros k' n'. destruct (decide (k' = key)) as [->|Hk'].
    + rewrite lookup_insert_eq. intros [= <-]. simpl. lia.
    + rewrite lookup_insert_ne by done. apply Hfreq.
  - intros k' n'. destruct (decide (k' = key)) as [->|Hk'].
    + rewrite lookup_insert_eq. intros [= <-]. simpl.
      destruct (_ && _) eqn:Hc.
      * apply andb_true_iff in Hc as [_ Hc%Z.eqb_eq]. rewrite <- Hc, Hw. lia.
      * lia.
    + rewrite lookup_insert_ne by done. intros Hn'.
      pose proof (Hleast _ _ Hn') as Hle'.
      destruct (Lfu.FrequencyBucket.empty (Lfu.FrequencyBucket.removeNode key b))
        eqn:He; simpl; [|done].
      destruct (Z.eqb_spec (Lfu.frequency n) (Lfu.min_frequency_ c)) as [Hf|Hf];
        [|done].
      rewrite <- Hf, Hw.
      assert (Lfu.frequency n' ≠ Lfu.frequency n); [|lia].
      intros Heq.
      destruct (lfu_linked_bucket _ _ _ _ HL Hn') as (b' & Hb' & Hin').
      rewrite Heq, Hb in Hb'. injection Hb' as <-.
      pose proof (lfu_bucket_empty_nil _ _ _ _ _ HL Hb He Hin) as Hnil.
      assert (k' ∈ unlink key (nodes b)) as Hu.
      { apply elem_of_unlink; [by destruct (Hcnt _ _ Hb) | done]. }
      rewrite Hnil in Hu. by apply elem_of_nil in Hu.
Qed.

Lemma lfu_set_value_counting key n v c :
  Lfu.counting c → Lfu.cache_ c !! key = Some n →
  Lfu.counting (Lfu.mkLfuCache (Lfu.capacity_ c) (Lfu.min_frequency_ c)
                  (<[key := Lfu.mkCacheNode v (Lfu.frequency n)]> (Lfu.cache_ c))
                  (Lfu.frequency_buckets_ c)).
Proof.
  intros [Hfreq Hleast] Hk. split; simpl; intros k' n';
    (destruct (decide (k' = key)) as [->|Hk'];
     [rewrite lookup_insert_eq; intros [= <-]; simpl
     |rewrite lookup_insert_ne by done]).
  - by apply (Hfreq key).
  - apply Hfreq.
  - by apply (Hleast key).
  - apply Hleast.
Qed.

Lemma lfu_insert_counting key v c :
  (∀ k n, Lfu.cache_ c !! k = Some n → 1 <= Lfu.frequency n <= Lfu.INT_MAX) →
  Lfu.counting (Lfu.insert key v c).
Proof.
  intros Hfreq. unfold Lfu.insert. split; simpl; intros k' n';
    (destruct (decide (k' = key)) as [->|Hk'];
     [rewrite lookup_insert_eq; intros [= <-]; simpl
     |rewrite lookup_insert_ne by done]).
  - unfold Lfu.INT_MAX. lia.
  - apply Hfreq.
  - lia.
  - intros Hn'. by apply Hfreq in Hn' as [? _].
Qed.

Lemma lfu_fits_stored (o : op Key Value) key n c :
  Lfu.fits o c = true → Lfu.cache_ c !! key = Some n →
  (o = Get key ∨ ∃ v, o = Put key v) → Lfu.frequency n < Lfu.INT_MAX.
Proof.
  intros Hfit Hk Ho. unfold Lfu.fits, Lfu.getFrequency in Hfit.
  destruct Ho as [->|[v ->]]; rewrite Hk in Hfit; by apply Z.ltb_lt in Hfit.
Qed.

Lemma lfu_step_counting o c :
  Lfu.wf c → Lfu.counting c → Lfu.fits o c = true → Lfu.counting (Lfu.step o c).
Proof.
  intros Hwf Hcnt Hfit. destruct o as [key|key v|key|]; simpl.
  - destruct (Lfu.cache_ c !! key) as [n|] eqn:Hk.
    + rewrite (lfu_get_existing key n) by done. simpl.
      apply (lfu_updateFrequency_counting key n); [done..|].
      eapply lfu_fits_stored; [done | done | by left].
    + by rewrite lfu_get_missing.
  - destruct (Lfu.cache_ c !! key) as [n|] eqn:Hk.
    + rewrite (lfu_put_existing key n) by done. simpl.
      apply (lfu_updateFrequency_counting key (Lfu.mkCacheNode v (Lfu.frequency n))).
      * by apply lfu_set_value_wf.
      * by apply lfu_set_value_counting.
      * simpl. apply lookup_insert_eq.
      * simpl. eapply lfu_fits_stored; [done | done | right; by eexists].
    + rewrite lfu_put_new by done. simpl. apply lfu_insert_counting.
      destruct Hcnt as [Hfreq _].
      destruct (Z.geb_spec (Z.of_nat (base.size (Lfu.cache_ c))) (Lfu.capacity_ c))
        as [Hfull|Hroom]; [|done].
      assert (Lfu.cache_ c ≠ ∅) as Hne.
      { intros E. rewrite E, map_size_empty in Hfull.
        pose proof (Lfu.wf_capacity _ Hwf). lia. }
      destruct (lfu_evict_eq c Hwf Hne) as (bm & rest & t & n & _ & _ & _ & _ & ->).
      simpl. intros k n' [_ Hn']%lookup_delete_Some. by apply (Hfreq k).
  - done.
  - split; simpl; intros k n; by rewrite lookup_empty.
Qed.

Lemma lfu_run_counting ops c :
  Lfu.wf c → Lfu.counting c → Lfu.no_overflow ops c = true →
  Lfu.counting (Lfu.run ops c).
Proof.
  revert c. induction ops as [|o rest IH]; simpl; intros c Hwf Hcnt Hfit; [done|].
  apply andb_true_iff in Hfit as [Hfit Hrest].
  apply IH; [by apply lfu_step_wf | by apply lfu_step_counting | done].
Qed.

Lemma lfu_reachable_counting capacity c0 ops :
  Lfu.construct capacity = inr c0 → Lfu.no_overflow ops c0 = true →
  Lfu.counting (Lfu.run ops c0).
Proof.
  intros Hc Hfit. apply lfu_run_counting; [by apply (lfu_construct_wf capacity)| |done].
  unfold Lfu.construct in Hc. destruct (capacity <=? 0); [done|].
  injection Hc as <-. split; simpl; intros k n; by rewrite lookup_empty.
Qed.

End LfuProofs.

(** *** The tracked minimum is the least frequency with a non-empty bucket *)

Lemma least_foldr_min x r :
  foldr Z.min x r ∈ x :: r ∧ ∀ y, y ∈ x :: r → foldr Z.min x r <= y.
Proof.
  induction r as [|z r [IHin IHle]]; simpl.
  - split; [by left|]. intros y ->%list_elem_of_singleton. lia.
  - split.
    + destruct (Z.min_spec z (foldr Z.min x r)) as [[_ ->]|[_ ->]].
      * right. by left.
      * apply elem_of_cons in IHin as [->|?]; [by left | by do 2 right].
    + intros y Hy.
      assert (y = z ∨ y ∈ x :: r) as [->|Hy'].
      { rewrite !elem_of_cons in Hy. rewrite elem_of_cons. tauto. }
      * lia.
      * specialize (IHle y Hy'). lia.
Qed.

Lemma least_Some l m :
  Lfu.least l = Some m ↔ m ∈ l ∧ ∀ x, x ∈ l → m <= x.
Proof.
  destruct l as [|x r]; simpl.
  - split; [done|]. by intros [?%elem_of_nil _].
  - destruct (least_foldr_min x r) as [Hin Hle]. split.
    + by intros [= <-].
    + intros [Hm Hall]. f_equal.
      specialize (Hle m Hm). specialize (Hall _ Hin). lia.
Qed.

Section LfuMinimum.
Context {Key : Type} `{Countable Key} {Value : Type}.
Implicit Types (c : Lfu.LfuCache Key Value).

Lemma lfu_nonempty_frequencies c f :
  f ∈ Lfu.nonempty_frequencies c ↔
  ∃ k, Lfu.in_bucket (Lfu.frequency_buckets_ c) f k.
Proof.
  unfold Lfu.nonempty_frequencies, Lfu.in_bucket.
  rewrite list_elem_of_fmap. split.
  - intros ([f' b] & -> & [Hne Hb%elem_of_map_to_list]%list_elem_of_filter).
    simpl in *. destruct (Lfu.FrequencyBucket.nodes b) as [|k r] eqn:Hn; [done|].
    exists k, b. rewrite Hn. split; [done | by left].
  - intros (k & b & Hb & Hin). exists (f, b). split; [done|].
    apply list_elem_of_filter. split.
    + simpl. intros E. rewrite E in Hin. by apply elem_of_nil in Hin.
    + by apply elem_of_map_to_list.
Qed.

Lemma lfu_min_frequency_true c :
  Lfu.wf c → Lfu.counting c → Lfu.min_frequency_ c = Lfu.true_min_frequency c.
Proof.
  intros [Hcap Hbound HL Hone Hmin] [_ Hleast]. unfold Lfu.true_min_frequency.
  destruct (decide (Lfu.cache_ c = ∅)) as [He|Hne].
  - rewrite (Hone He).
    destruct (Lfu.nonempty_frequencies c) as [|f r] eqn:Hnf; [done|].
    assert (f ∈ Lfu.nonempty_frequencies c) as [k Hk]%lfu_nonempty_frequencies
      by (rewrite Hnf; by left).
    apply (Lfu.bl_node _ _ HL) in Hk as (n & Hn & _).
    by rewrite He, lookup_empty in Hn.
  - assert (Lfu.least (Lfu.nonempty_frequencies c) = Some (Lfu.min_frequency_ c))
      as ->; [|done].
    apply least_Some. split.
    + apply lfu_nonempty_frequencies. by apply Hmin.
    + intros f [k Hk]%lfu_nonempty_frequencies.
      apply (Lfu.bl_node _ _ HL) in Hk as (n & Hn & <-). by apply (Hleast k).
Qed.

End LfuMinimum.

(** ** LRU-K *)

Section LruKScan.
Context {Key : Type} `{Countable Key} {Value : Type}.
Implicit Types (key victim : Key) (times : list Z) (k now : Z).
Implicit Types (record : LruK.CacheRecord Value).

Lemma lruk_push_capped_below k now times :
  Z.of_nat (length times) < k → LruK.push_capped k now times = times ++ [now].
Proof.
  intros Hlt. unfold LruK.push_capped. rewrite length_app. simpl.
  destruct (Z.gtb_spec (Z.of_nat (length times + 1)) k); [lia | done].
Qed.

Lemma lruk_push_capped_length k now times :
  0 < k → Z.of_nat (length times) <= k →
  (0 < length (LruK.push_capped k now times))%nat ∧
  Z.of_nat (length (LruK.push_capped k now times)) <= k.
Proof.
  intros Hk Hle. unfold LruK.push_capped. rewrite length_app. simpl.
  destruct (Z.gtb_spec (Z.of_nat (length times + 1)) k) as [Hgt|Hgt].
  - destruct times as [|t r]; simpl in *; [lia|].
    rewrite length_app. simpl. lia.
  - rewrite length_app. simpl. lia.
Qed.

(** The last entry of a capped queue is the access just recorded. *)
Lemma lruk_push_capped_last k now times :
  0 < k → last (LruK.push_capped k now times) = Some now.
Proof.
  intros Hk. unfold LruK.push_capped. rewrite length_app. simpl.
  destruct (Z.gtb_spec (Z.of_nat (length times + 1)) k) as [Hgt|Hgt].
  - destruct times as [|t r]; simpl in *; [lia|]. apply last_snoc.
  - apply last_snoc.
Qed.

(** The history loop: it fails on an empty record only; it returns the
    accumulator or a record below [k_val], whose first timestamp is then the
    least among the records below [k_val] and the accumulator. *)
Lemma lruk_scanHistory_spec k_val (l : list (Key * list Z)) acc :
  (∀ key times, (key, times) ∈ l → times ≠ []) →
  ∃ r, LruK.scanHistory k_val l acc = inr r ∧
    match r with
    | None =>
        acc = None ∧
        ∀ key times, (key, times) ∈ l → ¬ Z.of_nat (length times) < k_val
    | Some (victim, t) =>
        (acc = Some (victim, t) ∨
         ∃ times, (victim, times) ∈ l ∧ Z.of_nat (length times) < k_val ∧
                  head times = Some t) ∧
        (∀ key times t', (key, times) ∈ l → Z.of_nat (length times) < k_val →
                         head times = Some t' → t <= t') ∧
        (∀ a t0, acc = Some (a, t0) → t <= t0)
    end.
Proof.
  revert acc. induction l as [|[key times] rest IH]; intros acc Hne; simpl.
  - exists acc. split; [done|]. destruct acc as [[a t0]|].
    + split; [by left|]. split.
      * by intros ? ? ? ?%elem_of_nil.
      * intros ? ? [= _ <-]. lia.
    + split; [done|]. by intros ? ? ?%elem_of_nil.
  - assert (∀ key times, (key, times) ∈ rest → times ≠ []) as Hrest.
    { intros ? ? ?. eapply Hne. by right. }
    destruct (Z.ltb_spec (Z.of_nat (length times)) k_val) as [Hlt|Hge].
    + destruct times as [|first_access tl] eqn:Htimes.
      { exfalso. eapply Hne; [by left | done]. }
      rewrite <- Htimes in *.
      assert (head times = Some first_access) as Hhd by (by rewrite Htimes).
      clear Htimes.
      assert (∀ r0,
        match r0 with
        | None =>
            Some (key, first_access) = None ∧
            ∀ key0 times0, (key0, times0) ∈ rest →
                           ¬ Z.of_nat (length times0) < k_val
        | Some (victim, t) =>
            (Some (key, first_access) = Some (victim, t) ∨
             ∃ times0, (victim, times0) ∈ rest ∧
                       Z.of_nat (length times0) < k_val ∧ head times0 = Some t) ∧
            (∀ key0 times0 t', (key0, times0) ∈ rest →
               Z.of_nat (length times0) < k_val → head times0 = Some t' → t <= t') ∧
            (∀ a t0, Some (key, first_access) = Some (a, t0) → t <= t0)
        end →
        (∀ a t0, acc = Some (a, t0) → first_access <= t0) →
        match r0 with
        | None =>
            acc = None ∧
            ∀ key0 times0, (key0, times0) ∈ (key, times) :: rest →
                           ¬ Z.of_nat (length times0) < k_val
        | Some (victim, t) =>
            (acc = Some (victim, t) ∨
             ∃ times0, (victim, times0) ∈ (key, times) :: rest ∧
                       Z.of_nat (length times0) < k_val ∧ head times0 = Some t) ∧
            (∀ key0 times0 t', (key0, times0) ∈ (key, times) :: rest →
               Z.of_nat (length times0) < k_val → head times0 = Some t' → t <= t') ∧
            (∀ a t0, acc = Some (a, t0) → t <= t0)
        end) as Htake.
      { intros [[victim t]|] Hr Hacc; [|by destruct Hr].
        destruct Hr as (Hsrc & Hmin & Hle).
        pose proof (Hle _ _ eq_refl) as Hfirst. split; [|split].
        - right. destruct Hsrc as [[= <- <-]|(times0 & Hin & ? & ?)].
          + exists times. split; [by left | done].
          + exists times0. split; [by right | done].
        - intros key0 times0 t' [[= -> ->]|Hin]%elem_of_cons Hlt0 Hhd0.
          + rewrite Hhd in Hhd0. injection Hhd0 as <-. done.
          + by eapply Hmin.
        - intros a t0 Ha. specialize (Hacc _ _ Ha). lia. }
      destruct acc as [[a earliest_time]|].
      * destruct (Z.ltb_spec first_access earliest_time) as [Hearlier|Hlater].
        -- destruct (IH (Some (key, first_access)) Hrest) as (r & -> & Hr).
           exists r. split; [done|]. apply Htake; [done|].
           intros ? ? [= _ <-]. lia.
        -- destruct (IH (Some (a, earliest_time)) Hrest) as (r & -> & Hr).
           exists r. split; [done|]. destruct r as [[victim t]|].
           ++ destruct Hr as (Hsrc & Hmin & Hle).
              pose proof (Hle _ _ eq_refl) as Hfirst. split; [|split].
              ** destruct Hsrc as [?|(times0 & Hin & ? & ?)]; [by left|].
                 right. exists times0. split; [by right | done].
              ** intros key0 times0 t' [[= -> ->]|Hin]%elem_of_cons Hlt0 Hhd0.
                 --- rewrite Hhd in Hhd0. injection Hhd0 as <-. lia.
                 --- by eapply Hmin.
              ** done.
           ++ by destruct Hr as [? _].
      * destruct (IH (Some (key, first_access)) Hrest) as (r & -> & Hr).
        exists r. split; [done|]. apply Htake; [done|]. done.
    + destruct (IH acc Hrest) as (r & -> & Hr).
      exists r. split; [done|]. destruct r as [[victim t]|].
      * destruct Hr as (Hsrc & Hmin & Hle). split; [|split].
        -- destruct Hsrc as [?|(times0 & Hin & ? & ?)]; [by left|].
           right. exists times0. split; [by right | done].
        -- intros key0 times0 t' [[= -> ->]|Hin]%elem_of_cons Hlt0 Hhd0.
           ++ lia.
           ++ by eapply Hmin.
        -- done.
      * destruct Hr as [-> Hnone]. split; [done|].
        intros key0 times0 [[= -> ->]|Hin]%elem_of_cons.
        -- lia.
        -- by eapply Hnone.
Qed.

(** The cache loop returns the accumulator or a record of the list, and the
    timestamp it ends with is the least [back()] met, capped by the
    accumulator's. *)
Lemma lruk_scanCache_spec (l : list (Key * LruK.CacheRecord Value)) acc :
  let r := LruK.scanCache l acc in
  (r = acc ∨ ∃ record, (r.1, record) ∈ l ∧
                       LruK.getCacheKthAccessTime record = r.2) ∧
  r.2 <= acc.2 ∧
  ∀ key record, (key, record) ∈ l →
    r.2 <= LruK.getCacheKthAccessTime record.
Proof.
  revert acc. induction l as [|[key record] rest IH]; intros acc; simpl.
  - split; [by left|]. split; [lia|]. by intros ? ? ?%elem_of_nil.
  - destruct (Z.ltb_spec (LruK.getCacheKthAccessTime record) acc.2) as [Hlt|Hge].
    + destruct (IH (key, LruK.getCacheKthAccessTime record)) as (Hsrc & Hle & Hmin).
      simpl in *. split; [|split].
      * right. destruct Hsrc as [->|(record' & Hin & Heq)].
        -- exists record. split; [by left | done].
        -- exists record'. split; [by right | done].
      * lia.
      * intros key0 record0 [[= -> ->]|Hin]%elem_of_cons; [done|].
        by eapply Hmin.
    + destruct (IH acc) as (Hsrc & Hle & Hmin). split; [|split].
      * destruct Hsrc as [->|(record' & Hin & Heq)]; [by left|].
        right. exists record'. split; [by right | done].
      * done.
      * intros key0 record0 [[= -> ->]|Hin]%elem_of_cons; [lia|].
        by eapply Hmin.
Qed.

End LruKScan.

Section LruKProofs.
Context {Key : Type} `{Countable Key} {Value : Type}.
Implicit Types (c : LruK.LruKCache Key Value) (key victim : Key) (v : Value).
Implicit Types (times : list Z) (now : Z).

Lemma lruk_contains_true key c :
  LruK.contains key c = true ↔ is_Some (LruK.cache_ c !! key).
Proof. unfold LruK.contains. apply bool_decide_eq_true. Qed.

Lemma lruk_contains_false key c :
  LruK.contains key c = false ↔ LruK.cache_ c !! key = None.
Proof.
  unfold LruK.contains. rewrite bool_decide_eq_false. symmetry.
  apply eq_None_not_Some.
Qed.

(** What [findVictimKey] returns on a non-empty cache table: a history
    record below [k_] with the least first timestamp if there is one, and
    otherwise a promoted record with the least [back()]. *)
Lemma lruk_findVictimKey_spec c :
  (∀ key times, LruK.history_ c !! key = Some times → times ≠ []) →
  LruK.cache_ c ≠ ∅ →
  ∃ victim, LruK.findVictimKey c = inr victim ∧
    ((∃ times t,
        LruK.history_ c !! victim = Some times ∧
        Z.of_nat (length times) < LruK.k_ c ∧ head times = Some t ∧
        ∀ key' times' t', LruK.history_ c !! key' = Some times' →
          Z.of_nat (length times') < LruK.k_ c → head times' = Some t' → t <= t')
     ∨
     ((∀ key times, LruK.history_ c !! key = Some times →
         ¬ Z.of_nat (length times) < LruK.k_ c) ∧
      ∃ record,
        LruK.cache_ c !! victim = Some record ∧
        ∀ key' record', LruK.cache_ c !! key' = Some record' →
          Z.min (LruK.getCacheKthAccessTime record) LruK.TimeStamp_max
            <= LruK.getCacheKthAccessTime record')).
Proof.
  intros Hne Hcache. unfold LruK.findVictimKey.
  destruct (lruk_scanHistory_spec (LruK.k_ c) (map_to_list (LruK.history_ c)) None)
    as (r & -> & Hr).
  { intros key times Hin%elem_of_map_to_list. by eapply Hne. }
  destruct r as [[victim t]|].
  - destruct Hr as ([?|(times & Hin & Hlt & Hhd)] & Hmin & _); [done|].
    exists victim. split; [done|]. left. exists times, t.
    apply elem_of_map_to_list in Hin. do 3 (split; [done|]).
    intros key' times' t' Hin'. apply (Hmin key'). by apply elem_of_map_to_list.
  - destruct Hr as [_ Hnone].
    destruct (map_to_list (LruK.cache_ c)) as [|[first_key record] rest] eqn:Hl.
    { by apply map_to_list_empty_iff in Hl. }
    pose proof (lruk_scanCache_spec ((first_key, record) :: rest)
                  (first_key, LruK.TimeStamp_max)) as Hspec.
    cbv zeta in Hspec.
    set (r := LruK.scanCache _ _) in *.
    destruct Hspec as (Hsrc & Hle & Hmin).
    exists r.1. split; [done|]. right. split.
    { intros key times Hin. apply (Hnone key). by apply elem_of_map_to_list. }
    rewrite <- Hl in Hsrc, Hmin.
    destruct Hsrc as [Hacc|(record' & Hin & Heq)].
    + exists record. split.
      * apply elem_of_map_to_list. rewrite Hacc, Hl. by left.
      * intros key' record' Hin'. apply elem_of_map_to_list in Hin'.
        specialize (Hmin _ _ Hin'). rewrite Hacc in Hmin. simpl in Hmin. lia.
    + exists record'. split; [by apply elem_of_map_to_list|].
      intros key' record'' Hin'. apply elem_of_map_to_list in Hin'.
      specialize (Hmin _ _ Hin'). lia.
Qed.

(** The eviction that precedes the promotion of [key]: the victim is not
    [key], and exactly one record leaves one of the two tables. *)
Lemma lruk_evict_ok c key times :
  (∀ key times, LruK.history_ c !! key = Some times → times ≠ []) →
  LruK.cache_ c ≠ ∅ →
  LruK.history_ c !! key = Some times →
  ¬ Z.of_nat (length times) < LruK.k_ c →
  LruK.cache_ c !! key = None →
  ∃ victim c2,
    LruK.findVictimKey c = inr victim ∧ LruK.evict c = (inr tt, c2) ∧
    victim ≠ key ∧
    LruK.capacity_ c2 = LruK.capacity_ c ∧ LruK.k_ c2 = LruK.k_ c ∧
    ((is_Some (LruK.cache_ c !! victim) ∧
      LruK.history_ c2 = LruK.history_ c ∧
      LruK.cache_ c2 = delete victim (LruK.cache_ c))
     ∨
     (LruK.cache_ c !! victim = None ∧ is_Some (LruK.history_ c !! victim) ∧
      LruK.history_ c2 = delete victim (LruK.history_ c) ∧
      LruK.cache_ c2 = LruK.cache_ c)).
Proof.
  intros Hne Hcache Hkey Hlen Hk.
  destruct (lruk_findVictimKey_spec c Hne Hcache) as (victim & Hv & Hcases).
  unfold LruK.evict. rewrite Hv. exists victim.
  destruct Hcases as [(times' & t & Hin & Hlt & _)|[Hnone (record & Hrec & _)]].
  - assert (victim ≠ key) as Hneq by (intros ->; congruence).
    destruct (LruK.cache_ c !! victim) as [record|] eqn:Hcv.
    + eexists. split; [done|]. split; [done|]. split; [done|]. simpl.
      split; [done|]. split; [done|]. left. split; [by eexists | done].
    + eexists. split; [done|]. split; [done|]. split; [done|]. simpl.
      split; [done|]. split; [done|]. right. split; [done|].
      split; [by eexists | done].
  - assert (victim ≠ key) as Hneq by (intros ->; congruence).
    rewrite Hrec. eexists. split; [done|]. split; [done|]. split; [done|].
    simpl. split; [done|]. split; [done|]. left. split; [by eexists | done].
Qed.

(** Under the invariant the recorded access is appended without a drop. *)
Lemma lruk_recordHistoryAccess_eq now key c :
  LruK.wf c →
  LruK.recordHistoryAccess now key c =
    LruK.mkLruKCache (LruK.capacity_ c) (LruK.k_ c)
      (<[key := default [] (LruK.history_ c !! key) ++ [now]]> (LruK.history_ c))
      (LruK.cache_ c).
Proof.
  intros [_ _ _ Hh]. unfold LruK.recordHistoryAccess.
  destruct (LruK.history_ c !! key) as [times|] eqn:Hk; simpl; [|done].
  rewrite lruk_push_capped_below; [done|]. by apply (Hh key).
Qed.

Lemma lruk_reachedK_eq now key c :
  LruK.wf c →
  LruK.reachedK key (LruK.recordHistoryAccess now key c) =
    (LruK.getHistoryAccessCount key c + 1 >=? LruK.k_ c).
Proof.
  intros Hwf. rewrite lruk_recordHistoryAccess_eq by done.
  unfold LruK.reachedK, LruK.getHistoryAccessCount. simpl.
  rewrite lookup_insert_eq, length_app. simpl.
  destruct (LruK.history_ c !! key); simpl; f_equal; lia.
Qed.

(** [put] on a key that stays below [k_]: only its history record grows. *)
Lemma lruk_put_below now key v c :
  LruK.wf c → LruK.cache_ c !! key = None →
  LruK.getHistoryAccessCount key c + 1 < LruK.k_ c →
  LruK.put now key v c =
    (inr tt,
     LruK.mkLruKCache (LruK.capacity_ c) (LruK.k_ c)
       (<[key := default [] (LruK.history_ c !! key) ++ [now]]> (LruK.history_ c))
       (LruK.cache_ c)).
Proof.
  intros Hwf Hk Hlt. unfold LruK.put. rewrite Hk.
  rewrite lruk_reachedK_eq by done.
  destruct (Z.geb_spec (LruK.getHistoryAccessCount key c + 1) (LruK.k_ c)); [lia|].
  by rewrite lruk_recordHistoryAccess_eq.
Qed.

(** [put] on a key whose history reaches [k_]: after the eviction, if one
    is due, the key moves to the cache table with the value of this call. *)
Lemma lruk_put_promote now key v c :
  LruK.wf c → LruK.cache_ c !! key = None →
  LruK.k_ c <= LruK.getHistoryAccessCount key c + 1 →
  let times1 := default [] (LruK.history_ c !! key) ++ [now] in
  let history1 := <[key := times1]> (LruK.history_ c) in
  ∃ history2 cache2,
    LruK.put now key v c =
      (inr tt,
       LruK.mkLruKCache (LruK.capacity_ c) (LruK.k_ c)
         (delete key history2)
         (<[key := LruK.mkCacheRecord v times1]> cache2)) ∧
    ((Z.of_nat (base.size (LruK.cache_ c)) < LruK.capacity_ c ∧
      history2 = history1 ∧ cache2 = LruK.cache_ c)
     ∨
     (LruK.capacity_ c <= Z.of_nat (base.size (LruK.cache_ c)) ∧
      ∃ victim,
        LruK.findVictimKey (LruK.recordHistoryAccess now key c) = inr victim ∧
        victim ≠ key ∧
        ((is_Some (LruK.cache_ c !! victim) ∧
          history2 = history1 ∧ cache2 = delete victim (LruK.cache_ c))
         ∨
         (LruK.cache_ c !! victim = None ∧ is_Some (LruK.history_ c !! victim) ∧
          history2 = delete victim history1 ∧ cache2 = LruK.cache_ c)))).
Proof.
  intros Hwf Hk Hge times1 history1. pose proof Hwf as [Hcap Hkpos Hdis Hh].
  unfold LruK.put. rewrite Hk, lruk_reachedK_eq by done.
  destruct (Z.geb_spec (LruK.getHistoryAccessCount key c + 1) (LruK.k_ c)); [|lia].
  pose proof (lruk_recordHistoryAccess_eq now key c Hwf) as Hrec.
  fold times1 in Hrec. fold history1 in Hrec.
  set (c1 := LruK.recordHistoryAccess now key c) in *.
  assert (LruK.history_ c1 !! key = Some times1) as Hkey1.
  { rewrite Hrec. simpl. apply lookup_insert_eq. }
  assert (Z.of_nat (length times1) = LruK.getHistoryAccessCount key c + 1) as Hlen1.
  { unfold times1, LruK.getHistoryAccessCount. rewrite length_app. simpl.
    destruct (LruK.history_ c !! key); simpl; lia. }
  unfold mbind, M_bind.
  replace (LruK.cache_ c1) with (LruK.cache_ c) by (by rewrite Hrec).
  replace (LruK.capacity_ c1) with (LruK.capacity_ c) by (by rewrite Hrec).
  destruct (Z.geb_spec (Z.of_nat (base.size (LruK.cache_ c))) (LruK.capacity_ c))
    as [Hfull|Hroom].
  - destruct (lruk_evict_ok c1 key times1) as
      (victim & c2 & Hv & Hev & Hneq & Hcap2 & Hk2 & Hcases).
    + rewrite Hrec. simpl. unfold history1. intros key' times'.
      destruct (decide (key' = key)) as [->|Hne'].
      * rewrite lookup_insert_eq. intros [= <-]. unfold times1.
        by destruct (default [] _).
      * rewrite lookup_insert_ne by done. intros Hin E.
        apply Hh in Hin. rewrite E in Hin. simpl in Hin. lia.
    + rewrite Hrec. simpl. intros E. rewrite E, map_size_empty in Hfull. lia.
    + done.
    + replace (LruK.k_ c1) with (LruK.k_ c) by (by rewrite Hrec). lia.
    + by rewrite Hrec.
    + rewrite Hev. unfold LruK.promoteToCache.
      assert (LruK.history_ c2 !! key = Some times1) as Hkey2.
      { destruct Hcases as [(_ & -> & _)|(_ & _ & -> & _)]; [done|].
        by rewrite lookup_delete_ne. }
      rewrite Hkey2, Hcap2, Hk2.
      replace (LruK.capacity_ c1) with (LruK.capacity_ c) by (by rewrite Hrec).
      replace (LruK.k_ c1) with (LruK.k_ c) by (by rewrite Hrec).
      exists (LruK.history_ c2), (LruK.cache_ c2). split; [done|]. right.
      split; [done|]. exists victim. split; [done|]. split; [done|].
      rewrite Hrec in Hcases. simpl in Hcases. unfold history1 in Hcases.
      destruct Hcases as [(Hin & -> & ->)|(Hnin & Hin & -> & ->)].
      * by left.
      * right. rewrite lookup_insert_ne in Hin by done. done.
  - unfold mret, M_ret, LruK.promoteToCache. rewrite Hkey1.
    replace (LruK.capacity_ c1) with (LruK.capacity_ c) by (by rewrite Hrec).
    replace (LruK.k_ c1) with (LruK.k_ c) by (by rewrite Hrec).
    replace (LruK.cache_ c1) with (LruK.cache_ c) by (by rewrite Hrec).
    replace (LruK.history_ c1) with history1 by (by rewrite Hrec).
    exists history1, (LruK.cache_ c). split; [done|]. by left.
Qed.

End LruKProofs.

Section LruKInvariant.
Context {Key : Type} `{Countable Key} {Value : Type}.
Implicit Types (c : LruK.LruKCache Key Value) (key victim : Key) (v : Value).
Implicit Types (times : list Z) (now : Z).

Lemma lruk_construct_wf capacity k c :
  LruK.construct capacity k = inr c → LruK.wf c.
Proof.
  unfold LruK.construct. destruct (Z.leb_spec capacity 0); [done|].
  destruct (Z.leb_spec k 0); [done|].
  intros [= <-]. split; simpl; [lia | lia | done |].
  intros key times. by rewrite lookup_empty.
Qed.

Lemma lruk_clear_wf c : LruK.wf c → LruK.wf (snd (LruK.clear c)).
Proof.
  intros [Hcap Hk _ _]. split; simpl; [done | done | done |].
  intros key times. by rewrite lookup_empty.
Qed.

(** Touching a promoted record leaves the invariant alone. *)
Lemma lruk_touch_wf key record' c :
  LruK.wf c → is_Some (LruK.cache_ c !! key) →
  LruK.wf (LruK.mkLruKCache (LruK.capacity_ c) (LruK.k_ c) (LruK.history_ c)
             (<[key := record']> (LruK.cache_ c))).
Proof.
  intros [Hcap Hk Hdis Hh] [record Hrec]. split; simpl; [done | done | | done].
  intros key' Hin. rewrite lookup_insert_ne; [by apply Hdis|].
  intros ->. apply Hdis in Hin. congruence.
Qed.

Lemma lruk_get_existing now key record c :
  LruK.cache_ c !! key = Some record →
  LruK.get now key c =
    (inr (LruK.value record),
     LruK.mkLruKCache (LruK.capacity_ c) (LruK.k_ c) (LruK.history_ c)
       (<[key := LruK.recordCacheAccess (LruK.k_ c) now record]> (LruK.cache_ c))).
Proof. intros Hk. unfold LruK.get. by rewrite Hk. Qed.

Lemma lruk_get_missing now key c :
  LruK.cache_ c !! key = None → LruK.get now key c = (inl out_of_range, c).
Proof. intros Hk. unfold LruK.get. by rewrite Hk. Qed.

Lemma lruk_put_existing now key record v c :
  LruK.cache_ c !! key = Some record →
  LruK.put now key v c =
    (inr tt,
     LruK.mkLruKCache (LruK.capacity_ c) (LruK.k_ c) (LruK.history_ c)
       (<[key := LruK.recordCacheAccess (LruK.k_ c) now
                   (LruK.mkCacheRecord v (LruK.access_times record))]>
          (LruK.cache_ c))).
Proof. intros Hk. unfold LruK.put. by rewrite Hk. Qed.

Lemma lruk_get_wf now key c : LruK.wf c → LruK.wf (snd (LruK.get now key c)).
Proof.
  intros Hwf. destruct (LruK.cache_ c !! key) as [record|] eqn:Hk.
  - rewrite (lruk_get_existing now key record) by done. simpl.
    apply lruk_touch_wf; [done | by eexists].
  - by rewrite lruk_get_missing.
Qed.

Lemma lruk_count_bound key c :
  LruK.wf c → 0 <= LruK.getHistoryAccessCount key c < LruK.k_ c.
Proof.
  intros [_ Hk _ Hh]. unfold LruK.getHistoryAccessCount.
  destruct (LruK.history_ c !! key) as [times|] eqn:E; [|lia].
  apply Hh in E. lia.
Qed.

Lemma lruk_put_wf now key v c : LruK.wf c → LruK.wf (snd (LruK.put now key v c)).
Proof.
  intros Hwf. pose proof Hwf as [Hcap Hk Hdis Hh].
  destruct (LruK.cache_ c !! key) as [record|] eqn:Hkey.
  { rewrite (lruk_put_existing now key record) by done. simpl.
    apply lruk_touch_wf; [done | by eexists]. }
  pose proof (lruk_count_bound key c Hwf) as Hcount.
  assert (Z.of_nat (length (default [] (LruK.history_ c !! key) ++ [now])) =
          LruK.getHistoryAccessCount key c + 1) as Hlen1.
  { unfold LruK.getHistoryAccessCount. rewrite length_app. simpl.
    destruct (LruK.history_ c !! key); simpl; lia. }
  destruct (Z.lt_ge_cases (LruK.getHistoryAccessCount key c + 1) (LruK.k_ c))
    as [Hbelow|Hreach].
  - rewrite lruk_put_below by done. split; simpl; [done | done | |].
    + intros key'. destruct (decide (key' = key)) as [->|Hne]; [done|].
      rewrite lookup_insert_ne by done. apply Hdis.
    + intros key' times'. destruct (decide (key' = key)) as [->|Hne].
      * rewrite lookup_insert_eq. intros [= <-]. lia.
      * rewrite lookup_insert_ne by done. apply Hh.
  - destruct (lruk_put_promote now key v c Hwf Hkey Hreach)
      as (history2 & cache2 & -> & Hcases). simpl.
    assert ((∀ key' times', history2 !! key' = Some times' → key' ≠ key →
               LruK.history_ c !! key' = Some times') ∧
            (∀ key', LruK.cache_ c !! key' = None → cache2 !! key' = None))
      as [Hsub2 Hsubc].
    { destruct Hcases as [(_ & -> & ->)|(_ & victim & _ & _ &
        [(_ & -> & ->)|(_ & _ & -> & ->)])].
      - split; [|done]. intros key' times' Hin Hne.
        by rewrite lookup_insert_ne in Hin.
      - split.
        + intros key' times' Hin Hne. by rewrite lookup_insert_ne in Hin.
        + intros key' Hn. apply lookup_delete_None. by right.
      - split; [|done]. intros key' times' [_ Hin]%lookup_delete_Some Hne.
        by rewrite lookup_insert_ne in Hin. }
    split; simpl; [done | done | |].
    + intros key' [times' [Hne Hin]%lookup_delete_Some].
      rewrite lookup_insert_ne by done. apply Hsubc, Hdis.
      exists times'. by apply Hsub2.
    + intros key' times' [Hne Hin]%lookup_delete_Some.
      apply (Hh key'). by apply Hsub2.
Qed.

Lemma lruk_step_wf now o c : LruK.wf c → LruK.wf (LruK.step now o c).
Proof.
  destruct o; simpl; intros Hwf.
  - by apply lruk_get_wf.
  - by apply lruk_put_wf.
  - done.
  - by apply lruk_clear_wf.
Qed.

Lemma lruk_run_wf ops c : LruK.wf c → LruK.wf (LruK.run ops c).
Proof.
  revert c. induction ops as [|[now o] rest IH]; simpl; intros c Hwf; [done|].
  by apply IH, lruk_step_wf.
Qed.

Lemma lruk_reachable_wf capacity k c0 ops :
  LruK.construct capacity k = inr c0 → LruK.wf (LruK.run ops c0).
Proof. intros Hc. by apply lruk_run_wf, (lruk_construct_wf capacity k). Qed.

(** A history record leaves its table in three ways only: [clear], the
    promotion of its key, and its choice as the victim of a promotion. *)
Lemma lruk_history_removed now o key c :
  is_Some (LruK.history_ c !! key) →
  LruK.history_ (LruK.step now o c) !! key = None →
  o = Clear ∨
  ∃ key' v,
    o = Put key' v ∧ LruK.cache_ c !! key' = None ∧
    LruK.reachedK key' (LruK.recordHistoryAccess now key' c) = true ∧
    (key = key' ∨
     (LruK.capacity_ c <= Z.of_nat (base.size (LruK.cache_ c)) ∧
      LruK.findVictimKey (LruK.recordHistoryAccess now key' c) = inr key)).
Proof.
  intros [times Hin] Hgone. destruct o as [key'|key' v|key'|]; simpl in Hgone.
  - unfold LruK.get in Hgone.
    destruct (LruK.cache_ c !! key'); simpl in Hgone; congruence.
  - right. exists key', v. split; [done|]. unfold LruK.put in Hgone.
    destruct (LruK.cache_ c !! key') as [record|] eqn:Hk'.
    { simpl in Hgone. congruence. }
    split; [done|].
    remember (LruK.recordHistoryAccess now key' c) as c1 eqn:Ec1.
    assert (key ≠ key' → LruK.history_ c1 !! key = Some times) as Hkeep.
    { intros Hne. subst c1. unfold LruK.recordHistoryAccess. simpl.
      destruct (LruK.history_ c !! key'); by rewrite lookup_insert_ne. }
    assert (LruK.cache_ c1 = LruK.cache_ c ∧ LruK.capacity_ c1 = LruK.capacity_ c)
      as [Hc1 Hcap1] by (by subst c1).
    destruct (LruK.reachedK key' c1) eqn:Hreach.
    2:{ simpl in Hgone. destruct (decide (key = key')) as [->|Hne].
        - subst c1. unfold LruK.recordHistoryAccess in Hgone. simpl in Hgone.
          destruct (LruK.history_ c !! key'); by rewrite lookup_insert_eq in Hgone.
        - rewrite Hkeep in Hgone by done. done. }
    split; [done|].
    destruct (decide (key = key')) as [->|Hne]; [by left|]. right.
    specialize (Hkeep Hne). unfold mbind, M_bind in Hgone.
    rewrite Hc1, Hcap1 in Hgone.
    destruct (Z.geb_spec (Z.of_nat (base.size (LruK.cache_ c))) (LruK.capacity_ c))
      as [Hfull|Hroom].
    + split; [done|]. unfold LruK.evict in Hgone.
      destruct (LruK.findVictimKey c1) as [e|victim] eqn:Hv.
      { simpl in Hgone. congruence. }
      destruct (decide (victim = key)) as [->|Hvk]; [done|]. exfalso.
      destruct (LruK.cache_ c1 !! victim); unfold LruK.promoteToCache in Hgone;
        simpl in Hgone.
      * destruct (LruK.history_ c1 !! key'); simpl in Hgone.
        -- rewrite lookup_delete_ne in Hgone by done. congruence.
        -- congruence.
      * destruct (delete victim (LruK.history_ c1) !! key'); simpl in Hgone.
        -- rewrite !lookup_delete_ne in Hgone by done. congruence.
        -- rewrite lookup_delete_ne in Hgone by done. congruence.
    + exfalso. unfold mret, M_ret, LruK.promoteToCache in Hgone.
      destruct (LruK.history_ c1 !! key'); simpl in Hgone.
      * rewrite lookup_delete_ne in Hgone by done. congruence.
      * congruence.
  - congruence.
  - by left.
Qed.

End LruKInvariant.

(** * The properties of the engines *)

(** ** FIFO: access never reorders *)

(** C7. In the FIFO engine [get] and [contains] change nothing, the queue
    included; [put] on a key of the index replaces its value and leaves the
    queue as it is; [put] of a new key on a full engine unlinks the head of
    the queue, the oldest insertion, and appends the new key; with room left
    it only appends.  With capacity 3, after [put] of 1, 2 and 3 and any
    number [n] of [get(1)], [put(4)] evicts key 1 and keeps 2, 3 and 4. *)
Theorem fifo_access_never_reorders :
  (∀ (Key : Type) (EqK : EqDecision Key) (CntK : Countable Key) (Value : Type)
     (capacity : Z) (c0 : Fifo.FifoCache Key Value) (ops : list (op Key Value)),
     Fifo.construct capacity = inr c0 →
     let c := Fifo.run ops c0 in
     (∀ key, Fifo.step (Get key) c = c ∧ Fifo.step (Contains key) c = c) ∧
     (∀ key v, Fifo.contains key c = true →
        Fifo.queue (Fifo.step (Put key v) c) = Fifo.queue c ∧
        Fifo.cache_ (Fifo.step (Put key v) c) !! key = Some v) ∧
     (∀ key v, Fifo.contains key c = false → Fifo.size c = Fifo.capacity c →
        ∃ h rest,
          Fifo.queue c = h :: rest ∧
          Fifo.queue (Fifo.step (Put key v) c) = rest ++ [key] ∧
          Fifo.contains h (Fifo.step (Put key v) c) = false ∧
          ∀ k, k ∈ rest → Fifo.contains k (Fifo.step (Put key v) c) = true) ∧
     (∀ key v, Fifo.contains key c = false → Fifo.size c < Fifo.capacity c →
        Fifo.queue (Fifo.step (Put key v) c) = Fifo.queue c ++ [key]))
  ∧
  (∀ (n : nat) (a b c d : string) (c0 : Fifo.FifoCache Z string),
     Fifo.construct 3 = inr c0 →
     let c' := Fifo.run ([Put 1 a; Put 2 b; Put 3 c] ++ replicate n (Get 1)
                           ++ [Put 4 d]) c0 in
     Fifo.contains 1 c' = false ∧ Fifo.contains 2 c' = true ∧
     Fifo.contains 3 c' = true ∧ Fifo.contains 4 c' = true).
Proof.
  split.
  - intros Key EqK CntK Value capacity c0 ops Hc c.
    pose proof (fifo_reachable_wf capacity c0 ops Hc) as Hwf. fold c in Hwf.
    split; [|split; [|split]].
    + intros key. split; [apply fifo_get_state | done].
    + intros key v Hin%fifo_contains_true. simpl.
      rewrite fifo_put_existing by done. simpl. split; [done|].
      apply lookup_insert_eq.
    + intros key v Hk%fifo_contains_false Hfull.
      destruct (fifo_put_full key v c Hwf Hk Hfull) as (h & rest & Hq & Hne & Hput).
      exists h, rest. simpl. rewrite Hput. simpl. split; [done|]. split; [done|].
      split.
      * apply fifo_contains_false. simpl.
        rewrite lookup_insert_ne by done. apply lookup_delete_eq.
      * intros k Hin. apply fifo_contains_true. simpl.
        destruct Hwf as [_ _ Hl _].
        destruct (decide (k = key)) as [->|Hkk].
        { rewrite lookup_insert_eq. by eexists. }
        rewrite lookup_insert_ne by done.
        assert (k ≠ h).
        { intros ->. destruct Hl as [Hnd _ _]. rewrite Hq in Hnd.
          by apply NoDup_cons in Hnd as [? _]. }
        rewrite lookup_delete_ne by done.
        apply (linked_lookup _ _ _ Hl). rewrite Hq. by right.
    + intros key v Hk%fifo_contains_false Hroom. simpl.
      unfold Fifo.put, Fifo.size, Fifo.capacity in *. rewrite Hk.
      destruct (Z.geb_spec (Fifo.size_ c) (Fifo.capacity_ c)); [lia | done].
  - intros n a b c d c0 [= <-].
    rewrite fifo_run_app, fifo_run_app, fifo_run_gets. by vm_compute.
Qed.

Lemma fifo_access_never_reorders_witness :
  let c0 : Fifo.FifoCache Z string := Fifo.mkFifoCache 3 0 ∅ [] in
  Fifo.construct 3 = inr c0 ∧
  Fifo.step (Get 1) (Fifo.run [Put 1 "a"%string] c0) = Fifo.run [Put 1 "a"%string] c0 ∧
  Fifo.contains 1
    (Fifo.run ([Put 1 "a"%string; Put 2 "b"%string; Put 3 "c"%string]
                 ++ replicate 2 (Get 1) ++ [Put 4 "d"%string]) c0) = false.
Proof.
  split; [reflexivity|]. split.
  - exact (proj1 (proj1 (proj1 fifo_access_never_reorders Z _ _ string 3 _
                           [Put 1 "a"%string] eq_refl) 1)).
  - exact (proj1 (proj2 fifo_access_never_reorders 2%nat "a" "b" "c" "d"
                    _ eq_refl)%string).
Defined.

(** ** LRU: recency order *)



(** ** LFU: the tracked minimum and the eviction order *)

Section LfuAccess.
Context {Key : Type} `{Countable Key} {Value : Type}.
Implicit Types (c : Lfu.LfuCache Key Value) (key k : Key) (v : Value).

Lemma lfu_int_wrap_succ_ne f : Lfu.int_wrap (f + 1) ≠ f.
Proof.
  unfold Lfu.int_wrap. change (2 ^ 31) with 2147483648.
  change (2 ^ 32) with 4294967296. intros E.
  pose proof (Z.div_mod (f + 1 + 2147483648) 4294967296). lia.
Qed.

Lemma lfu_getFrequency_get key c :
  Lfu.contains key c = true →
  Lfu.getFrequency key (Lfu.step (Get key) c) =
    Lfu.int_wrap (Lfu.getFrequency key c + 1) ∧
  ∀ k, k ≠ key →
    Lfu.getFrequency k (Lfu.step (Get key) c) = Lfu.getFrequency k c.
Proof.
  intros [n Hk]%lfu_contains_true. simpl.
  rewrite (lfu_get_existing key n) by done. simpl.
  unfold Lfu.getFrequency. rewrite (lfu_updateFrequency_cache key n) by done.
  rewrite lookup_insert_eq, Hk. simpl. split; [done|].
  intros k Hne. by rewrite lookup_insert_ne.
Qed.

Lemma lfu_getFrequency_put key v c :
  Lfu.wf c → Lfu.contains key c = true →
  Lfu.getFrequency key (Lfu.step (Put key v) c) =
    Lfu.int_wrap (Lfu.getFrequency key c + 1) ∧
  ∀ k, k ≠ key →
    Lfu.getFrequency k (Lfu.step (Put key v) c) = Lfu.getFrequency k c.
Proof.
  intros Hwf [n Hk]%lfu_contains_true. simpl.
  rewrite (lfu_put_existing key n) by done. simpl. unfold Lfu.getFrequency.
  rewrite (lfu_updateFrequency_cache key (Lfu.mkCacheNode v (Lfu.frequency n)))
    by (simpl; apply lookup_insert_eq).
  simpl. rewrite lookup_insert_eq, Hk. simpl. split; [done|].
  intros k Hne. by rewrite !lookup_insert_ne.
Qed.

(** Where [updateFrequency] leaves the node: at the head of the bucket of
    its new frequency, the other nodes keeping their places. *)
Lemma lfu_updateFrequency_buckets key n c :
  Lfu.buckets_linked (Lfu.frequency_buckets_ c) (Lfu.cache_ c) →
  Lfu.cache_ c !! key = Some n →
  let f := Lfu.frequency n in
  let g := Lfu.int_wrap (f + 1) in
  let c' := Lfu.updateFrequency key c in
  Lfu.bucket_nodes g c' = key :: Lfu.bucket_nodes g c ∧
  Lfu.bucket_nodes f c' = unlink key (Lfu.bucket_nodes f c) ∧
  ∀ h, h ≠ f → h ≠ g → Lfu.bucket_nodes h c' = Lfu.bucket_nodes h c.
Proof.
  intros HL Hk f g c'.
  destruct (lfu_linked_bucket _ _ _ _ HL Hk) as (b & Hb & Hin).
  pose proof (lfu_int_wrap_succ_ne f) as Hgf. fold g in Hgf.
  subst c'. rewrite (lfu_updateFrequency_eq key n b) by done.
  fold f. fold g. fold f in Hb. unfold Lfu.bucket_nodes. simpl.
  split; [|split].
  - rewrite lfu_addToBucket_eq, lookup_insert_ne by done.
    by destruct (Lfu.frequency_buckets_ c !! g).
  - rewrite lfu_addToBucket_ne, lookup_insert_eq, Hb by done. done.
  - intros h Hf Hg. by rewrite lfu_addToBucket_ne, lookup_insert_ne.
Qed.

(** [put] of a new key links it at the head of the bucket of frequency 1. *)
Lemma lfu_insert_buckets key v c :
  let c' := Lfu.insert key v c in
  Lfu.bucket_nodes 1 c' = key :: Lfu.bucket_nodes 1 c ∧
  ∀ h, h ≠ 1 → Lfu.bucket_nodes h c' = Lfu.bucket_nodes h c.
Proof.
  unfold Lfu.bucket_nodes, Lfu.insert. simpl. split.
  - rewrite lfu_addToBucket_eq.
    by destruct (Lfu.frequency_buckets_ c !! 1).
  - intros h Hh. by rewrite lfu_addToBucket_ne.
Qed.

(** [put] of a new key on a full engine. *)
Lemma lfu_put_full key v c :
  Lfu.wf c → Lfu.contains key c = false → Lfu.size c = Lfu.capacity c →
  ∃ bucket rest victim,
    Lfu.frequency_buckets_ c !! Lfu.min_frequency_ c = Some bucket ∧
    Lfu.FrequencyBucket.nodes bucket = rest ++ [victim] ∧
    Lfu.getFrequency victim c = Lfu.min_frequency_ c ∧
    Lfu.contains victim c = true ∧
    Lfu.cache_ (Lfu.step (Put key v) c) =
      <[key := Lfu.mkCacheNode v 1]> (delete victim (Lfu.cache_ c)) ∧
    Lfu.contains victim (Lfu.step (Put key v) c) = false.
Proof.
  intros Hwf Hk%lfu_contains_false Hfull. unfold Lfu.size, Lfu.capacity in Hfull.
  pose proof (Lfu.wf_capacity _ Hwf) as Hcap.
  assert (Lfu.cache_ c ≠ ∅) as Hne.
  { intros E. rewrite E, map_size_empty in Hfull. lia. }
  destruct (lfu_evict_eq c Hwf Hne) as (bm & rest & t & n & Hbm & Hrest & Ht & Hf & Hev).
  exists bm, rest, t. split; [done|]. split; [done|].
  split; [by (unfold Lfu.getFrequency; rewrite Ht)|].
  split; [by (apply lfu_contains_true; eexists)|].
  simpl. rewrite lfu_put_new by done. simpl.
  destruct (Z.geb_spec (Z.of_nat (base.size (Lfu.cache_ c))) (Lfu.capacity_ c));
    [|lia].
  rewrite Hev. simpl. split; [done|].
  apply lfu_contains_false. simpl.
  assert (t ≠ key) by (intros ->; congruence).
  rewrite lookup_insert_ne by done. apply lookup_delete_eq.
Qed.

(** The buckets after [put] of a new key on a full engine: the victim is
    unlinked, the new node is at the head of the bucket of frequency 1, and
    the other nodes keep their places. *)
Lemma lfu_put_full_buckets key v victim rest c :
  Lfu.wf c → Lfu.contains key c = false → Lfu.size c = Lfu.capacity c →
  Lfu.bucket_nodes (Lfu.min_frequency_ c) c = rest ++ [victim] →
  let c' := Lfu.step (Put key v) c in
  Lfu.bucket_nodes 1 c' = key :: unlink victim (Lfu.bucket_nodes 1 c) ∧
  ∀ h, h ≠ 1 → Lfu.bucket_nodes h c' = unlink victim (Lfu.bucket_nodes h c).
Proof.
  intros Hwf Hk%lfu_contains_false Hfull Hlast c'.
  unfold Lfu.size, Lfu.capacity in Hfull.
  pose proof (Lfu.wf_capacity _ Hwf) as Hcap.
  pose proof (Lfu.wf_buckets _ Hwf) as HL.
  assert (Lfu.cache_ c ≠ ∅) as Hne.
  { intros E. rewrite E, map_size_empty in Hfull. lia. }
  destruct (lfu_evict_eq c Hwf Hne) as (bm & rest' & t & n & Hbm & Hrest & Ht & Hf & Hev).
  assert (rest' = rest ∧ t = victim) as [-> ->].
  { unfold Lfu.bucket_nodes in Hlast. rewrite Hbm, Hrest in Hlast.
    by apply app_inj_tail in Hlast. }
  assert (∀ h, Lfu.bucket_nodes h
                 (Lfu.mkLfuCache (Lfu.capacity_ c) (Lfu.min_frequency_ c)
                    (delete victim (Lfu.cache_ c))
                    (<[Lfu.min_frequency_ c := Lfu.FrequencyBucket.removeNode victim bm]>
                       (Lfu.frequency_buckets_ c)))
               = unlink victim (Lfu.bucket_nodes h c)) as Hun.
  { intros h. unfold Lfu.bucket_nodes. simpl.
    destruct (decide (h = Lfu.min_frequency_ c)) as [->|Hh].
    - by rewrite lookup_insert_eq, Hbm.
    - rewrite lookup_insert_ne by done.
      destruct (Lfu.frequency_buckets_ c !! h) as [b|] eqn:Hb; [|done].
      symmetry. apply unlink_notin. intros Hin.
      assert (h = Lfu.frequency n); [|congruence].
      apply (lfu_linked_unique _ _ victim n h HL Ht). by exists b. }
  subst c'. simpl. rewrite lfu_put_new by done. simpl.
  destruct (Z.geb_spec (Z.of_nat (base.size (Lfu.cache_ c))) (Lfu.capacity_ c));
    [|lia].
  rewrite Hev.
  destruct (lfu_insert_buckets key v
              (Lfu.mkLfuCache (Lfu.capacity_ c) (Lfu.min_frequency_ c)
                 (delete victim (Lfu.cache_ c))
                 (<[Lfu.min_frequency_ c := Lfu.FrequencyBucket.removeNode victim bm]>
                    (Lfu.frequency_buckets_ c)))) as [H1 Hother].
  split.
  - by rewrite H1, Hun.
  - intros h Hh. by rewrite Hother, Hun.
Qed.

(** An access to the only node of the minimum bucket raises the minimum. *)
Lemma lfu_updateFrequency_min key bucket c :
  Lfu.wf c →
  Lfu.frequency_buckets_ c !! Lfu.min_frequency_ c = Some bucket →
  Lfu.FrequencyBucket.nodes bucket = [key] →
  Lfu.min_frequency_ (Lfu.updateFrequency key c) =
    Lfu.int_wrap (Lfu.min_frequency_ c + 1).
Proof.
  intros Hwf Hb Hnodes. pose proof (Lfu.wf_buckets _ Hwf) as HL.
  assert (Lfu.in_bucket (Lfu.frequency_buckets_ c) (Lfu.min_frequency_ c) key)
    as Hin.
  { exists bucket. split; [done|]. rewrite Hnodes. by left. }
  apply (Lfu.bl_node _ _ HL) in Hin as (n & Hn & Hf).
  rewrite <- Hf in Hb.
  rewrite (lfu_updateFrequency_eq key n bucket) by done. simpl.
  destruct (Lfu.bl_bucket _ _ HL _ _ Hb) as [_ Hsz].
  unfold Lfu.FrequencyBucket.empty. simpl. rewrite Hsz, Hnodes. simpl.
  rewrite Hf, Z.eqb_refl. done.
Qed.

(** The victim of an eviction has the least frequency of the index. *)
Lemma lfu_min_frequency_least k c :
  Lfu.counting c → Lfu.contains k c = true →
  Lfu.min_frequency_ c <= Lfu.getFrequency k c.
Proof.
  intros [_ Hleast] [n Hk]%lfu_contains_true. unfold Lfu.getFrequency.
  rewrite Hk. by apply (Hleast k).
Qed.

Lemma lfu_getFrequency_range k c :
  Lfu.counting c → Lfu.contains k c = true →
  1 <= Lfu.getFrequency k c <= Lfu.INT_MAX.
Proof.
  intros [Hfreq _] [n Hk]%lfu_contains_true. unfold Lfu.getFrequency.
  rewrite Hk. by apply (Hfreq k).
Qed.

End LfuAccess.

(** *** A bucket lists its nodes in the order of their last access *)

Section LfuRecency.
Context {Key : Type} `{Countable Key} {Value : Type}.
Implicit Types (c : Lfu.LfuCache Key Value) (key k : Key) (v : Value).
Implicit Types (ops : list (op Key Value)) (o : op Key Value) (l : list Key).

Lemma lfu_run_snoc ops o c :
  Lfu.run (ops ++ [o]) c = Lfu.step o (Lfu.run ops c).
Proof. revert c. induction ops as [|o' r IH]; simpl; intros c; [done|]. apply IH. Qed.

Lemma lfu_last_access_bound key ops :
  (Lfu.last_access key ops <= length ops)%nat.
Proof.
  induction ops as [|o r IH]; simpl; [done|].
  destruct (Lfu.last_access key r); [destruct (Lfu.accesses o key)|]; lia.
Qed.

Lemma lfu_last_access_snoc key ops o :
  Lfu.last_access key (ops ++ [o]) =
    if Lfu.accesses o key then S (length ops) else Lfu.last_access key ops.
Proof.
  induction ops as [|o' r IH]; simpl.
  - by destruct (Lfu.accesses o key).
  - rewrite IH. destruct (Lfu.accesses o key); [done|].
    by destruct (Lfu.last_access key r).
Qed.

Lemma lfu_accesses_true o key k :
  Lfu.accesses o k = true → (o = Get key ∨ ∃ v, o = Put key v) → k = key.
Proof.
  intros Ha [->|[v ->]]; simpl in Ha; by apply bool_decide_eq_true in Ha.
Qed.

(** A call that accesses none of the nodes of a list leaves it in order. *)
Lemma lfu_by_recency_others ops o l :
  Lfu.by_recency ops l → (∀ k, k ∈ l → Lfu.accesses o k = false) →
  Lfu.by_recency (ops ++ [o]) l.
Proof.
  unfold Lfu.by_recency. induction l as [|x r IH]; intros Hs Hno; [constructor|].
  apply StronglySorted_cons in Hs as [Hx Hr]. apply StronglySorted_cons. split.
  - rewrite Forall_forall in Hx. apply Forall_forall. intros y Hy.
    rewrite !lfu_last_access_snoc, !Hno; [by apply Hx | by left | by right].
  - apply IH; [done|]. intros k Hk. apply Hno. by right.
Qed.

(** The node a call accesses comes first. *)
Lemma lfu_by_recency_head ops o key l :
  Lfu.by_recency ops l → Lfu.accesses o key = true →
  (∀ k, k ∈ l → Lfu.accesses o k = false) →
  Lfu.by_recency (ops ++ [o]) (key :: l).
Proof.
  intros Hs Hkey Hno. apply StronglySorted_cons. split.
  - apply Forall_forall. intros y Hy.
    rewrite !lfu_last_access_snoc, Hkey, (Hno y Hy).
    pose proof (lfu_last_access_bound y ops). lia.
  - by apply lfu_by_recency_others.
Qed.

Lemma lfu_Forall_unlink (P : Key → Prop) k l : Forall P l → Forall P (unlink k l).
Proof.
  induction 1 as [|x r Hx Hr IH]; simpl; [done|].
  destruct (decide (x = k)); [done | by constructor].
Qed.

Lemma lfu_by_recency_unlink ops k l :
  Lfu.by_recency ops l → Lfu.by_recency ops (unlink k l).
Proof.
  unfold Lfu.by_recency. induction l as [|x r IH]; simpl; intros Hs; [done|].
  apply StronglySorted_cons in Hs as [Hx Hr].
  destruct (decide (x = k)); [done|]. apply StronglySorted_cons.
  split; [by apply lfu_Forall_unlink | by apply IH].
Qed.

Lemma lfu_elem_of_unlink_weak k x l : x ∈ unlink k l → x ∈ l.
Proof.
  induction l as [|y r IH]; simpl; [done|].
  destruct (decide (y = k)); [by right|].
  intros [->|Hx]%elem_of_cons; [by left | right; by apply IH].
Qed.

Lemma lfu_bucket_nodes_stored f k c :
  Lfu.buckets_linked (Lfu.frequency_buckets_ c) (Lfu.cache_ c) →
  k ∈ Lfu.bucket_nodes f c ↔
  ∃ n, Lfu.cache_ c !! k = Some n ∧ Lfu.frequency n = f.
Proof.
  intros HL. rewrite <- (Lfu.bl_node _ _ HL). unfold Lfu.bucket_nodes, Lfu.in_bucket.
  destruct (Lfu.frequency_buckets_ c !! f) as [b|]; split.
  - intros Hin. by exists b.
  - by intros (b' & [= <-] & Hin).
  - by intros ?%elem_of_nil.
  - by intros (b' & ? & _).
Qed.

(** The order of a bucket after an access to a stored key. *)
Lemma lfu_updateFrequency_recency ops o key n c :
  Lfu.buckets_linked (Lfu.frequency_buckets_ c) (Lfu.cache_ c) →
  Lfu.cache_ c !! key = Some n →
  (o = Get key ∨ ∃ v, o = Put key v) →
  (∀ f, Lfu.by_recency ops (Lfu.bucket_nodes f c)) →
  ∀ f, Lfu.by_recency (ops ++ [o]) (Lfu.bucket_nodes f (Lfu.updateFrequency key c)).
Proof.
  intros HL Hk Ho Hs h.
  destruct (lfu_updateFrequency_buckets key n c HL Hk) as (Hg & Hf & Hother).
  pose proof (lfu_int_wrap_succ_ne (Lfu.frequency n)) as Hgf.
  assert (Lfu.accesses o key = true) as Hkey.
  { destruct Ho as [->|[v ->]]; simpl; by apply bool_decide_eq_true. }
  assert (∀ f k, k ∈ Lfu.bucket_nodes f c → f ≠ Lfu.frequency n →
                 Lfu.accesses o k = false) as Hno.
  { intros f k [n' [Hn' Hf']]%lfu_bucket_nodes_stored Hne; [|done].
    destruct (Lfu.accesses o k) eqn:Ha; [|done].
    apply (lfu_accesses_true o key k) in Ha; [|done]. congruence. }
  destruct (decide (h = Lfu.int_wrap (Lfu.frequency n + 1))) as [->|Hhg].
  - rewrite Hg. apply lfu_by_recency_head; [done | done |].
    intros k Hin. by apply (Hno _ k Hin).
  - destruct (decide (h = Lfu.frequency n)) as [->|Hhf].
    + rewrite Hf. apply lfu_by_recency_others; [by apply lfu_by_recency_unlink|].
      intros k Hin. destruct (Lfu.accesses o k) eqn:Ha; [|done].
      apply (lfu_accesses_true o key k) in Ha as ->; [|done].
      destruct (lfu_linked_bucket _ _ _ _ HL Hk) as (b & Hb & _).
      destruct (Lfu.bl_bucket _ _ HL _ _ Hb) as [Hnd _].
      unfold Lfu.bucket_nodes in Hin. rewrite Hb in Hin.
      apply elem_of_unlink in Hin as [_ ?]; done.
    + rewrite Hother by done. apply lfu_by_recency_others; [done|].
      intros k Hin. by apply (Hno h k Hin).
Qed.

Lemma lfu_step_recency ops o c :
  Lfu.wf c →
  (∀ f, Lfu.by_recency ops (Lfu.bucket_nodes f c)) →
  ∀ f, Lfu.by_recency (ops ++ [o]) (Lfu.bucket_nodes f (Lfu.step o c)).
Proof.
  intros Hwf Hs. pose proof (Lfu.wf_buckets _ Hwf) as HL.
  assert (∀ key f k, Lfu.cache_ c !! key = None → k ∈ Lfu.bucket_nodes f c →
            (o = Get key ∨ ∃ v, o = Put key v) → Lfu.accesses o k = false)
    as Habsent.
  { intros key f k Hk [n' [Hn' _]]%lfu_bucket_nodes_stored Ho; [|done].
    destruct (Lfu.accesses o k) eqn:Ha; [|done].
    apply (lfu_accesses_true o key k) in Ha; [|done]. congruence. }
  destruct o as [key|key v|key|]; simpl.
  - destruct (Lfu.cache_ c !! key) as [n|] eqn:Hk.
    + rewrite (lfu_get_existing key n) by done. simpl.
      apply (lfu_updateFrequency_recency ops (Get key) key n); [done..|by left|done].
    + rewrite lfu_get_missing by done. simpl. intros f.
      apply lfu_by_recency_others; [done|]. intros k Hin.
      apply (Habsent key f k); [done | done | by left].
  - destruct (Lfu.cache_ c !! key) as [n|] eqn:Hk.
    + rewrite (lfu_put_existing key n) by done. simpl.
      pose proof (lfu_set_value_wf key n v c Hwf Hk) as Hwf1.
      apply (lfu_updateFrequency_recency ops (Put key v) key
               (Lfu.mkCacheNode v (Lfu.frequency n)));
        [apply (Lfu.wf_buckets _ Hwf1) | simpl; apply lookup_insert_eq
        | right; by eexists | done].
    + assert (Lfu.accesses (Put key v) key = true) as Hkey
        by (simpl; by apply bool_decide_eq_true).
      assert (∀ f k, k ∈ Lfu.bucket_nodes f c →
                Lfu.accesses (Put key v) k = false) as Hno.
      { intros f k Hin. apply (Habsent key f k); [done | done |].
        right. by eexists. }
      destruct (Z.lt_ge_cases (Lfu.size c) (Lfu.capacity c)) as [Hroom|Hfull].
      * rewrite lfu_put_new by done. simpl.
        unfold Lfu.size, Lfu.capacity in Hroom.
        destruct (Z.geb_spec (Z.of_nat (base.size (Lfu.cache_ c))) (Lfu.capacity_ c));
          [lia|].
        destruct (lfu_insert_buckets key v c) as [H1 Hother]. intros f.
        destruct (decide (f = 1)) as [->|Hf].
        -- rewrite H1. apply lfu_by_recency_head; [done | done |].
           intros k Hin. by apply (Hno 1 k).
        -- rewrite Hother by done. apply lfu_by_recency_others; [done|].
           intros k Hin. by apply (Hno f k).
      * assert (Lfu.size c = Lfu.capacity c) as Heq.
        { pose proof (Lfu.wf_bound _ Hwf). unfold Lfu.size, Lfu.capacity in *. lia. }
        pose proof Hk as Hk'%lfu_contains_false.
        destruct (lfu_put_full key v c Hwf Hk' Heq)
          as (bucket & rest & victim & Hb & Hnodes & _).
        destruct (lfu_put_full_buckets key v victim rest c Hwf Hk' Heq)
          as [H1 Hother].
        { unfold Lfu.bucket_nodes. by rewrite Hb. }
        simpl in H1, Hother. intros f.
        assert (∀ k, k ∈ unlink victim (Lfu.bucket_nodes f c) →
                  Lfu.accesses (Put key v) k = false) as Hno'.
        { intros k Hin%lfu_elem_of_unlink_weak. by apply (Hno f k). }
        destruct (decide (f = 1)) as [->|Hf].
        -- rewrite H1. apply lfu_by_recency_head;
             [by apply lfu_by_recency_unlink | done | done].
        -- rewrite Hother by done.
           apply lfu_by_recency_others; [by apply lfu_by_recency_unlink | done].
  - intros f. by apply lfu_by_recency_others.
  - intros f. unfold Lfu.bucket_nodes. simpl. rewrite lookup_empty. constructor.
Qed.

Lemma lfu_reachable_recency capacity c0 ops :
  Lfu.construct capacity = inr c0 →
  ∀ f, Lfu.by_recency ops (Lfu.bucket_nodes f (Lfu.run ops c0)).
Proof.
  intros Hc. induction ops as [|o ops IH] using rev_ind.
  - intros f. unfold Lfu.construct in Hc. destruct (capacity <=? 0); [done|].
    injection Hc as <-. unfold Lfu.bucket_nodes. simpl. rewrite lookup_empty.
    constructor.
  - rewrite lfu_run_snoc. apply lfu_step_recency; [|done].
    by apply (lfu_reachable_wf capacity).
Qed.

(** The last node of a bucket is the least recently accessed of its nodes. *)
Lemma lfu_tail_least_recent ops f rest victim k c :
  Lfu.by_recency ops (Lfu.bucket_nodes f c) →
  Lfu.bucket_nodes f c = rest ++ [victim] →
  k ∈ Lfu.bucket_nodes f c → k ≠ victim →
  (Lfu.last_access victim ops < Lfu.last_access k ops)%nat.
Proof.
  intros Hs Hnodes Hin Hne. rewrite Hnodes in Hs, Hin.
  apply StronglySorted_app in Hs as (Hlt & _ & _).
  apply elem_of_app in Hin as [Hin|Hin%list_elem_of_singleton]; [|done].
  apply (Hlt k victim Hin). by left.
Qed.

End LfuRecency.

(** C4. In the LFU engine, as long as no frequency counter has been
    incremented past [INT_MAX], after every call the tracked [min_frequency_]
    is the least frequency that has a non-empty bucket, and 1 when no bucket
    is non-empty, that is when the cache is empty.  In particular an access
    ([get], or [put] on its key) to the only node of the bucket of
    [min_frequency_] raises [min_frequency_] by one, and the insertion of a
    new key sets it to 1. *)
Theorem lfu_min_frequency_is_least :
  ∀ (Key : Type) (EqK : EqDecision Key) (CntK : Countable Key) (Value : Type)
    (capacity : Z) (c0 : Lfu.LfuCache Key Value) (ops : list (op Key Value)),
    Lfu.construct capacity = inr c0 →
    Lfu.no_overflow ops c0 = true →
    let c := Lfu.run ops c0 in
    Lfu.min_frequency_ c = Lfu.true_min_frequency c ∧
    (Lfu.empty c = true → Lfu.min_frequency_ c = 1) ∧
    (∀ key bucket,
       Lfu.frequency_buckets_ c !! Lfu.min_frequency_ c = Some bucket →
       Lfu.FrequencyBucket.nodes bucket = [key] →
       Lfu.min_frequency_ c < Lfu.INT_MAX →
       Lfu.min_frequency_ (Lfu.step (Get key) c) = Lfu.min_frequency_ c + 1 ∧
       ∀ v, Lfu.min_frequency_ (Lfu.step (Put key v) c) = Lfu.min_frequency_ c + 1) ∧
    (∀ key v, Lfu.contains key c = false →
       Lfu.min_frequency_ (Lfu.step (Put key v) c) = 1).
Proof.
  intros Key EqK CntK Value capacity c0 ops Hc Hfit c.
  pose proof (lfu_reachable_wf capacity c0 ops Hc) as Hwf. fold c in Hwf.
  pose proof (lfu_reachable_counting capacity c0 ops Hc Hfit) as Hcnt.
  fold c in Hcnt.
  split; [by apply lfu_min_frequency_true|]. split; [|split].
  - intros He. apply (Lfu.wf_min_one _ Hwf).
    unfold Lfu.empty in He. by apply bool_decide_eq_true in He.
  - intros key bucket Hb Hnodes Hmax.
    pose proof (Lfu.wf_buckets _ Hwf) as HL.
    assert (Lfu.in_bucket (Lfu.frequency_buckets_ c) (Lfu.min_frequency_ c) key)
      as Hin.
    { exists bucket. split; [done|]. rewrite Hnodes. by left. }
    apply (Lfu.bl_node _ _ HL) in Hin as (n & Hn & Hf).
    assert (Lfu.int_wrap (Lfu.min_frequency_ c + 1) = Lfu.min_frequency_ c + 1)
      as Hw.
    { apply lfu_int_wrap_fits. pose proof (Lfu.cnt_freq _ Hcnt _ _ Hn).
      unfold Lfu.INT_MAX in *. lia. }
    rewrite <- Hw. split.
    + simpl. rewrite (lfu_get_existing key n) by done. simpl.
      by apply (lfu_updateFrequency_min key bucket).
    + intros v. simpl. rewrite (lfu_put_existing key n) by done. simpl.
      apply (lfu_updateFrequency_min key bucket
               (Lfu.mkLfuCache _ _ _ _)); [|done|done].
      by apply lfu_set_value_wf.
  - intros key v Hk%lfu_contains_false. simpl.
    by rewrite lfu_put_new.
Qed.

Lemma lfu_min_frequency_is_least_witness :
  let c0 : Lfu.LfuCache Z string := Lfu.mkLfuCache 2 1 ∅ ∅ in
  let ops := [Put 1 "a"%string; Get 1; Put 2 "b"%string] in
  let c := Lfu.run ops c0 in
  Lfu.construct 2 = inr c0 ∧
  Lfu.no_overflow ops c0 = true ∧
  Lfu.min_frequency_ c = Lfu.true_min_frequency c ∧
  Lfu.min_frequency_ c = 1 ∧
  Lfu.frequency_buckets_ c !! Lfu.min_frequency_ c =
    Some (Lfu.FrequencyBucket.mk [2] 1) ∧
  Lfu.min_frequency_ c < Lfu.INT_MAX ∧
  Lfu.min_frequency_ (Lfu.step (Get 2) c) = Lfu.min_frequency_ c + 1.
Proof.
  intros c0 ops c.
  pose proof (lfu_min_frequency_is_least Z _ _ string 2 c0 ops eq_refl eq_refl)
    as (Hleast & _ & Hraise & _).
  split; [reflexivity|]. split; [reflexivity|]. split; [exact Hleast|].
  split; [reflexivity|]. split; [reflexivity|]. split; [reflexivity|].
  exact (proj1 (Hraise 2 (Lfu.FrequencyBucket.mk [2] 1) eq_refl eq_refl eq_refl)).
Defined.

(** C5. In the LFU engine, as long as no frequency counter has been
    incremented past [INT_MAX], every [get], and every [put] on a key of the
    index, adds exactly 1 to the frequency of that key and leaves the other
    frequencies alone; the accessed node is unlinked from its bucket and
    linked at the head of the bucket of its new frequency, and a new node is
    linked at the head of the bucket of frequency 1, the other nodes keeping
    their places.  Every bucket lists its nodes in the order of their last
    access, the most recent first.  [put] of a new key on a full engine evicts
    the last node of the bucket of [min_frequency_]: its frequency is the
    least of the index, and among the keys of that frequency it is the one
    whose last access is the oldest.  With capacity 3:
    after [put] of 1, 2 and 3, two [get(1)] and one [get(2)], [put(4)] evicts
    key 3; after [put] of 1, 2 and 3 alone, [put(4)] evicts key 1; and after
    [put] of 1, 2 and 3 and one [get] of each in that order, [put(4)] evicts
    key 1. *)
Theorem lfu_frequency_and_eviction :
  (∀ (Key : Type) (EqK : EqDecision Key) (CntK : Countable Key) (Value : Type)
     (capacity : Z) (c0 : Lfu.LfuCache Key Value) (ops : list (op Key Value)),
     Lfu.construct capacity = inr c0 →
     Lfu.no_overflow ops c0 = true →
     let c := Lfu.run ops c0 in
     (∀ f, Lfu.by_recency ops (Lfu.bucket_nodes f c)) ∧
     (∀ key (o : op Key Value),
        (o = Get key ∨ ∃ v, o = Put key v) →
        Lfu.contains key c = true → Lfu.getFrequency key c < Lfu.INT_MAX →
        let f := Lfu.getFrequency key c in
        let c' := Lfu.step o c in
        Lfu.getFrequency key c' = f + 1 ∧
        (∀ k, k ≠ key → Lfu.getFrequency k c' = Lfu.getFrequency k c) ∧
        Lfu.bucket_nodes (f + 1) c' = key :: Lfu.bucket_nodes (f + 1) c ∧
        Lfu.bucket_nodes f c' = unlink key (Lfu.bucket_nodes f c) ∧
        (∀ g, g ≠ f → g ≠ f + 1 →
              Lfu.bucket_nodes g c' = Lfu.bucket_nodes g c)) ∧
     (∀ key v, Lfu.contains key c = false → Lfu.size c < Lfu.capacity c →
        let c' := Lfu.step (Put key v) c in
        Lfu.getFrequency key c' = 1 ∧
        (∀ k, k ≠ key → Lfu.getFrequency k c' = Lfu.getFrequency k c) ∧
        Lfu.bucket_nodes 1 c' = key :: Lfu.bucket_nodes 1 c ∧
        (∀ g, g ≠ 1 → Lfu.bucket_nodes g c' = Lfu.bucket_nodes g c)) ∧
     (∀ key v, Lfu.contains key c = false → Lfu.size c = Lfu.capacity c →
        let c' := Lfu.step (Put key v) c in
        ∃ bucket rest victim,
          Lfu.frequency_buckets_ c !! Lfu.min_frequency_ c = Some bucket ∧
          Lfu.FrequencyBucket.nodes bucket = rest ++ [victim] ∧
          Lfu.getFrequency victim c = Lfu.min_frequency_ c ∧
          (∀ k, Lfu.contains k c = true →
                Lfu.getFrequency victim c <= Lfu.getFrequency k c) ∧
          (∀ k, Lfu.contains k c = true → k ≠ victim →
                Lfu.getFrequency k c = Lfu.getFrequency victim c →
                (Lfu.last_access victim ops < Lfu.last_access k ops)%nat) ∧
          Lfu.contains victim c = true ∧
          Lfu.cache_ c' =
            <[key := Lfu.mkCacheNode v 1]> (delete victim (Lfu.cache_ c)) ∧
          Lfu.contains victim c' = false ∧
          Lfu.bucket_nodes 1 c' = key :: unlink victim (Lfu.bucket_nodes 1 c) ∧
          (∀ g, g ≠ 1 →
                Lfu.bucket_nodes g c' = unlink victim (Lfu.bucket_nodes g c))))
  ∧
  (∀ (a b c d : string) (c0 : Lfu.LfuCache Z string),
     Lfu.construct 3 = inr c0 →
     (let c' := Lfu.run [Put 1 a; Put 2 b; Put 3 c; Get 1; Get 1; Get 2; Put 4 d] c0 in
      Lfu.contains 3 c' = false ∧ Lfu.contains 1 c' = true ∧
      Lfu.contains 2 c' = true ∧ Lfu.contains 4 c' = true) ∧
     (let c' := Lfu.run [Put 1 a; Put 2 b; Put 3 c; Put 4 d] c0 in
      Lfu.contains 1 c' = false ∧ Lfu.contains 2 c' = true ∧
      Lfu.contains 3 c' = true ∧ Lfu.contains 4 c' = true) ∧
     (let c' := Lfu.run [Put 1 a; Put 2 b; Put 3 c; Get 1; Get 2; Get 3; Put 4 d] c0 in
      Lfu.contains 1 c' = false ∧ Lfu.contains 2 c' = true ∧
      Lfu.contains 3 c' = true ∧ Lfu.contains 4 c' = true)).
Proof.
  split.
  - intros Key EqK CntK Value capacity c0 ops Hc Hfit c.
    pose proof (lfu_reachable_wf capacity c0 ops Hc) as Hwf. fold c in Hwf.
    pose proof (lfu_reachable_counting capacity c0 ops Hc Hfit) as Hcnt.
    fold c in Hcnt.
    pose proof (Lfu.wf_buckets _ Hwf) as HL.
    pose proof (lfu_reachable_recency capacity c0 ops Hc) as Hrec.
    fold c in Hrec.
    split; [done|]. split; [|split].
    + intros key o Ho Hin Hmax f c'.
      pose proof (lfu_getFrequency_range key c Hcnt Hin) as Hrange. fold f in Hrange.
      assert (Lfu.int_wrap (f + 1) = f + 1) as Hw.
      { apply lfu_int_wrap_fits. unfold Lfu.INT_MAX in *. lia. }
      pose proof Hin as [n Hk]%lfu_contains_true.
      assert (Lfu.frequency n = f) as Hf.
      { unfold f, Lfu.getFrequency. by rewrite Hk. }
      rewrite <- Hw. subst c'. destruct Ho as [->|[v ->]].
      * destruct (lfu_getFrequency_get key c Hin) as [Hown Hothers].
        split; [done|]. split; [done|]. simpl.
        rewrite (lfu_get_existing key n) by done. simpl.
        rewrite <- Hf. by apply lfu_updateFrequency_buckets.
      * destruct (lfu_getFrequency_put key v c Hwf Hin) as [Hown Hothers].
        split; [done|]. split; [done|]. simpl.
        rewrite (lfu_put_existing key n) by done. simpl.
        pose proof (lfu_set_value_wf key n v c Hwf Hk) as Hwf1.
        pose proof (lfu_updateFrequency_buckets key
                      (Lfu.mkCacheNode v (Lfu.frequency n)) _
                      (Lfu.wf_buckets _ Hwf1) (lookup_insert_eq _ _ _)) as Hb.
        simpl in Hb. by rewrite <- Hf.
    + intros key v Hk%lfu_contains_false Hroom c'. subst c'. simpl.
      rewrite lfu_put_new by done. simpl.
      unfold Lfu.size, Lfu.capacity in Hroom.
      destruct (Z.geb_spec (Z.of_nat (base.size (Lfu.cache_ c))) (Lfu.capacity_ c));
        [lia|].
      destruct (lfu_insert_buckets key v c) as [H1 Hother].
      unfold Lfu.getFrequency. simpl. rewrite lookup_insert_eq.
      split; [done|]. split; [|done].
      intros k Hne. by rewrite lookup_insert_ne.
    + intros key v Hk Hfull c'.
      destruct (lfu_put_full key v c Hwf Hk Hfull)
        as (bucket & rest & victim & Hb & Hnodes & Hf & Hin & Hcache & Hgone).
      exists bucket, rest, victim. do 3 (split; [done|]).
      split.
      { intros k Hk'. rewrite Hf. by apply lfu_min_frequency_least. }
      split.
      { intros k [n Hn]%lfu_contains_true Hne Hsame.
        apply (lfu_tail_least_recent ops (Lfu.min_frequency_ c) rest victim k c).
        - apply Hrec.
        - unfold Lfu.bucket_nodes. by rewrite Hb.
        - apply lfu_bucket_nodes_stored; [done|]. exists n. split; [done|].
          rewrite <- Hf, <- Hsame. unfold Lfu.getFrequency. by rewrite Hn.
        - done. }
      do 3 (split; [done|]).
      apply (lfu_put_full_buckets key v victim rest c); [done..|].
      unfold Lfu.bucket_nodes. by rewrite Hb.
  - intros a b c d c0 [= <-]. by vm_compute.
Qed.

Lemma lfu_frequency_and_eviction_witness :
  let c0 : Lfu.LfuCache Z string := Lfu.mkLfuCache 3 1 ∅ ∅ in
  let ops := [Put 1 "a"%string; Put 2 "b"%string; Put 3 "c"%string;
              Get 1; Get 2] in
  let c := Lfu.run ops c0 in
  Lfu.construct 3 = inr c0 ∧
  Lfu.no_overflow ops c0 = true ∧
  Lfu.contains 3 c = true ∧ Lfu.getFrequency 3 c < Lfu.INT_MAX ∧
  Lfu.bucket_nodes 2 c = [2; 1] ∧
  Lfu.bucket_nodes 2 (Lfu.step (Get 3) c) = [3; 2; 1] ∧
  Lfu.bucket_nodes (Lfu.getFrequency 3 c + 1) (Lfu.step (Get 3) c) =
    3 :: Lfu.bucket_nodes (Lfu.getFrequency 3 c + 1) c.
Proof.
  intros c0 ops c. split; [reflexivity|]. split; [reflexivity|].
  split; [reflexivity|]. split; [reflexivity|]. split; [reflexivity|].
  split; [reflexivity|].
  exact (proj1 (proj2 (proj2
           (proj1 (proj2 (proj1 lfu_frequency_and_eviction Z _ _ string 3 c0 ops
                            eq_refl eq_refl))
              3 (Get 3) (or_introl eq_refl) eq_refl eq_refl)))).
Defined.

(** ** LRU-K: promotion, the history table, and the victim *)

Section LruKHistory.
Context {Key : Type} `{Countable Key} {Value : Type}.
Implicit Types (c : LruK.LruKCache Key Value) (key : Key) (v : Value).

(** One [put] on each of a list of distinct keys that the engine has not
    met, with [k_] at least 2 and an empty cache table: every call adds one
    history record and promotes nothing. *)
Lemma lruk_first_puts (puts : list (Z * Key * Value)) c :
  LruK.wf c → 2 <= LruK.k_ c → LruK.cache_ c = ∅ →
  NoDup (puts.*1.*2) →
  (∀ key, key ∈ puts.*1.*2 → LruK.history_ c !! key = None) →
  let c' := LruK.run ((λ p, (p.1.1, Put p.1.2 p.2)) <$> puts) c in
  LruK.cache_ c' = ∅ ∧
  base.size (LruK.history_ c') = (base.size (LruK.history_ c) + length puts)%nat ∧
  (∀ key, key ∈ puts.*1.*2 → LruK.getHistoryAccessCount key c' = 1) ∧
  (∀ key, key ∉ puts.*1.*2 → LruK.history_ c' !! key = LruK.history_ c !! key).
Proof.
  revert c. induction puts as [|[[now key] v] rest IH]; intros c Hwf Hk Hcache Hnd Hnew.
  - simpl. split; [done|]. split; [lia|]. split; [|done].
    by intros key ?%elem_of_nil.
  - simpl in Hnd. apply NoDup_cons in Hnd as [Hkey Hrest].
    assert (LruK.history_ c !! key = None) as Hhk by (apply Hnew; by left).
    assert (LruK.step now (Put key v) c =
            LruK.mkLruKCache (LruK.capacity_ c) (LruK.k_ c)
              (<[key := [now]]> (LruK.history_ c)) ∅) as Hstep.
    { simpl. rewrite lruk_put_below; [|done| |].
      - simpl. by rewrite Hhk, Hcache.
      - by rewrite Hcache.
      - unfold LruK.getHistoryAccessCount. rewrite Hhk. lia. }
    assert (LruK.wf (LruK.step now (Put key v) c)) as Hwf1
      by (by apply lruk_step_wf).
    cbn [fmap list_fmap LruK.run fst snd]. rewrite Hstep in *.
    set (c1 := LruK.mkLruKCache _ _ _ _) in *.
    destruct (IH c1 Hwf1) as (Hc' & Hsz & Hcount & Hother); [done | done | done | |].
    { intros key' Hin. simpl. rewrite lookup_insert_ne; [apply Hnew; by right|].
      by intros <-. }
    split; [done|]. split; [|split].
    + rewrite Hsz. simpl. rewrite map_size_insert_None by done. lia.
    + intros key' [->|Hin]%elem_of_cons; [|by apply Hcount].
      unfold LruK.getHistoryAccessCount. rewrite Hother by done. simpl.
      by rewrite lookup_insert_eq.
    + intros key' [Hne Hnin]%not_elem_of_cons. rewrite Hother by done. simpl.
      by rewrite lookup_insert_ne.
Qed.

End LruKHistory.

(** C10. In the LRU-K engine with K at least 2 the history table is not
    bounded by the capacity: one [put] on each of [n] distinct keys of a new
    engine leaves [size()] at 0 and [contains] false for every key, while the
    history table holds [n] records, one per key.  A history record is
    removed by [clear], by the promotion of its key, or when a promotion
    picks it as the eviction victim, and in no other way. *)
Theorem lruk_history_unbounded :
  (∀ (Key : Type) (EqK : EqDecision Key) (CntK : Countable Key) (Value : Type)
     (capacity k : Z) (c0 : LruK.LruKCache Key Value)
     (puts : list (Z * Key * Value)),
     LruK.construct capacity k = inr c0 → 2 <= k →
     NoDup (puts.*1.*2) →
     let c := LruK.run ((λ p, (p.1.1, Put p.1.2 p.2)) <$> puts) c0 in
     LruK.size c = 0 ∧
     (∀ key, LruK.contains key c = false) ∧
     base.size (LruK.history_ c) = length puts ∧
     (∀ key, key ∈ puts.*1.*2 → LruK.getHistoryAccessCount key c = 1))
  ∧
  (∀ (Key : Type) (EqK : EqDecision Key) (CntK : Countable Key) (Value : Type)
     (c : LruK.LruKCache Key Value) (now : Z) (o : op Key Value) (key : Key),
     is_Some (LruK.history_ c !! key) →
     LruK.history_ (LruK.step now o c) !! key = None →
     o = Clear ∨
     ∃ key' v,
       o = Put key' v ∧ LruK.contains key' c = false ∧
       LruK.reachedK key' (LruK.recordHistoryAccess now key' c) = true ∧
       (key = key' ∨
        (LruK.capacity c <= LruK.size c ∧
         LruK.findVictimKey (LruK.recordHistoryAccess now key' c) = inr key))).
Proof.
  split.
  - intros Key EqK CntK Value capacity k c0 puts Hc Hk Hnd c.
    pose proof (lruk_construct_wf capacity k c0 Hc) as Hwf.
    assert (LruK.k_ c0 = k ∧ LruK.cache_ c0 = ∅ ∧ LruK.history_ c0 = ∅)
      as (Hk0 & Hc0 & Hh0).
    { unfold LruK.construct in Hc. destruct (capacity <=? 0); [done|].
      destruct (k <=? 0); [done|]. by injection Hc as <-. }
    destruct (lruk_first_puts puts c0 Hwf) as (Hcache & Hsz & Hcount & _);
      [lia | done | done | |].
    { intros key _. by rewrite Hh0. }
    fold c in Hcache, Hsz, Hcount.
    split; [|split; [|split]].
    + unfold LruK.size. by rewrite Hcache, map_size_empty.
    + intros key. apply lruk_contains_false. by rewrite Hcache.
    + rewrite Hsz, Hh0, map_size_empty. lia.
    + done.
  - intros Key EqK CntK Value c now o key Hin Hgone.
    destruct (lruk_history_removed now o key c Hin Hgone)
      as [->|(key' & v & -> & Hk' & Hreach & Hcases)]; [by left|].
    right. exists key', v. split; [done|].
    split; [by apply lruk_contains_false|]. done.
Qed.

Lemma lruk_history_unbounded_witness :
  let c0 : LruK.LruKCache Z string := LruK.mkLruKCache 1 2 ∅ ∅ in
  let c := LruK.run [(10, Put 1 "a"%string); (20, Put 2 "b"%string);
                     (30, Put 3 "c"%string)] c0 in
  LruK.construct 1 2 = inr c0 ∧ 2 <= 2 ∧
  LruK.size c = 0 ∧ base.size (LruK.history_ c) = 3%nat.
Proof.
  split; [reflexivity|]. split; [lia|].
  assert (NoDup ([(10, 1, "a"%string); (20, 2, "b"%string);
                  (30, 3, "c"%string)].*1.*2)) as Hnd.
  { apply (bool_decide_unpack _). by vm_compute. }
  pose proof (proj1 lruk_history_unbounded Z _ _ string 1 2 _
                [(10, 1, "a"%string); (20, 2, "b"%string); (30, 3, "c"%string)]
                eq_refl ltac:(lia) Hnd) as (Hsize & _ & Hhist & _).
  split; [exact Hsize | exact Hhist].
Defined.

Section LruKPromotion.
Context {Key : Type} `{Countable Key} {Value : Type}.
Implicit Types (c : LruK.LruKCache Key Value) (key : Key) (v : Value) (now : Z).

Lemma lruk_history_invisible now key c :
  LruK.wf c → is_Some (LruK.history_ c !! key) →
  0 < LruK.getHistoryAccessCount key c < LruK.k_ c ∧
  LruK.contains key c = false ∧
  LruK.get now key c = (inl out_of_range, c).
Proof.
  intros [_ _ Hdis Hh] Hin. pose proof (Hdis _ Hin) as Hnone.
  destruct Hin as [times Hin]. split.
  - unfold LruK.getHistoryAccessCount. rewrite Hin. apply Hh in Hin. lia.
  - split; [by apply lruk_contains_false | by apply lruk_get_missing].
Qed.

Lemma lruk_below_spec now key v c :
  LruK.wf c → LruK.contains key c = false →
  LruK.getHistoryAccessCount key c + 1 < LruK.k_ c →
  let c' := LruK.step now (Put key v) c in
  LruK.getHistoryAccessCount key c' = LruK.getHistoryAccessCount key c + 1 ∧
  LruK.contains key c' = false ∧
  ∀ now', LruK.get now' key c' = (inl out_of_range, c').
Proof.
  intros Hwf Hk%lruk_contains_false Hlt. simpl.
  rewrite lruk_put_below by done. simpl. split; [|split].
  - unfold LruK.getHistoryAccessCount. simpl.
    rewrite lookup_insert_eq, length_app. simpl.
    destruct (LruK.history_ c !! key); simpl; lia.
  - by apply lruk_contains_false.
  - intros now'. by apply lruk_get_missing.
Qed.

Lemma lruk_promote_spec now key v c :
  LruK.wf c → LruK.contains key c = false →
  LruK.getHistoryAccessCount key c + 1 = LruK.k_ c →
  let c' := LruK.step now (Put key v) c in
  LruK.put now key v c = (inr tt, c') ∧
  LruK.cache_ c' !! key =
    Some (LruK.mkCacheRecord v (default [] (LruK.history_ c !! key) ++ [now])) ∧
  LruK.history_ c' !! key = None ∧
  LruK.contains key c' = true ∧
  ∀ now', fst (LruK.get now' key c') = inr v.
Proof.
  intros Hwf Hk%lruk_contains_false Heq. simpl.
  destruct (lruk_put_promote now key v c Hwf Hk) as (history2 & cache2 & -> & _);
    [lia|].
  simpl. split; [done|]. split; [apply lookup_insert_eq|].
  split; [apply lookup_delete_eq|]. split.
  - apply lruk_contains_true. simpl. rewrite lookup_insert_eq. by eexists.
  - intros now'. unfold LruK.get. simpl. by rewrite lookup_insert_eq.
Qed.

End LruKPromotion.

(** C3. In the LRU-K engine a key that is still in the history stage, with
    fewer than K recorded accesses, is invisible: [contains] is false and
    [get] fails with [out_of_range], also right after a [put] on it.  The
    [put] that brings its history queue to K entries promotes it: the cache
    table gets a record with the value of that [put] and the timestamp queue
    of the history record, the history record is erased, [contains] is true
    and [get] returns that value.  For K = 2: after one [put(1, a)],
    [contains(1)] is false and [get(1)] fails; after a second [put(1, b)],
    [contains(1)] is true and [get(1)] returns [b]. *)
Theorem lruk_promotion_at_kth_access :
  (∀ (Key : Type) (EqK : EqDecision Key) (CntK : Countable Key) (Value : Type)
     (capacity k : Z) (c0 : LruK.LruKCache Key Value)
     (ops : list (Z * op Key Value)),
     LruK.construct capacity k = inr c0 →
     let c := LruK.run ops c0 in
     (∀ key now, is_Some (LruK.history_ c !! key) →
        0 < LruK.getHistoryAccessCount key c < LruK.k_ c ∧
        LruK.contains key c = false ∧
        LruK.get now key c = (inl out_of_range, c)) ∧
     (∀ key v now, LruK.contains key c = false →
        LruK.getHistoryAccessCount key c + 1 < LruK.k_ c →
        let c' := LruK.step now (Put key v) c in
        LruK.getHistoryAccessCount key c' = LruK.getHistoryAccessCount key c + 1 ∧
        LruK.contains key c' = false ∧
        ∀ now', LruK.get now' key c' = (inl out_of_range, c')) ∧
     (∀ key v now, LruK.contains key c = false →
        LruK.getHistoryAccessCount key c + 1 = LruK.k_ c →
        let c' := LruK.step now (Put key v) c in
        LruK.put now key v c = (inr tt, c') ∧
        LruK.cache_ c' !! key =
          Some (LruK.mkCacheRecord v (default [] (LruK.history_ c !! key) ++ [now])) ∧
        LruK.history_ c' !! key = None ∧
        LruK.contains key c' = true ∧
        ∀ now', fst (LruK.get now' key c') = inr v))
  ∧
  (∀ (capacity t1 t2 t3 t4 : Z) (a b : string) (c0 : LruK.LruKCache Z string),
     LruK.construct capacity 2 = inr c0 →
     let c1 := LruK.step t1 (Put 1 a) c0 in
     let c2 := LruK.step t3 (Put 1 b) (snd (LruK.get t2 1 c1)) in
     LruK.contains 1 c1 = false ∧ fst (LruK.get t2 1 c1) = inl out_of_range ∧
     LruK.contains 1 c2 = true ∧ fst (LruK.get t4 1 c2) = inr b).
Proof.
  split.
  - intros Key EqK CntK Value capacity k c0 ops Hc c.
    pose proof (lruk_reachable_wf capacity k c0 ops Hc) as Hwf. fold c in Hwf.
    split; [|split].
    + intros key now. by apply lruk_history_invisible.
    + intros key v now. by apply lruk_below_spec.
    + intros key v now. by apply lruk_promote_spec.
  - intros capacity t1 t2 t3 t4 a b c0 Hc c1 c2.
    pose proof (lruk_construct_wf capacity 2 c0 Hc) as Hwf0.
    assert (LruK.k_ c0 = 2 ∧ LruK.cache_ c0 = ∅ ∧ LruK.history_ c0 = ∅)
      as (Hk0 & Hc0 & Hh0).
    { unfold LruK.construct in Hc. destruct (capacity <=? 0); [done|].
      by injection Hc as <-. }
    assert (LruK.contains 1 c0 = false) as Hn0.
    { apply lruk_contains_false. by rewrite Hc0. }
    assert (LruK.getHistoryAccessCount 1 c0 = 0) as Hcount0.
    { unfold LruK.getHistoryAccessCount. by rewrite Hh0. }
    destruct (lruk_below_spec t1 1 a c0 Hwf0 Hn0) as (Hcount1 & Hn1 & Hget1);
      [lia|].
    fold c1 in Hcount1, Hn1, Hget1.
    assert (LruK.wf c1) as Hwf1 by (by apply lruk_step_wf).
    assert (LruK.k_ c1 = 2) as Hk1.
    { unfold c1. simpl. rewrite lruk_put_below; [done | done | by rewrite Hc0 | lia]. }
    unfold c2. rewrite (Hget1 t2). simpl snd.
    destruct (lruk_promote_spec t3 1 b c1 Hwf1 Hn1) as (_ & _ & _ & Hin2 & Hget2);
      [lia|].
    split; [done|]. split; [done|]. split; [done|]. apply Hget2.
Qed.

Lemma lruk_promotion_at_kth_access_witness :
  let c0 : LruK.LruKCache Z string := LruK.mkLruKCache 3 2 ∅ ∅ in
  let c1 := LruK.step 10 (Put 1 "a"%string) c0 in
  let c2 := LruK.step 30 (Put 1 "b"%string) (snd (LruK.get 20 1 c1)) in
  LruK.construct 3 2 = inr c0 ∧
  LruK.contains 1 c1 = false ∧ fst (LruK.get 20 1 c1) = inl out_of_range ∧
  LruK.contains 1 c2 = true ∧ fst (LruK.get 40 1 c2) = inr "b"%string.
Proof.
  split; [reflexivity|].
  exact (proj2 lruk_promotion_at_kth_access 3 10 20 30 40
           "a"%string "b"%string _ eq_refl).
Defined.

(** C1, where the code departs from it.  [size() <= capacity()] is expected
    of every engine after every call; the LRU-K engine with capacity 1 and
    K = 2 holds two promoted keys after [put(1), put(1), put(2), put(3),
    put(3)]: the promotion of key 3 finds the cache table full, picks the
    history record of key 2 as the victim, and so frees no cache slot. *)
Theorem lruk_size_exceeds_capacity :
  let c0 : LruK.LruKCache Z string := LruK.mkLruKCache 1 2 ∅ ∅ in
  let c := LruK.run [(1, Put 1 "a"%string); (2, Put 1 "a"%string);
                     (3, Put 2 "b"%string); (4, Put 3 "c"%string)] c0 in
  LruK.construct 1 2 = inr c0 ∧
  LruK.size c = 1 ∧
  LruK.findVictimKey (LruK.recordHistoryAccess 5 3 c) = inr 2 ∧
  LruK.contains 2 c = false ∧
  LruK.size (LruK.step 5 (Put 3 "c"%string) c) = 2 ∧
  LruK.capacity (LruK.step 5 (Put 3 "c"%string) c) = 1 ∧
  LruK.contains 1 (LruK.step 5 (Put 3 "c"%string) c) = true ∧
  LruK.contains 3 (LruK.step 5 (Put 3 "c"%string) c) = true.
Proof. by vm_compute. Qed.

(** C2, where the code departs from it.  Among promoted records the victim
    is expected to be the one whose oldest queued timestamp is the earliest.
    With capacity 2 and K = 2, key 1 is accessed at times 1, 2 and 5 and key 2
    at times 3 and 4, so their queues are [2; 5] and [3; 4]; no history
    record is below K when key 3 is promoted at time 7.  The oldest queued
    timestamp is earliest for key 1, yet [findVictimKey] compares the newest
    ones ([back()]), returns key 2, and [put] evicts key 2. *)
Theorem lruk_victim_by_newest_timestamp :
  let c0 : LruK.LruKCache Z string := LruK.mkLruKCache 2 2 ∅ ∅ in
  let c := LruK.run [(1, Put 1 "a"%string); (2, Put 1 "a"%string);
                     (3, Put 2 "b"%string); (4, Put 2 "b"%string);
                     (5, Get 1); (6, Put 3 "c"%string)] c0 in
  let c1 := LruK.recordHistoryAccess 7 3 c in
  LruK.construct 2 2 = inr c0 ∧
  LruK.cache_ c1 !! 1 = Some (LruK.mkCacheRecord "a"%string [2; 5]) ∧
  LruK.cache_ c1 !! 2 = Some (LruK.mkCacheRecord "b"%string [3; 4]) ∧
  LruK.size c1 = 2 ∧
  map_to_list (LruK.history_ c1) = [(3, [6; 7])] ∧
  LruK.findVictimKey c1 = inr 2 ∧
  LruK.contains 2 (LruK.step 7 (Put 3 "c"%string) c) = false ∧
  LruK.contains 1 (LruK.step 7 (Put 3 "c"%string) c) = true ∧
  LruK.contains 3 (LruK.step 7 (Put 3 "c"%string) c) = true.
Proof. by vm_compute. Qed.

(** What does hold of [size()]: in the FIFO, LRU and LFU engines it is the
    number of keys of the index and never exceeds the capacity. *)
Lemma size_within_capacity
    (Key : Type) `{Countable Key} (Value : Type) (capacity : Z) :
  (∀ (c0 : Fifo.FifoCache Key Value) ops,
     Fifo.construct capacity = inr c0 →
     Fifo.size (Fifo.run ops c0) = Z.of_nat (base.size (Fifo.cache_ (Fifo.run ops c0))) ∧
     Fifo.size (Fifo.run ops c0) <= Fifo.capacity (Fifo.run ops c0)) ∧
  (∀ (c0 : Lru.LruCache Key Value) ops,
     Lru.construct capacity = inr c0 →
     Lru.size (Lru.run ops c0) = Z.of_nat (base.size (Lru.cache_ (Lru.run ops c0))) ∧
     Lru.size (Lru.run ops c0) <= Lru.capacity (Lru.run ops c0)) ∧
  (∀ (c0 : Lfu.LfuCache Key Value) ops,
     Lfu.construct capacity = inr c0 →
     Lfu.size (Lfu.run ops c0) = Z.of_nat (base.size (Lfu.cache_ (Lfu.run ops c0))) ∧
     Lfu.size (Lfu.run ops c0) <= Lfu.capacity (Lfu.run ops c0)).
Proof.
  split; [|split]; intros c0 ops Hc.
  - destruct (fifo_reachable_wf capacity c0 ops Hc) as [_ Hs _ Hb]. done.
  - destruct (lru_reachable_wf capacity c0 ops Hc) as [_ Hs _ Hb]. done.
  - destruct (lfu_reachable_wf capacity c0 ops Hc) as [_ Hb _ _ _]. done.
Qed.

(** ** Every engine: a failed [get] changes nothing *)

(** C9. In every engine [get] on a key with no visible entry fails with
    [out_of_range] and returns the engine exactly as it was: the index, the
    ordering structure, the frequencies, the history and the cache tables.
    In LRU-K this covers a key that is absent and a key that has a history
    record only. *)
Theorem get_not_found_leaves_state :
  ∀ (Key : Type) (EqK : EqDecision Key) (CntK : Countable Key) (Value : Type),
    (∀ (c : Fifo.FifoCache Key Value) key,
       Fifo.contains key c = false → Fifo.get key c = (inl out_of_range, c)) ∧
    (∀ (c : Lru.LruCache Key Value) key,
       Lru.contains key c = false → Lru.get key c = (inl out_of_range, c)) ∧
    (∀ (c : Lfu.LfuCache Key Value) key,
       Lfu.contains key c = false → Lfu.get key c = (inl out_of_range, c)) ∧
    (∀ (c : LruK.LruKCache Key Value) key now,
       LruK.contains key c = false → LruK.get now key c = (inl out_of_range, c)) ∧
    (∀ capacity k (c0 : LruK.LruKCache Key Value) ops key now,
       LruK.construct capacity k = inr c0 →
       is_Some (LruK.history_ (LruK.run ops c0) !! key) →
       LruK.contains key (LruK.run ops c0) = false ∧
       LruK.get now key (LruK.run ops c0) = (inl out_of_range, LruK.run ops c0)).
Proof.
  intros Key EqK CntK Value. split; [|split; [|split; [|split]]].
  - intros c key Hk%fifo_contains_false. unfold Fifo.get. by rewrite Hk.
  - intros c key Hk%lru_contains_false. by apply lru_get_missing.
  - intros c key Hk%lfu_contains_false. by apply lfu_get_missing.
  - intros c key now Hk%lruk_contains_false. by apply lruk_get_missing.
  - intros capacity k c0 ops key now Hc Hin.
    pose proof (lruk_reachable_wf capacity k c0 ops Hc) as Hwf.
    by destruct (lruk_history_invisible now key _ Hwf Hin) as (_ & ? & ?).
Qed.

Lemma get_not_found_leaves_state_witness :
  let c : Lru.LruCache Z string := Lru.mkLruCache 2 1 {[1 := "a"%string]} [1] in
  let h : LruK.LruKCache Z string := LruK.mkLruKCache 3 2 ∅ ∅ in
  Lru.contains 7 c = false ∧ Lru.get 7 c = (inl out_of_range, c) ∧
  LruK.construct 3 2 = inr h ∧
  is_Some (LruK.history_ (LruK.run [(10, Put 1 "a"%string)] h) !! 1) ∧
  LruK.get 20 1 (LruK.run [(10, Put 1 "a"%string)] h) =
    (inl out_of_range, LruK.run [(10, Put 1 "a"%string)] h).
Proof.
  intros c h.
  assert (is_Some (LruK.history_ (LruK.run [(10, Put 1 "a"%string)] h) !! 1))
    as Hin.
  { apply (bool_decide_unpack _). by vm_compute. }
  split; [reflexivity|]. split.
  - exact (proj1 (proj2 (get_not_found_leaves_state Z _ _ string)) c 7 eq_refl).
  - split; [reflexivity|]. split; [exact Hin|].
    exact (proj2 (proj2 (proj2 (proj2 (proj2
             (get_not_found_leaves_state Z _ _ string))))
             3 2 h [(10, Put 1 "a"%string)] 1 20 eq_refl Hin)).
Defined.

(** ** Every engine: the stored value stays until it is replaced *)

Section ValueStable.
Context {Key : Type} `{Countable Key} {Value : Type}.
Implicit Types (key k : Key) (v w : Value).

(** A call other than a [put] on [key] never changes the value held for
    [key]: if the key is still indexed afterwards, it was indexed before with
    the same value. *)
Lemma fifo_step_value (o : op Key Value) (c : Fifo.FifoCache Key Value) key w :
  (∀ v', o ≠ Put key v') →
  Fifo.cache_ (Fifo.step o c) !! key = Some w → Fifo.cache_ c !! key = Some w.
Proof.
  intros Hnot. destruct o as [k|k v|k|]; simpl.
  - by rewrite fifo_get_state.
  - assert (k ≠ key) as Hne by (intros ->; by eapply Hnot).
    unfold Fifo.put. destruct (Fifo.cache_ c !! k); simpl.
    + by rewrite lookup_insert_ne.
    + rewrite lookup_insert_ne by done.
      destruct (Fifo.size_ c >=? Fifo.capacity_ c); [|done].
      unfold Fifo.evict. destruct (Fifo.queue c); simpl; [done|].
      by intros [_ ?]%lookup_delete_Some.
  - done.
  - by rewrite lookup_empty.
Qed.

Lemma fifo_run_value ops (c : Fifo.FifoCache Key Value) key w :
  (∀ v', Put key v' ∉ ops) →
  Fifo.cache_ (Fifo.run ops c) !! key = Some w → Fifo.cache_ c !! key = Some w.
Proof.
  revert c. induction ops as [|o rest IH]; intros c Hnot; simpl; [done|].
  intros Hw. apply (fifo_step_value o); [|apply IH; [|done]].
  - intros v' ->. apply (Hnot v'). by left.
  - intros v' Hin. apply (Hnot v'). by right.
Qed.

Lemma lru_step_value (o : op Key Value) (c : Lru.LruCache Key Value) key w :
  (∀ v', o ≠ Put key v') →
  Lru.cache_ (Lru.step o c) !! key = Some w → Lru.cache_ c !! key = Some w.
Proof.
  intros Hnot. destruct o as [k|k v|k|]; simpl.
  - unfold Lru.get. by destruct (Lru.cache_ c !! k).
  - assert (k ≠ key) as Hne by (intros ->; by eapply Hnot).
    unfold Lru.put. destruct (Lru.cache_ c !! k); simpl.
    + by rewrite lookup_insert_ne.
    + unfold mbind, M_bind, mret, M_ret, Lru.evict, Lru.insert.
      destruct (Lru.size_ c >=? Lru.capacity_ c); simpl.
      * destruct (Lru.removeTail (Lru.chain c)) as [[t rest]|]; simpl; [|done].
        rewrite lookup_insert_ne by done. by intros [_ ?]%lookup_delete_Some.
      * by rewrite lookup_insert_ne.
  - done.
  - by rewrite lookup_empty.
Qed.

Lemma lru_run_value ops (c : Lru.LruCache Key Value) key w :
  (∀ v', Put key v' ∉ ops) →
  Lru.cache_ (Lru.run ops c) !! key = Some w → Lru.cache_ c !! key = Some w.
Proof.
  revert c. induction ops as [|o rest IH]; intros c Hnot; simpl; [done|].
  intros Hw. apply (lru_step_value o); [|apply IH; [|done]].
  - intros v' ->. apply (Hnot v'). by left.
  - intros v' Hin. apply (Hnot v'). by right.
Qed.

Lemma lfu_evict_cache (c : Lfu.LfuCache Key Value) key n :
  Lfu.cache_ (Lfu.evict c) !! key = Some n → Lfu.cache_ c !! key = Some n.
Proof.
  unfold Lfu.evict, Lfu.evictLFU, Lfu.FrequencyBucket.removeTail.
  destruct (Lfu.frequency_buckets_ c !! Lfu.min_frequency_ c) as [b|]; [|done].
  destruct (Lfu.FrequencyBucket.empty b); [done|].
  destruct (Lfu.FrequencyBucket.size b =? 0); [done|].
  destruct (last (Lfu.FrequencyBucket.nodes b)); simpl; [|done].
  by intros [_ ?]%lookup_delete_Some.
Qed.

Lemma lfu_step_value (o : op Key Value) (c : Lfu.LfuCache Key Value) key w :
  (∀ v', o ≠ Put key v') →
  Lfu.value <$> Lfu.cache_ (Lfu.step o c) !! key = Some w →
  Lfu.value <$> Lfu.cache_ c !! key = Some w.
Proof.
  intros Hnot. destruct o as [k|k v|k|]; simpl.
  - unfold Lfu.get. destruct (Lfu.cache_ c !! k) as [n|] eqn:Hk; simpl; [|done].
    rewrite (lfu_updateFrequency_cache k n) by done.
    destruct (decide (key = k)) as [->|Hne].
    + rewrite lookup_insert_eq, Hk. done.
    + by rewrite lookup_insert_ne.
  - assert (k ≠ key) as Hne by (intros ->; by eapply Hnot).
    unfold Lfu.put. destruct (Lfu.capacity_ c =? 0); [done|].
    destruct (Lfu.cache_ c !! k) as [n|] eqn:Hk; simpl.
    + rewrite (lfu_updateFrequency_cache k (Lfu.mkCacheNode v (Lfu.frequency n)))
        by (simpl; apply lookup_insert_eq).
      simpl. by rewrite !lookup_insert_ne.
    + rewrite lookup_insert_ne by done.
      destruct (Z.of_nat (base.size (Lfu.cache_ c)) >=? Lfu.capacity_ c); [|done].
      destruct (Lfu.cache_ (Lfu.evict c) !! key) as [n|] eqn:Hn; [|done].
      by rewrite (lfu_evict_cache c key n).
  - done.
  - by rewrite lookup_empty.
Qed.

Lemma lfu_run_value ops (c : Lfu.LfuCache Key Value) key w :
  (∀ v', Put key v' ∉ ops) →
  Lfu.value <$> Lfu.cache_ (Lfu.run ops c) !! key = Some w →
  Lfu.value <$> Lfu.cache_ c !! key = Some w.
Proof.
  revert c. induction ops as [|o rest IH]; intros c Hnot; simpl; [done|].
  intros Hw. apply (lfu_step_value o); [|apply IH; [|done]].
  - intros v' ->. apply (Hnot v'). by left.
  - intros v' Hin. apply (Hnot v'). by right.
Qed.

Lemma lruk_evict_cache (c : LruK.LruKCache Key Value) key r :
  LruK.cache_ (snd (LruK.evict c)) !! key = Some r →
  LruK.cache_ c !! key = Some r.
Proof.
  unfold LruK.evict. destruct (LruK.findVictimKey c) as [e|victim]; [done|].
  destruct (LruK.cache_ c !! victim); simpl; [|done].
  by intros [_ ?]%lookup_delete_Some.
Qed.

Lemma lruk_step_value now (o : op Key Value) (c : LruK.LruKCache Key Value) key w :
  (∀ v', o ≠ Put key v') →
  LruK.value <$> LruK.cache_ (LruK.step now o c) !! key = Some w →
  LruK.value <$> LruK.cache_ c !! key = Some w.
Proof.
  intros Hnot. destruct o as [k|k v|k|]; simpl.
  - unfold LruK.get. destruct (LruK.cache_ c !! k) as [r|] eqn:Hk; simpl; [|done].
    destruct (decide (key = k)) as [->|Hne].
    + rewrite lookup_insert_eq, Hk. done.
    + by rewrite lookup_insert_ne.
  - assert (k ≠ key) as Hne by (intros ->; by eapply Hnot).
    unfold LruK.put. destruct (LruK.cache_ c !! k) as [r|] eqn:Hk.
    { simpl. by rewrite lookup_insert_ne. }
    remember (LruK.recordHistoryAccess now k c) as c1 eqn:Ec1.
    assert (LruK.cache_ c1 = LruK.cache_ c) as Hc1 by (by subst c1).
    destruct (LruK.reachedK k c1); [|simpl; by rewrite Hc1].
    unfold mbind, M_bind.
    assert (∀ c2, (∀ r, LruK.cache_ c2 !! key = Some r → LruK.cache_ c !! key = Some r) →
              LruK.value <$> LruK.cache_ (snd (LruK.promoteToCache k v c2)) !! key = Some w →
              LruK.value <$> LruK.cache_ c !! key = Some w) as Hpromote.
    { intros c2 Hsub. unfold LruK.promoteToCache.
      destruct (LruK.history_ c2 !! k); simpl;
        rewrite ?lookup_insert_ne by done;
        (destruct (LruK.cache_ c2 !! key) as [r|] eqn:Hr; [|done]);
        by rewrite (Hsub r). }
    destruct (Z.of_nat (base.size (LruK.cache_ c1)) >=? LruK.capacity_ c1).
    + pose proof (lruk_evict_cache c1 key) as Hev.
      destruct (LruK.evict c1) as [[e|[]] c2]; simpl in *.
      * destruct (LruK.cache_ c2 !! key) as [r|] eqn:Hr; [|done].
        rewrite <- Hc1. by rewrite (Hev r).
      * apply Hpromote. intros r Hr. rewrite <- Hc1. by apply Hev.
    + unfold mret, M_ret. apply Hpromote. intros r. by rewrite Hc1.
  - done.
  - by rewrite lookup_empty.
Qed.

Lemma lruk_run_value ops (c : LruK.LruKCache Key Value) key w :
  (∀ now' v', (now', Put key v') ∉ ops) →
  LruK.value <$> LruK.cache_ (LruK.run ops c) !! key = Some w →
  LruK.value <$> LruK.cache_ c !! key = Some w.
Proof.
  revert c. induction ops as [|[now o] rest IH]; intros c Hnot; simpl; [done|].
  intros Hw. apply (lruk_step_value now o); [|apply IH; [|done]].
  - intros v' ->. apply (Hnot now v'). by left.
  - intros now' v' Hin. apply (Hnot now' v'). by right.
Qed.

(** Right after [put(key, v)] a visible [key] holds [v]. *)
Lemma lruk_put_value now key v (c : LruK.LruKCache Key Value) :
  LruK.wf c → LruK.contains key (LruK.step now (Put key v) c) = true →
  LruK.value <$> LruK.cache_ (LruK.step now (Put key v) c) !! key = Some v.
Proof.
  intros Hwf. simpl. destruct (LruK.cache_ c !! key) as [r|] eqn:Hk.
  - rewrite (lruk_put_existing now key r) by done. simpl.
    by rewrite lookup_insert_eq.
  - destruct (Z.lt_ge_cases (LruK.getHistoryAccessCount key c + 1) (LruK.k_ c))
      as [Hbelow|Hreach].
    + rewrite lruk_put_below by done. simpl.
      intros [? ?]%lruk_contains_true. simpl in *. congruence.
    + destruct (lruk_put_promote now key v c Hwf Hk Hreach)
        as (history2 & cache2 & -> & _).
      simpl. by rewrite lookup_insert_eq.
Qed.

End ValueStable.

Section PutValue.
Context {Key : Type} `{Countable Key} {Value : Type}.
Implicit Types (key k : Key) (v w : Value).

Lemma fifo_put_value key v (c : Fifo.FifoCache Key Value) :
  Fifo.cache_ (Fifo.step (Put key v) c) !! key = Some v.
Proof.
  simpl. unfold Fifo.put.
  destruct (Fifo.cache_ c !! key); simpl; apply lookup_insert_eq.
Qed.

Lemma lru_put_value key v (c : Lru.LruCache Key Value) :
  Lru.wf c → Lru.cache_ (Lru.step (Put key v) c) !! key = Some v.
Proof.
  intros Hwf. simpl. destruct (Lru.cache_ c !! key) as [old|] eqn:Hk.
  - rewrite lru_put_existing by (by eexists). apply lookup_insert_eq.
  - destruct (Z.lt_ge_cases (Lru.size_ c) (Lru.capacity_ c)) as [Hroom|Hfull].
    + rewrite lru_put_room by done. apply lookup_insert_eq.
    + pose proof (Lru.wf_bound _ Hwf).
      destruct (lru_put_full key v c Hwf Hk) as (t & rest & _ & _ & ->); [lia|].
      apply lookup_insert_eq.
Qed.

Lemma lfu_put_value key v (c : Lfu.LfuCache Key Value) :
  Lfu.wf c → Lfu.value <$> Lfu.cache_ (Lfu.step (Put key v) c) !! key = Some v.
Proof.
  intros Hwf. simpl. destruct (Lfu.cache_ c !! key) as [n|] eqn:Hk.
  - rewrite (lfu_put_existing key n) by done. simpl.
    rewrite (lfu_updateFrequency_cache key (Lfu.mkCacheNode v (Lfu.frequency n)))
      by (simpl; apply lookup_insert_eq).
    by rewrite lookup_insert_eq.
  - rewrite lfu_put_new by done. simpl. by rewrite lookup_insert_eq.
Qed.

End PutValue.

(** C8 as it is stated fails in the LRU-K engine: with capacity 3 and K = 2,
    [put(1, a)] on a new engine stores no value, and the [get(1)] that
    follows fails although nothing was evicted, the cache table being empty
    all along. *)
Lemma lruk_put_then_get_fails :
  let c0 : LruK.LruKCache Z string := LruK.mkLruKCache 3 2 ∅ ∅ in
  let c := LruK.step 1 (Put 1 "a"%string) c0 in
  LruK.construct 3 2 = inr c0 ∧
  LruK.cache_ c0 = ∅ ∧ LruK.cache_ c = ∅ ∧
  LruK.get 2 1 c = (inl out_of_range, c) ∧
  fst (LruK.get 2 1 c) ≠ inr "a"%string.
Proof.
  split; [reflexivity|]. split; [reflexivity|]. split; [reflexivity|].
  split; [reflexivity|]. by vm_compute.
Qed.

(** C8, amended.  In the FIFO, LRU and LFU engines [put(key, v)] leaves the
    key visible, and in the LRU-K engine it does so when the key was promoted
    before or is promoted by this [put].  From there on, through any calls
    that do not [put] on the key again, [get(key)] returns [v] for as long as
    the key is still visible, that is as long as it has not been evicted (or
    cleared). *)
Theorem put_get_roundtrip :
  ∀ (Key : Type) (EqK : EqDecision Key) (CntK : Countable Key) (Value : Type)
    (key : Key) (v : Value),
    (∀ capacity (c0 : Fifo.FifoCache Key Value) ops ops',
       Fifo.construct capacity = inr c0 →
       (∀ v', Put key v' ∉ ops') →
       let c1 := Fifo.step (Put key v) (Fifo.run ops c0) in
       Fifo.contains key c1 = true ∧
       (Fifo.contains key (Fifo.run ops' c1) = true →
        fst (Fifo.get key (Fifo.run ops' c1)) = inr v)) ∧
    (∀ capacity (c0 : Lru.LruCache Key Value) ops ops',
       Lru.construct capacity = inr c0 →
       (∀ v', Put key v' ∉ ops') →
       let c1 := Lru.step (Put key v) (Lru.run ops c0) in
       Lru.contains key c1 = true ∧
       (Lru.contains key (Lru.run ops' c1) = true →
        fst (Lru.get key (Lru.run ops' c1)) = inr v)) ∧
    (∀ capacity (c0 : Lfu.LfuCache Key Value) ops ops',
       Lfu.construct capacity = inr c0 →
       (∀ v', Put key v' ∉ ops') →
       let c1 := Lfu.step (Put key v) (Lfu.run ops c0) in
       Lfu.contains key c1 = true ∧
       (Lfu.contains key (Lfu.run ops' c1) = true →
        fst (Lfu.get key (Lfu.run ops' c1)) = inr v)) ∧
    (∀ capacity k (c0 : LruK.LruKCache Key Value) ops now ops',
       LruK.construct capacity k = inr c0 →
       (∀ now' v', (now', Put key v') ∉ ops') →
       let c1 := LruK.step now (Put key v) (LruK.run ops c0) in
       LruK.contains key c1 = true →
       LruK.contains key (LruK.run ops' c1) = true →
       ∀ now', fst (LruK.get now' key (LruK.run ops' c1)) = inr v).
Proof.
  intros Key EqK CntK Value key v. split; [|split; [|split]].
  - intros capacity c0 ops ops' Hc Hnot c1.
    pose proof (fifo_put_value key v (Fifo.run ops c0)) as Hv. fold c1 in Hv.
    split; [apply fifo_contains_true; by eexists|].
    intros [w Hw]%fifo_contains_true.
    pose proof (fifo_run_value ops' c1 key w Hnot Hw) as Hw1.
    unfold Fifo.get. rewrite Hw. simpl. congruence.
  - intros capacity c0 ops ops' Hc Hnot c1.
    pose proof (lru_put_value key v _ (lru_reachable_wf capacity c0 ops Hc)) as Hv.
    fold c1 in Hv. split; [apply lru_contains_true; by eexists|].
    intros [w Hw]%lru_contains_true.
    pose proof (lru_run_value ops' c1 key w Hnot Hw) as Hw1.
    unfold Lru.get. rewrite Hw. simpl. congruence.
  - intros capacity c0 ops ops' Hc Hnot c1.
    pose proof (lfu_put_value key v _ (lfu_reachable_wf capacity c0 ops Hc)) as Hv.
    fold c1 in Hv. split.
    { apply lfu_contains_true. destruct (Lfu.cache_ c1 !! key); [by eexists|done]. }
    intros [n Hn]%lfu_contains_true.
    assert (Lfu.value <$> Lfu.cache_ (Lfu.run ops' c1) !! key = Some (Lfu.value n))
      as Hw by (by rewrite Hn).
    pose proof (lfu_run_value ops' c1 key _ Hnot Hw) as Hw1.
    unfold Lfu.get. rewrite Hn. simpl. congruence.
  - intros capacity k c0 ops now ops' Hc Hnot c1 Hin1 [r Hr]%lruk_contains_true now'.
    pose proof (lruk_put_value now key v _
                  (lruk_reachable_wf capacity k c0 ops Hc) Hin1) as Hv.
    fold c1 in Hv.
    assert (LruK.value <$> LruK.cache_ (LruK.run ops' c1) !! key = Some (LruK.value r))
      as Hw by (by rewrite Hr).
    pose proof (lruk_run_value ops' c1 key _ Hnot Hw) as Hw1.
    unfold LruK.get. rewrite Hr. simpl. congruence.
Qed.

Lemma put_get_roundtrip_witness :
  let c0 : Lru.LruCache Z string := Lru.mkLruCache 3 0 ∅ [] in
  let c1 := Lru.step (Put 1 "a"%string) (Lru.run [Put 5 "e"%string] c0) in
  let h0 : LruK.LruKCache Z string := LruK.mkLruKCache 2 2 ∅ ∅ in
  let h1 := LruK.step 20 (Put 1 "b"%string) (LruK.run [(10, Put 1 "a"%string)] h0) in
  Lru.construct 3 = inr c0 ∧
  (∀ v', Put 1 v' ∉ [Get 5; Put 6 "f"%string]) ∧
  Lru.contains 1 (Lru.run [Get 5; Put 6 "f"%string] c1) = true ∧
  fst (Lru.get 1 (Lru.run [Get 5; Put 6 "f"%string] c1)) = inr "a"%string ∧
  LruK.construct 2 2 = inr h0 ∧ LruK.contains 1 h1 = true ∧
  fst (LruK.get 40 1 (LruK.run [(30, Get 1)] h1)) = inr "b"%string.
Proof.
  intros c0 c1 h0 h1.
  assert (∀ v' : string, Put 1 v' ∉ [Get 5; Put 6 "f"%string]) as Hnot.
  { intros v' Hin. apply elem_of_cons in Hin as [?|Hin]; [done|].
    apply elem_of_cons in Hin as [?|Hin]; [done|]. by apply elem_of_nil in Hin. }
  assert (∀ (now' : Z) (v' : string), (now', Put 1 v') ∉ [(30, Get (Value := string) 1)])
    as Hnot'.
  { intros now' v' Hin. apply elem_of_cons in Hin as [?|Hin]; [done|].
    by apply elem_of_nil in Hin. }
  split; [reflexivity|]. split; [exact Hnot|].
  split; [reflexivity|]. split.
  - exact (proj2 (proj1 (proj2 (put_get_roundtrip Z _ _ string 1 "a"%string))
                    3 c0 [Put 5 "e"%string] [Get 5; Put 6 "f"%string]
                    eq_refl Hnot) eq_refl).
  - split; [reflexivity|]. split; [reflexivity|].
    exact (proj2 (proj2 (proj2 (put_get_roundtrip Z _ _ string 1 "b"%string)))
             2 2 h0 [(10, Put 1 "a"%string)] 20 [(30, Get 1)]
             eq_refl Hnot' eq_refl eq_refl 40).
Defined.

(** * Further properties of the engines *)

(** ** The parameters of an engine never change *)

Section Parameters.
Context {Key : Type} `{Countable Key} {Value : Type}.

Lemma fifo_step_capacity (o : op Key Value) (c : Fifo.FifoCache Key Value) :
  Fifo.capacity_ (Fifo.step o c) = Fifo.capacity_ c.
Proof.
  destruct o as [k|k v|k|]; simpl; [by rewrite fifo_get_state | | done | done].
  unfold Fifo.put. destruct (Fifo.cache_ c !! k); simpl; [done|].
  destruct (Fifo.size_ c >=? Fifo.capacity_ c); [|done].
  unfold Fifo.evict. by destruct (Fifo.queue c).
Qed.

Lemma fifo_run_capacity ops (c : Fifo.FifoCache Key Value) :
  Fifo.capacity_ (Fifo.run ops c) = Fifo.capacity_ c.
Proof.
  revert c. induction ops as [|o rest IH]; intros c; simpl; [done|].
  by rewrite IH, fifo_step_capacity.
Qed.

Lemma lru_step_capacity (o : op Key Value) (c : Lru.LruCache Key Value) :
  Lru.capacity_ (Lru.step o c) = Lru.capacity_ c.
Proof.
  destruct o as [k|k v|k|]; simpl; [| | done | done].
  - unfold Lru.get. by destruct (Lru.cache_ c !! k).
  - unfold Lru.put. destruct (Lru.cache_ c !! k); simpl; [done|].
    unfold mbind, M_bind, mret, M_ret, Lru.evict, Lru.insert.
    destruct (Lru.size_ c >=? Lru.capacity_ c); simpl; [|done].
    by destruct (Lru.removeTail (Lru.chain c)) as [[t rest]|].
Qed.

Lemma lru_run_capacity ops (c : Lru.LruCache Key Value) :
  Lru.capacity_ (Lru.run ops c) = Lru.capacity_ c.
Proof.
  revert c. induction ops as [|o rest IH]; intros c; simpl; [done|].
  by rewrite IH, lru_step_capacity.
Qed.

Lemma lfu_evict_capacity (c : Lfu.LfuCache Key Value) :
  Lfu.capacity_ (Lfu.evict c) = Lfu.capacity_ c.
Proof.
  unfold Lfu.evict, Lfu.evictLFU, Lfu.FrequencyBucket.removeTail.
  destruct (Lfu.frequency_buckets_ c !! Lfu.min_frequency_ c) as [b|]; [|done].
  destruct (Lfu.FrequencyBucket.empty b); [done|].
  destruct (Lfu.FrequencyBucket.size b =? 0); [done|].
  by destruct (last (Lfu.FrequencyBucket.nodes b)).
Qed.

Lemma lfu_step_capacity (o : op Key Value) (c : Lfu.LfuCache Key Value) :
  Lfu.capacity_ (Lfu.step o c) = Lfu.capacity_ c.
Proof.
  destruct o as [k|k v|k|]; simpl; [| | done | done].
  - unfold Lfu.get. destruct (Lfu.cache_ c !! k); simpl; [|done].
    apply lfu_updateFrequency_capacity.
  - unfold Lfu.put. destruct (Lfu.capacity_ c =? 0); [done|].
    destruct (Lfu.cache_ c !! k); simpl.
    + by rewrite lfu_updateFrequency_capacity.
    + destruct (Z.of_nat (base.size (Lfu.cache_ c)) >=? Lfu.capacity_ c); [|done].
      apply lfu_evict_capacity.
Qed.

Lemma lfu_run_capacity ops (c : Lfu.LfuCache Key Value) :
  Lfu.capacity_ (Lfu.run ops c) = Lfu.capacity_ c.
Proof.
  revert c. induction ops as [|o rest IH]; intros c; simpl; [done|].
  by rewrite IH, lfu_step_capacity.
Qed.

Lemma lruk_step_parameters now (o : op Key Value) (c : LruK.LruKCache Key Value) :
  LruK.capacity_ (LruK.step now o c) = LruK.capacity_ c ∧
  LruK.k_ (LruK.step now o c) = LruK.k_ c.
Proof.
  destruct o as [k|k v|k|]; simpl; [| | done | done].
  - unfold LruK.get. by destruct (LruK.cache_ c !! k).
  - unfold LruK.put. destruct (LruK.cache_ c !! k); [done|].
    remember (LruK.recordHistoryAccess now k c) as c1 eqn:Ec1.
    assert (LruK.capacity_ c1 = LruK.capacity_ c ∧ LruK.k_ c1 = LruK.k_ c)
      as [Hcap Hk] by (by subst c1).
    destruct (LruK.reachedK k c1); [|done].
    unfold mbind, M_bind, mret, M_ret, LruK.evict, LruK.promoteToCache.
    destruct (Z.of_nat (base.size (LruK.cache_ c1)) >=? LruK.capacity_ c1).
    + destruct (LruK.findVictimKey c1) as [e|victim]; [done|].
      destruct (LruK.cache_ c1 !! victim); simpl.
      * by destruct (LruK.history_ c1 !! k).
      * by destruct (delete victim (LruK.history_ c1) !! k).
    + by destruct (LruK.history_ c1 !! k).
Qed.

Lemma lruk_run_parameters ops (c : LruK.LruKCache Key Value) :
  LruK.capacity_ (LruK.run ops c) = LruK.capacity_ c ∧
  LruK.k_ (LruK.run ops c) = LruK.k_ c.
Proof.
  revert c. induction ops as [|[now o] rest IH]; intros c; simpl; [done|].
  destruct (IH (LruK.step now o c)) as [-> ->]. apply lruk_step_parameters.
Qed.

End Parameters.

(** X2. No call changes the capacity (or K), and [clear] returns an engine,
    whatever it has been through, to the very state its constructor built:
    no key, size 0, [min_frequency_] 1, no history. *)
Theorem clear_restores_new_engine :
  ∀ (Key : Type) (EqK : EqDecision Key) (CntK : Countable Key) (Value : Type)
    (capacity k : Z),
    (∀ (c0 : Fifo.FifoCache Key Value) ops,
       Fifo.construct capacity = inr c0 →
       Fifo.capacity (Fifo.run ops c0) = capacity ∧
       Fifo.clear (Fifo.run ops c0) = (inr tt, c0)) ∧
    (∀ (c0 : Lru.LruCache Key Value) ops,
       Lru.construct capacity = inr c0 →
       Lru.capacity (Lru.run ops c0) = capacity ∧
       Lru.clear (Lru.run ops c0) = (inr tt, c0)) ∧
    (∀ (c0 : Lfu.LfuCache Key Value) ops,
       Lfu.construct capacity = inr c0 →
       Lfu.capacity (Lfu.run ops c0) = capacity ∧
       Lfu.clear (Lfu.run ops c0) = (inr tt, c0)) ∧
    (∀ (c0 : LruK.LruKCache Key Value) ops,
       LruK.construct capacity k = inr c0 →
       LruK.capacity (LruK.run ops c0) = capacity ∧
       LruK.getK (LruK.run ops c0) = k ∧
       LruK.clear (LruK.run ops c0) = (inr tt, c0)).
Proof.
  intros Key EqK CntK Value capacity k. split; [|split; [|split]].
  - intros c0 ops Hc. unfold Fifo.construct in Hc.
    destruct (capacity <=? 0); [done|]. injection Hc as <-.
    unfold Fifo.capacity, Fifo.clear. by rewrite fifo_run_capacity.
  - intros c0 ops Hc. unfold Lru.construct in Hc.
    destruct (capacity <=? 0); [done|]. injection Hc as <-.
    unfold Lru.capacity, Lru.clear. by rewrite lru_run_capacity.
  - intros c0 ops Hc. unfold Lfu.construct in Hc.
    destruct (capacity <=? 0); [done|]. injection Hc as <-.
    unfold Lfu.capacity, Lfu.clear. by rewrite lfu_run_capacity.
  - intros c0 ops Hc. unfold LruK.construct in Hc.
    destruct (capacity <=? 0); [done|]. destruct (k <=? 0); [done|].
    injection Hc as <-. unfold LruK.capacity, LruK.getK, LruK.clear.
    by destruct (lruk_run_parameters ops
                   (LruK.mkLruKCache (Key := Key) (Value := Value) capacity k ∅ ∅))
      as [-> ->].
Qed.

Lemma clear_restores_new_engine_witness :
  let c0 : Lfu.LfuCache Z string := Lfu.mkLfuCache 2 1 ∅ ∅ in
  let ops := [Put 1 "a"%string; Get 1; Put 2 "b"%string; Put 3 "c"%string] in
  Lfu.construct 2 = inr c0 ∧
  Lfu.min_frequency_ (Lfu.run ops c0) = 1 ∧
  Lfu.size (Lfu.run ops c0) = 2 ∧
  Lfu.clear (Lfu.run ops c0) = (inr tt, c0).
Proof.
  intros c0 ops. split; [reflexivity|]. split; [reflexivity|].
  split; [reflexivity|].
  exact (proj2 (proj1 (proj2 (proj2 (clear_restores_new_engine Z _ _ string 2 2)))
                  c0 ops eq_refl)).
Defined.

(** ** The index and the ordering structure agree *)

(** X3. In the FIFO and LRU engines, after any calls, the list (queue or
    recency chain) holds exactly the keys of the index, each once, and
    [size()] is its length. *)
Theorem index_and_list_agree :
  ∀ (Key : Type) (EqK : EqDecision Key) (CntK : Countable Key) (Value : Type)
    (capacity : Z),
    (∀ (c0 : Fifo.FifoCache Key Value) ops,
       Fifo.construct capacity = inr c0 →
       let c := Fifo.run ops c0 in
       NoDup (Fifo.queue c) ∧
       (∀ key, key ∈ Fifo.queue c ↔ Fifo.contains key c = true) ∧
       Fifo.size c = Z.of_nat (length (Fifo.queue c))) ∧
    (∀ (c0 : Lru.LruCache Key Value) ops,
       Lru.construct capacity = inr c0 →
       let c := Lru.run ops c0 in
       NoDup (Lru.chain c) ∧
       (∀ key, key ∈ Lru.chain c ↔ Lru.contains key c = true) ∧
       Lru.size c = Z.of_nat (length (Lru.chain c))).
Proof.
  intros Key EqK CntK Value capacity. split.
  - intros c0 ops Hc c.
    destruct (fifo_reachable_wf capacity c0 ops Hc) as [_ Hs [Hnd Hi Hl] _].
    fold c in Hs, Hnd, Hi, Hl. split; [done|]. split.
    + intros key. by rewrite fifo_contains_true.
    + unfold Fifo.size. by rewrite Hs, Hl.
  - intros c0 ops Hc c.
    destruct (lru_reachable_wf capacity c0 ops Hc) as [_ Hs [Hnd Hi Hl] _].
    fold c in Hs, Hnd, Hi, Hl. split; [done|]. split.
    + intros key. by rewrite lru_contains_true.
    + unfold Lru.size. by rewrite Hs, Hl.
Qed.

Lemma index_and_list_agree_witness :
  let c0 : Lru.LruCache Z string := Lru.mkLruCache 2 0 ∅ [] in
  let c := Lru.run [Put 1 "a"%string; Put 2 "b"%string; Get 1; Put 3 "c"%string] c0 in
  Lru.construct 2 = inr c0 ∧ Lru.chain c = [3; 1] ∧
  NoDup (Lru.chain c) ∧ Lru.size c = Z.of_nat (length (Lru.chain c)).
Proof.
  intros c0 c. split; [reflexivity|]. split; [reflexivity|].
  pose proof (proj2 (index_and_list_agree Z _ _ string 2) c0
                [Put 1 "a"%string; Put 2 "b"%string; Get 1; Put 3 "c"%string]
                eq_refl) as (Hnd & _ & Hsize).
  split; [exact Hnd | exact Hsize].
Defined.

(** X4. In the LFU engine, after any calls, a node is linked in the bucket
    of frequency [f] exactly when its key is in the index with frequency [f];
    a bucket's list has no repetition and its [size] counter is the length of
    the list.  As long as no frequency counter has been incremented past
    [INT_MAX], the frequency of a stored key is at least 1. *)
Theorem lfu_buckets_mirror_index :
  ∀ (Key : Type) (EqK : EqDecision Key) (CntK : Countable Key) (Value : Type)
    (capacity : Z) (c0 : Lfu.LfuCache Key Value) (ops : list (op Key Value)),
    Lfu.construct capacity = inr c0 →
    let c := Lfu.run ops c0 in
    (∀ key f,
       Lfu.in_bucket (Lfu.frequency_buckets_ c) f key ↔
       Lfu.contains key c = true ∧ Lfu.getFrequency key c = f) ∧
    (∀ f bucket, Lfu.frequency_buckets_ c !! f = Some bucket →
       NoDup (Lfu.FrequencyBucket.nodes bucket) ∧
       Lfu.FrequencyBucket.size bucket =
         Z.of_nat (length (Lfu.FrequencyBucket.nodes bucket)) ∧
       (Lfu.FrequencyBucket.empty bucket = true ↔
        Lfu.FrequencyBucket.nodes bucket = [])) ∧
    (Lfu.no_overflow ops c0 = true →
     ∀ key, Lfu.contains key c = true →
            1 <= Lfu.getFrequency key c <= Lfu.INT_MAX).
Proof.
  intros Key EqK CntK Value capacity c0 ops Hc c.
  destruct (lfu_reachable_wf capacity c0 ops Hc) as [_ _ [Hb Hn] _ _].
  fold c in Hb, Hn. split; [|split].
  - intros key f. rewrite Hn, lfu_contains_true. unfold Lfu.getFrequency. split.
    + intros (n & Hk & Hf). rewrite Hk. split; [by eexists | done].
    + intros [[n Hk] Hf]. rewrite Hk in Hf. by exists n.
  - intros f bucket Hbk. destruct (Hb _ _ Hbk) as [Hnd Hsz].
    split; [done|]. split; [done|]. unfold Lfu.FrequencyBucket.empty.
    rewrite Hsz, Z.eqb_eq. destruct (Lfu.FrequencyBucket.nodes bucket); simpl.
    + done.
    + split; [lia | done].
  - intros Hfit key Hin. apply lfu_getFrequency_range; [|done].
    by apply (lfu_reachable_counting capacity).
Qed.

Lemma lfu_buckets_mirror_index_witness :
  let c0 : Lfu.LfuCache Z string := Lfu.mkLfuCache 3 1 ∅ ∅ in
  let ops := [Put 1 "a"%string; Put 2 "b"%string; Get 1] in
  let c := Lfu.run ops c0 in
  Lfu.construct 3 = inr c0 ∧ Lfu.no_overflow ops c0 = true ∧
  Lfu.getFrequency 1 c = 2 ∧
  Lfu.in_bucket (Lfu.frequency_buckets_ c) 2 1 ∧
  1 <= Lfu.getFrequency 2 c <= Lfu.INT_MAX.
Proof.
  intros c0 ops c. split; [reflexivity|]. split; [reflexivity|].
  split; [reflexivity|].
  pose proof (lfu_buckets_mirror_index Z _ _ string 3 c0 ops eq_refl)
    as (Hnode & _ & Hfreq).
  split.
  - apply Hnode. split; reflexivity.
  - apply (Hfreq eq_refl 2). reflexivity.
Defined.

(** X5. [empty()] answers whether no key is stored: in every engine, after
    any calls, [empty()] is true exactly when [size()] is 0, and exactly when
    [contains] is false for every key. *)
Theorem empty_iff_no_key :
  ∀ (Key : Type) (EqK : EqDecision Key) (CntK : Countable Key) (Value : Type)
    (capacity k : Z),
    (∀ (c0 : Fifo.FifoCache Key Value) ops,
       Fifo.construct capacity = inr c0 →
       let c := Fifo.run ops c0 in
       (Fifo.empty c = true ↔ Fifo.size c = 0) ∧
       (Fifo.empty c = true ↔ ∀ key, Fifo.contains key c = false)) ∧
    (∀ (c0 : Lru.LruCache Key Value) ops,
       Lru.construct capacity = inr c0 →
       let c := Lru.run ops c0 in
       (Lru.empty c = true ↔ Lru.size c = 0) ∧
       (Lru.empty c = true ↔ ∀ key, Lru.contains key c = false)) ∧
    (∀ (c0 : Lfu.LfuCache Key Value) ops,
       Lfu.construct capacity = inr c0 →
       let c := Lfu.run ops c0 in
       (Lfu.empty c = true ↔ Lfu.size c = 0) ∧
       (Lfu.empty c = true ↔ ∀ key, Lfu.contains key c = false)) ∧
    (∀ (c0 : LruK.LruKCache Key Value) ops,
       LruK.construct capacity k = inr c0 →
       let c := LruK.run ops c0 in
       (LruK.empty c = true ↔ LruK.size c = 0) ∧
       (LruK.empty c = true ↔ ∀ key, LruK.contains key c = false)).
Proof.
  intros Key EqK CntK Value capacity k.
  assert (∀ (A : Type) (m : gmap Key A),
            (Z.of_nat (base.size m) = 0 ↔ m = ∅) ∧
            (m = ∅ ↔ ∀ key, m !! key = None)) as Hmap.
  { intros A m. split; [|apply map_empty].
    rewrite <- map_size_empty_iff. lia. }
  split; [|split; [|split]].
  - intros c0 ops Hc c.
    destruct (fifo_reachable_wf capacity c0 ops Hc) as [_ Hs _ _]. fold c in Hs.
    destruct (Hmap _ (Fifo.cache_ c)) as [Hz He].
    unfold Fifo.empty, Fifo.size. rewrite Z.eqb_eq. split; [done|].
    rewrite Hs, Hz, He. by setoid_rewrite fifo_contains_false.
  - intros c0 ops Hc c.
    destruct (lru_reachable_wf capacity c0 ops Hc) as [_ Hs _ _]. fold c in Hs.
    destruct (Hmap _ (Lru.cache_ c)) as [Hz He].
    unfold Lru.empty, Lru.size. rewrite Z.eqb_eq. split; [done|].
    rewrite Hs, Hz, He. by setoid_rewrite lru_contains_false.
  - intros c0 ops Hc c. destruct (Hmap _ (Lfu.cache_ c)) as [Hz He].
    unfold Lfu.empty, Lfu.size. rewrite bool_decide_eq_true. split; [by rewrite Hz|].
    rewrite He. by setoid_rewrite lfu_contains_false.
  - intros c0 ops Hc c. destruct (Hmap _ (LruK.cache_ c)) as [Hz He].
    unfold LruK.empty, LruK.size. rewrite bool_decide_eq_true. split; [by rewrite Hz|].
    rewrite He. by setoid_rewrite lruk_contains_false.
Qed.

Lemma empty_iff_no_key_witness :
  let c0 : Fifo.FifoCache Z string := Fifo.mkFifoCache 2 0 ∅ [] in
  Fifo.construct 2 = inr c0 ∧
  (Fifo.empty (Fifo.run [Put 1 "a"%string; Clear] c0) = true ↔
   Fifo.size (Fifo.run [Put 1 "a"%string; Clear] c0) = 0) ∧
  Fifo.empty (Fifo.run [Put 1 "a"%string; Clear] c0) = true.
Proof.
  intros c0. split; [reflexivity|]. split; [|reflexivity].
  exact (proj1 (proj1 (empty_iff_no_key Z _ _ string 2 2) c0
                  [Put 1 "a"%string; Clear] eq_refl)).
Defined.

(** ** What [put] and [get] do to the other keys *)

Section PutEffects.
Context {Key : Type} `{Countable Key} {Value : Type}.
Implicit Types (key k : Key) (v : Value).

Lemma fifo_put_room key v (c : Fifo.FifoCache Key Value) :
  Fifo.cache_ c !! key = None → Fifo.size_ c < Fifo.capacity_ c →
  Fifo.put key v c =
    (inr tt, Fifo.mkFifoCache (Fifo.capacity_ c) (Fifo.size_ c + 1)
               (<[key := v]> (Fifo.cache_ c)) (Fifo.queue c ++ [key])).
Proof.
  intros Hk Hroom. unfold Fifo.put. rewrite Hk.
  by destruct (Z.geb_spec (Fifo.size_ c) (Fifo.capacity_ c)); [lia|].
Qed.

Lemma lfu_put_room key v (c : Lfu.LfuCache Key Value) :
  Lfu.wf c → Lfu.cache_ c !! key = None →
  Z.of_nat (base.size (Lfu.cache_ c)) < Lfu.capacity_ c →
  Lfu.cache_ (Lfu.step (Put key v) c) =
    <[key := Lfu.mkCacheNode v 1]> (Lfu.cache_ c).
Proof.
  intros Hwf Hk Hroom. simpl. rewrite lfu_put_new by done. simpl.
  by destruct (Z.geb_spec (Z.of_nat (base.size (Lfu.cache_ c))) (Lfu.capacity_ c));
    [lia|].
Qed.

Lemma lfu_put_existing_cache key n v (c : Lfu.LfuCache Key Value) :
  Lfu.wf c → Lfu.cache_ c !! key = Some n →
  Lfu.cache_ (Lfu.step (Put key v) c) =
    <[key := Lfu.mkCacheNode v (Lfu.int_wrap (Lfu.frequency n + 1))]> (Lfu.cache_ c).
Proof.
  intros Hwf Hk. simpl. rewrite (lfu_put_existing key n) by done. simpl.
  rewrite (lfu_updateFrequency_cache key (Lfu.mkCacheNode v (Lfu.frequency n)))
    by (simpl; apply lookup_insert_eq).
  simpl. apply insert_insert_eq.
Qed.

End PutEffects.

(** X6. In the FIFO, LRU and LFU engines [put] never fails, and it moves
    [size()] in one way only: unchanged for a key already stored, and
    otherwise one more, capped at the capacity. *)
Theorem put_succeeds_and_counts :
  ∀ (Key : Type) (EqK : EqDecision Key) (CntK : Countable Key) (Value : Type)
    (capacity : Z) (key : Key) (v : Value),
    (∀ (c0 : Fifo.FifoCache Key Value) ops,
       Fifo.construct capacity = inr c0 →
       let c := Fifo.run ops c0 in
       fst (Fifo.put key v c) = inr tt ∧
       Fifo.size (Fifo.step (Put key v) c) =
         if Fifo.contains key c then Fifo.size c
         else Z.min (Fifo.size c + 1) (Fifo.capacity c)) ∧
    (∀ (c0 : Lru.LruCache Key Value) ops,
       Lru.construct capacity = inr c0 →
       let c := Lru.run ops c0 in
       fst (Lru.put key v c) = inr tt ∧
       Lru.size (Lru.step (Put key v) c) =
         if Lru.contains key c then Lru.size c
         else Z.min (Lru.size c + 1) (Lru.capacity c)) ∧
    (∀ (c0 : Lfu.LfuCache Key Value) ops,
       Lfu.construct capacity = inr c0 →
       let c := Lfu.run ops c0 in
       fst (Lfu.put key v c) = inr tt ∧
       Lfu.size (Lfu.step (Put key v) c) =
         if Lfu.contains key c then Lfu.size c
         else Z.min (Lfu.size c + 1) (Lfu.capacity c)).
Proof.
  intros Key EqK CntK Value capacity key v. split; [|split].
  - intros c0 ops Hc c.
    pose proof (fifo_reachable_wf capacity c0 ops Hc) as Hwf. fold c in Hwf.
    pose proof Hwf as [_ _ _ Hb]. unfold Fifo.size, Fifo.capacity. split.
    { unfold Fifo.put. by destruct (Fifo.cache_ c !! key). }
    destruct (Fifo.contains key c) eqn:Hin.
    + apply fifo_contains_true in Hin. simpl. by rewrite fifo_put_existing.
    + apply fifo_contains_false in Hin. simpl.
      destruct (Z.lt_ge_cases (Fifo.size_ c) (Fifo.capacity_ c)) as [Hroom|Hfull].
      * rewrite fifo_put_room by done. simpl. lia.
      * destruct (fifo_put_full key v c Hwf Hin) as (h & rest & _ & _ & ->); [lia|].
        simpl. lia.
  - intros c0 ops Hc c.
    pose proof (lru_reachable_wf capacity c0 ops Hc) as Hwf. fold c in Hwf.
    pose proof Hwf as [_ _ _ Hb]. unfold Lru.size, Lru.capacity.
    split; [by apply lru_put_ok|].
    destruct (Lru.contains key c) eqn:Hin.
    + apply lru_contains_true in Hin. simpl. by rewrite lru_put_existing.
    + apply lru_contains_false in Hin. simpl.
      destruct (Z.lt_ge_cases (Lru.size_ c) (Lru.capacity_ c)) as [Hroom|Hfull].
      * rewrite lru_put_room by done. simpl. lia.
      * destruct (lru_put_full key v c Hwf Hin) as (t & rest & _ & _ & ->); [lia|].
        simpl. lia.
  - intros c0 ops Hc c.
    pose proof (lfu_reachable_wf capacity c0 ops Hc) as Hwf. fold c in Hwf.
    pose proof Hwf as [Hcap Hb _ _ _]. unfold Lfu.size, Lfu.capacity. split.
    { destruct (Lfu.cache_ c !! key) as [n|] eqn:Hk.
      - by rewrite (lfu_put_existing key n).
      - by rewrite lfu_put_new. }
    destruct (Lfu.contains key c) eqn:Hin.
    + apply lfu_contains_true in Hin as [n Hk].
      rewrite (lfu_put_existing_cache key n) by done.
      rewrite map_size_insert_Some; [done | by eexists].
    + pose proof Hin as Hk%lfu_contains_false.
      destruct (Z.lt_ge_cases (Z.of_nat (base.size (Lfu.cache_ c))) (Lfu.capacity_ c))
        as [Hroom|Hfull].
      * rewrite lfu_put_room by done. rewrite map_size_insert_None by done. lia.
      * destruct (lfu_put_full key v c Hwf Hin) as
          (bm & rest & t & _ & _ & _ & [n Ht]%lfu_contains_true & -> & _).
        { unfold Lfu.size, Lfu.capacity. lia. }
        assert (t ≠ key) by (intros ->; congruence).
        rewrite map_size_insert_None by (by rewrite lookup_delete_ne).
        rewrite map_size_delete_Some by (by eexists).
        assert (base.size (Lfu.cache_ c) ≠ 0%nat); [|lia].
        apply map_size_ne_0_lookup. by exists t, n.
Qed.

Lemma put_succeeds_and_counts_witness :
  let c0 : Lru.LruCache Z string := Lru.mkLruCache 2 0 ∅ [] in
  let c := Lru.run [Put 1 "a"%string; Put 2 "b"%string] c0 in
  Lru.construct 2 = inr c0 ∧
  fst (Lru.put 3 "c"%string c) = inr tt ∧
  Lru.size (Lru.step (Put 3 "c"%string) c) = 2.
Proof.
  intros c0 c. split; [reflexivity|].
  pose proof (proj1 (proj2 (put_succeeds_and_counts Z _ _ string 2 3 "c"%string))
                c0 [Put 1 "a"%string; Put 2 "b"%string] eq_refl) as [Hok Hsize].
  split; [exact Hok | exact Hsize].
Defined.

(** X7. In the FIFO, LRU and LFU engines [put(key, v)] removes nothing
    while there is room or the key is already stored: every other key keeps
    its entry.  On a full engine a new key costs exactly one stored key its
    entry, and every other key keeps its own. *)
Theorem put_displaces_at_most_one :
  ∀ (Key : Type) (EqK : EqDecision Key) (CntK : Countable Key) (Value : Type)
    (capacity : Z) (key : Key) (v : Value),
    (∀ (c0 : Fifo.FifoCache Key Value) ops,
       Fifo.construct capacity = inr c0 →
       let c := Fifo.run ops c0 in
       let c' := Fifo.step (Put key v) c in
       (Fifo.contains key c = true ∨ Fifo.size c < Fifo.capacity c →
        ∀ k, k ≠ key → Fifo.cache_ c' !! k = Fifo.cache_ c !! k) ∧
       (Fifo.contains key c = false → Fifo.size c = Fifo.capacity c →
        ∃ victim, victim ≠ key ∧ Fifo.contains victim c = true ∧
          Fifo.contains victim c' = false ∧
          ∀ k, k ≠ key → k ≠ victim → Fifo.cache_ c' !! k = Fifo.cache_ c !! k)) ∧
    (∀ (c0 : Lru.LruCache Key Value) ops,
       Lru.construct capacity = inr c0 →
       let c := Lru.run ops c0 in
       let c' := Lru.step (Put key v) c in
       (Lru.contains key c = true ∨ Lru.size c < Lru.capacity c →
        ∀ k, k ≠ key → Lru.cache_ c' !! k = Lru.cache_ c !! k) ∧
       (Lru.contains key c = false → Lru.size c = Lru.capacity c →
        ∃ victim, victim ≠ key ∧ Lru.contains victim c = true ∧
          Lru.contains victim c' = false ∧
          ∀ k, k ≠ key → k ≠ victim → Lru.cache_ c' !! k = Lru.cache_ c !! k)) ∧
    (∀ (c0 : Lfu.LfuCache Key Value) ops,
       Lfu.construct capacity = inr c0 →
       let c := Lfu.run ops c0 in
       let c' := Lfu.step (Put key v) c in
       (Lfu.contains key c = true ∨ Lfu.size c < Lfu.capacity c →
        ∀ k, k ≠ key → Lfu.cache_ c' !! k = Lfu.cache_ c !! k) ∧
       (Lfu.contains key c = false → Lfu.size c = Lfu.capacity c →
        ∃ victim, victim ≠ key ∧ Lfu.contains victim c = true ∧
          Lfu.contains victim c' = false ∧
          ∀ k, k ≠ key → k ≠ victim → Lfu.cache_ c' !! k = Lfu.cache_ c !! k)).
Proof.
  intros Key EqK CntK Value capacity key v. split; [|split].
  - intros c0 ops Hc c c'.
    pose proof (fifo_reachable_wf capacity c0 ops Hc) as Hwf. fold c in Hwf.
    unfold c', Fifo.size, Fifo.capacity. simpl. split.
    + intros Hcase k Hne. destruct (Fifo.cache_ c !! key) as [old|] eqn:Hk.
      * rewrite fifo_put_existing by (by eexists). simpl.
        by rewrite lookup_insert_ne.
      * destruct Hcase as [[? ?]%fifo_contains_true|Hroom]; [congruence|].
        rewrite fifo_put_room by done. simpl. by rewrite lookup_insert_ne.
    + intros Hk%fifo_contains_false Hfull.
      destruct (fifo_put_full key v c Hwf Hk Hfull) as (h & rest & Hq & Hne & ->).
      exists h. split; [done|]. split.
      { apply fifo_contains_true, (linked_lookup _ _ _ (Fifo.wf_linked _ Hwf)).
        rewrite Hq. by left. }
      split.
      { apply fifo_contains_false. simpl.
        rewrite lookup_insert_ne by done. apply lookup_delete_eq. }
      intros k Hk1 Hk2. simpl. by rewrite lookup_insert_ne, lookup_delete_ne.
  - intros c0 ops Hc c c'.
    pose proof (lru_reachable_wf capacity c0 ops Hc) as Hwf. fold c in Hwf.
    unfold c', Lru.size, Lru.capacity. simpl. split.
    + intros Hcase k Hne. destruct (Lru.cache_ c !! key) as [old|] eqn:Hk.
      * rewrite lru_put_existing by (by eexists). simpl.
        by rewrite lookup_insert_ne.
      * destruct Hcase as [[? ?]%lru_contains_true|Hroom]; [congruence|].
        rewrite lru_put_room by done. simpl. by rewrite lookup_insert_ne.
    + intros Hk%lru_contains_false Hfull.
      destruct (lru_put_full key v c Hwf Hk Hfull) as (t & rest & Hq & Hne & ->).
      exists t. split; [done|]. split.
      { apply lru_contains_true, (linked_lookup _ _ _ (Lru.wf_linked _ Hwf)).
        rewrite Hq, elem_of_app. right. by apply list_elem_of_singleton. }
      split.
      { apply lru_contains_false. simpl.
        rewrite lookup_insert_ne by done. apply lookup_delete_eq. }
      intros k Hk1 Hk2. simpl. by rewrite lookup_insert_ne, lookup_delete_ne.
  - intros c0 ops Hc c c'.
    pose proof (lfu_reachable_wf capacity c0 ops Hc) as Hwf. fold c in Hwf.
    unfold c', Lfu.size, Lfu.capacity. split.
    + intros Hcase k Hne. destruct (Lfu.cache_ c !! key) as [n|] eqn:Hk.
      * rewrite (lfu_put_existing_cache key n) by done.
        by rewrite lookup_insert_ne.
      * destruct Hcase as [[? ?]%lfu_contains_true|Hroom]; [congruence|].
        rewrite lfu_put_room by done. by rewrite lookup_insert_ne.
    + intros Hin Hfull.
      destruct (lfu_put_full key v c Hwf Hin Hfull) as
        (bm & rest & t & _ & _ & _ & Ht & Hcache & Hgone).
      exists t. split.
      { intros ->. congruence. }
      split; [done|]. split; [done|].
      intros k Hk1 Hk2. rewrite Hcache.
      by rewrite lookup_insert_ne, lookup_delete_ne.
Qed.

Lemma put_displaces_at_most_one_witness :
  let c0 : Fifo.FifoCache Z string := Fifo.mkFifoCache 3 0 ∅ [] in
  let c := Fifo.run [Put 1 "a"%string; Put 2 "b"%string] c0 in
  Fifo.construct 3 = inr c0 ∧ Fifo.size c < Fifo.capacity c ∧ 1 ≠ 3 ∧
  Fifo.cache_ (Fifo.step (Put 3 "c"%string) c) !! 1 = Fifo.cache_ c !! 1.
Proof.
  intros c0 c. split; [reflexivity|]. split; [reflexivity|]. split; [done|].
  exact (proj1 (proj1 (put_displaces_at_most_one Z _ _ string 3 3 "c"%string)
                  c0 [Put 1 "a"%string; Put 2 "b"%string] eq_refl)
           (or_intror eq_refl) 1 ltac:(done)).
Defined.

(** X8. A [get] never changes what the engine answers afterwards: in the
    four engines, after [get(key)], whether it failed or not, [get] of any key
    returns what it would have returned, [contains] and [size()] answer the
    same, and in LRU-K the history counts are the same. *)
Theorem get_changes_no_answer :
  ∀ (Key : Type) (EqK : EqDecision Key) (CntK : Countable Key) (Value : Type)
    (key k : Key),
    (∀ c : Fifo.FifoCache Key Value,
       let c' := Fifo.step (Get key) c in
       fst (Fifo.get k c') = fst (Fifo.get k c) ∧
       Fifo.contains k c' = Fifo.contains k c ∧ Fifo.size c' = Fifo.size c) ∧
    (∀ c : Lru.LruCache Key Value,
       let c' := Lru.step (Get key) c in
       fst (Lru.get k c') = fst (Lru.get k c) ∧
       Lru.contains k c' = Lru.contains k c ∧ Lru.size c' = Lru.size c) ∧
    (∀ c : Lfu.LfuCache Key Value,
       let c' := Lfu.step (Get key) c in
       fst (Lfu.get k c') = fst (Lfu.get k c) ∧
       Lfu.contains k c' = Lfu.contains k c ∧ Lfu.size c' = Lfu.size c) ∧
    (∀ (c : LruK.LruKCache Key Value) now now',
       let c' := LruK.step now (Get key) c in
       fst (LruK.get now' k c') = fst (LruK.get now' k c) ∧
       LruK.contains k c' = LruK.contains k c ∧ LruK.size c' = LruK.size c ∧
       LruK.getHistoryAccessCount k c' = LruK.getHistoryAccessCount k c).
Proof.
  intros Key EqK CntK Value key k. split; [|split; [|split]].
  - intros c c'. unfold c'. simpl. by rewrite fifo_get_state.
  - intros c c'.
    assert (Lru.cache_ c' = Lru.cache_ c ∧ Lru.size_ c' = Lru.size_ c) as [Hc Hs].
    { unfold c'. simpl. unfold Lru.get. by destruct (Lru.cache_ c !! key). }
    unfold Lru.get, Lru.contains, Lru.size. rewrite Hc, Hs.
    split; [|done]. by destruct (Lru.cache_ c !! k).
  - intros c c'. unfold Lfu.contains, Lfu.size, Lfu.get.
    destruct (Lfu.cache_ c !! key) as [n|] eqn:Hk.
    + assert (Lfu.cache_ c' =
              <[key := Lfu.mkCacheNode (Lfu.value n)
                         (Lfu.int_wrap (Lfu.frequency n + 1))]>
                (Lfu.cache_ c)) as ->.
      { unfold c'. simpl. rewrite (lfu_get_existing key n) by done.
        by apply lfu_updateFrequency_cache. }
      rewrite map_size_insert_Some by (by eexists).
      destruct (decide (k = key)) as [->|Hne].
      * rewrite lookup_insert_eq, Hk. simpl. by repeat split.
      * rewrite lookup_insert_ne by (by intros ->).
        split; [|done]. by destruct (Lfu.cache_ c !! k).
    + unfold c'. simpl. by rewrite lfu_get_missing.
  - intros c now now' c'.
    unfold LruK.contains, LruK.size, LruK.get, LruK.getHistoryAccessCount.
    destruct (LruK.cache_ c !! key) as [r|] eqn:Hk.
    + unfold c'. simpl. rewrite (lruk_get_existing now key r) by done. simpl.
      rewrite map_size_insert_Some by (by eexists).
      destruct (decide (k = key)) as [->|Hne].
      * rewrite lookup_insert_eq, Hk. simpl. by repeat split.
      * rewrite lookup_insert_ne by (by intros ->).
        split; [|done]. by destruct (LruK.cache_ c !! k).
    + unfold c'. simpl. by rewrite lruk_get_missing.
Qed.

(** ** The engines as windows over distinct insertions *)

Section Window.
Context {Key : Type} `{Countable Key} {Value : Type}.
Implicit Types (k h : Key) (v : Value) (puts L R : list (Key * Value)).

Lemma drop_succ_tail {A} (l : list A) (m : nat) : drop (S m) l = tail (drop m l).
Proof.
  replace (S m) with (m + 1)%nat by lia. rewrite <- drop_drop.
  by destruct (drop m l).
Qed.

(** Appending to a list shifts its window of the last [cap] elements. *)
Lemma drop_window_snoc {A} (l : list A) (p : A) (cap : nat) :
  (0 < cap)%nat →
  drop (length (l ++ [p]) - cap) (l ++ [p]) =
    (if decide (length l < cap)%nat then drop (length l - cap) l
     else tail (drop (length l - cap) l)) ++ [p].
Proof.
  intros Hcap. rewrite length_app. simpl. destruct (decide _) as [Hlt|Hge].
  - replace (length l + 1 - cap)%nat with 0%nat by lia.
    replace (length l - cap)%nat with 0%nat by lia. done.
  - replace (length l + 1 - cap)%nat with (S (length l - cap)) by lia.
    rewrite drop_app_le by lia. by rewrite drop_succ_tail.
Qed.

Lemma elem_of_drop_fst puts (m : nat) k : k ∈ (drop m puts).*1 → k ∈ puts.*1.
Proof.
  intros Hin. rewrite <- (take_drop m puts), fmap_app, elem_of_app. by right.
Qed.

Lemma list_to_map_window L h hv R k v :
  L = (h, hv) :: R → NoDup L.*1 → k ∉ L.*1 →
  <[k := v]> (delete h (list_to_map L : gmap Key Value)) = list_to_map (R ++ [(k, v)]).
Proof.
  intros -> Hnd Hk. simpl in *. apply NoDup_cons in Hnd as [Hh _].
  apply not_elem_of_cons in Hk as [_ Hk].
  rewrite delete_insert_eq, delete_id by (by apply not_elem_of_list_to_map).
  by rewrite list_to_map_snoc.
Qed.

Lemma lru_run_app ops1 ops2 (c : Lru.LruCache Key Value) :
  Lru.run (ops1 ++ ops2) c = Lru.run ops2 (Lru.run ops1 c).
Proof.
  revert c. induction ops1 as [|o r IH]; simpl; intros c; [done|]. apply IH.
Qed.

Lemma fifo_window capacity (c0 : Fifo.FifoCache Key Value) puts :
  Fifo.construct capacity = inr c0 → NoDup puts.*1 →
  let c := Fifo.run ((λ p, Put p.1 p.2) <$> puts) c0 in
  let m := (length puts - Z.to_nat capacity)%nat in
  Fifo.queue c = drop m puts.*1 ∧ Fifo.cache_ c = list_to_map (drop m puts).
Proof.
  intros Hc. induction puts as [|[k v] puts IH] using rev_ind; intros Hnd.
  { unfold Fifo.construct in Hc. destruct (capacity <=? 0); [done|].
    injection Hc as <-. simpl. by rewrite ?drop_nil. }
  rewrite fmap_app in Hnd. apply NoDup_app in Hnd as (Hnd & Hk & _).
  assert (k ∉ puts.*1) as Hnew.
  { intros Hin. apply (Hk k Hin). by left. }
  destruct (IH Hnd) as [Hq Hm]. clear IH.
  pose proof (fifo_reachable_wf capacity c0 ((λ p, Put p.1 p.2) <$> puts) Hc) as Hwf.
  pose proof (fifo_run_capacity ((λ p, Put p.1 p.2) <$> puts) c0) as Hcap.
  assert (Fifo.capacity_ c0 = capacity) as Hcap0.
  { unfold Fifo.construct in Hc. destruct (capacity <=? 0); [done|].
    by injection Hc as <-. }
  rewrite Hcap0 in Hcap.
  cbv zeta. rewrite fmap_app, fifo_run_app. simpl.
  set (c := Fifo.run ((λ p, Put p.1 p.2) <$> puts) c0) in *.
  pose proof Hwf as [Hpos Hs Hl Hb].
  assert (Fifo.size_ c = Z.of_nat (length (drop (length puts - Z.to_nat capacity) puts)))
    as Hsize.
  { rewrite Hs, <- (linked_length _ _ Hl), Hq, <- fmap_drop. by rewrite length_fmap. }
  rewrite length_drop in Hsize.
  assert (Fifo.cache_ c !! k = None) as Hkc.
  { rewrite Hm. apply not_elem_of_list_to_map. intros Hin.
    by apply Hnew, (elem_of_drop_fst puts (length puts - Z.to_nat capacity)). }
  assert (0 < Z.to_nat capacity)%nat as Hcpos by lia.
  pose proof (drop_window_snoc puts (k, v) (Z.to_nat capacity) Hcpos) as Hwin.
  pose proof (drop_window_snoc puts.*1 k (Z.to_nat capacity) Hcpos) as Hwin1.
  rewrite !length_app, !length_fmap in *. simpl in *.
  rewrite fmap_app. simpl.
  rewrite Hwin, Hwin1. clear Hwin Hwin1.
  destruct (decide (length puts < Z.to_nat capacity)%nat) as [Hlt|Hge].
  - rewrite fifo_put_room by (done || lia). simpl. rewrite Hq, Hm. split; [done|].
    rewrite list_to_map_snoc; [done|]. intros Hin.
    by apply Hnew, (elem_of_drop_fst puts (length puts - Z.to_nat capacity)).
  - destruct (fifo_put_full k v c Hwf Hkc) as (h & rest & Hqc & Hne & ->); [lia|].
    simpl. rewrite Hq in Hqc. rewrite Hqc. simpl. split; [done|].
    destruct (drop (length puts - Z.to_nat capacity) puts) as [|[h' hv] R] eqn:HL.
    { by rewrite <- fmap_drop, HL in Hqc. }
    rewrite <- fmap_drop, HL in Hqc. simpl in Hqc. injection Hqc as -> Hrest.
    rewrite Hm. simpl tail. apply (list_to_map_window _ h hv R); [done | |].
    + rewrite <- HL, fmap_drop, <- Hq. by destruct Hl.
    + rewrite <- HL. intros Hin.
      by apply Hnew, (elem_of_drop_fst puts (length puts - Z.to_nat capacity)).
Qed.

Lemma lru_window capacity (c0 : Lru.LruCache Key Value) puts :
  Lru.construct capacity = inr c0 → NoDup puts.*1 →
  let c := Lru.run ((λ p, Put p.1 p.2) <$> puts) c0 in
  let m := (length puts - Z.to_nat capacity)%nat in
  Lru.chain c = reverse (drop m puts.*1) ∧ Lru.cache_ c = list_to_map (drop m puts).
Proof.
  intros Hc. induction puts as [|[k v] puts IH] using rev_ind; intros Hnd.
  { unfold Lru.construct in Hc. destruct (capacity <=? 0); [done|].
    injection Hc as <-. simpl. by rewrite ?drop_nil. }
  rewrite fmap_app in Hnd. apply NoDup_app in Hnd as (Hnd & Hk & _).
  assert (k ∉ puts.*1) as Hnew.
  { intros Hin. apply (Hk k Hin). by left. }
  destruct (IH Hnd) as [Hq Hm]. clear IH.
  pose proof (lru_reachable_wf capacity c0 ((λ p, Put p.1 p.2) <$> puts) Hc) as Hwf.
  pose proof (lru_run_capacity ((λ p, Put p.1 p.2) <$> puts) c0) as Hcap.
  assert (Lru.capacity_ c0 = capacity) as Hcap0.
  { unfold Lru.construct in Hc. destruct (capacity <=? 0); [done|].
    by injection Hc as <-. }
  rewrite Hcap0 in Hcap.
  cbv zeta. rewrite fmap_app, lru_run_app. simpl.
  set (c := Lru.run ((λ p, Put p.1 p.2) <$> puts) c0) in *.
  pose proof Hwf as [Hpos Hs Hl Hb].
  assert (Lru.size_ c = Z.of_nat (length (drop (length puts - Z.to_nat capacity) puts)))
    as Hsize.
  { rewrite Hs, <- (linked_length _ _ Hl), Hq, length_reverse, <- fmap_drop.
    by rewrite length_fmap. }
  rewrite length_drop in Hsize.
  assert (Lru.cache_ c !! k = None) as Hkc.
  { rewrite Hm. apply not_elem_of_list_to_map. intros Hin.
    by apply Hnew, (elem_of_drop_fst puts (length puts - Z.to_nat capacity)). }
  assert (0 < Z.to_nat capacity)%nat as Hcpos by lia.
  pose proof (drop_window_snoc puts (k, v) (Z.to_nat capacity) Hcpos) as Hwin.
  pose proof (drop_window_snoc puts.*1 k (Z.to_nat capacity) Hcpos) as Hwin1.
  rewrite !length_app, !length_fmap in *. simpl in *.
  rewrite fmap_app. simpl.
  rewrite Hwin, Hwin1. clear Hwin Hwin1.
  destruct (decide (length puts < Z.to_nat capacity)%nat) as [Hlt|Hge].
  - rewrite lru_put_room by (done || lia). simpl. rewrite Hq, Hm.
    rewrite reverse_snoc. split; [done|].
    rewrite list_to_map_snoc; [done|]. intros Hin.
    by apply Hnew, (elem_of_drop_fst puts (length puts - Z.to_nat capacity)).
  - destruct (lru_put_full k v c Hwf Hkc) as (t & rest & Hqc & Hne & ->); [lia|].
    simpl. rewrite Hq in Hqc.
    assert (drop (length puts - Z.to_nat capacity) puts.*1 = t :: reverse rest)
      as Hdrop.
    { rewrite <- (reverse_involutive (drop _ _)), Hqc. apply reverse_snoc. }
    rewrite Hdrop. simpl. rewrite reverse_snoc, reverse_involutive. split; [done|].
    destruct (drop (length puts - Z.to_nat capacity) puts) as [|[h' hv] R] eqn:HL.
    { by rewrite <- fmap_drop, HL in Hdrop. }
    rewrite <- fmap_drop, HL in Hdrop. simpl in Hdrop. injection Hdrop as -> Hrest.
    rewrite Hm. simpl tail. apply (list_to_map_window _ t hv R); [done | |].
    + rewrite <- HL, fmap_drop, <- (reverse_Permutation (drop _ _)), <- Hq.
      by destruct Hl.
    + rewrite <- HL. intros Hin.
      by apply Hnew, (elem_of_drop_fst puts (length puts - Z.to_nat capacity)).
Qed.

End Window.

(** X9. A new FIFO engine given one [put] for each of a list of distinct
    keys holds exactly the last [capacity] of them: its queue is that tail of
    the list, in insertion order, [contains] is true for those keys only, and
    [get] returns the value each was put with. *)
Theorem fifo_holds_last_insertions :
  ∀ (Key : Type) (EqK : EqDecision Key) (CntK : Countable Key) (Value : Type)
    (capacity : Z) (c0 : Fifo.FifoCache Key Value) (puts : list (Key * Value)),
    Fifo.construct capacity = inr c0 → NoDup puts.*1 →
    let c := Fifo.run ((λ p, Put p.1 p.2) <$> puts) c0 in
    let kept := drop (length puts - Z.to_nat capacity) puts in
    Fifo.queue c = kept.*1 ∧
    (∀ key, Fifo.contains key c = true ↔ key ∈ kept.*1) ∧
    (∀ key v, (key, v) ∈ kept → fst (Fifo.get key c) = inr v).
Proof.
  intros Key EqK CntK Value capacity c0 puts Hc Hnd c kept.
  destruct (fifo_window capacity c0 puts Hc Hnd) as [Hq Hm].
  fold c in Hq, Hm. fold kept in Hm. unfold kept at 1. rewrite fmap_drop.
  split; [done|].
  assert (NoDup kept.*1) as Hndk.
  { unfold kept. rewrite fmap_drop, <- Hq.
    by destruct (Fifo.wf_linked _
                  (fifo_reachable_wf capacity c0 ((λ p, Put p.1 p.2) <$> puts) Hc)). }
  split.
  - intros key. rewrite fifo_contains_true, Hm.
    rewrite <- not_eq_None_Some, <- not_elem_of_list_to_map.
    destruct (decide (key ∈ kept.*1)); tauto.
  - intros key v Hin. unfold Fifo.get. rewrite Hm.
    by rewrite (elem_of_list_to_map_1 kept key v Hndk Hin).
Qed.

Lemma fifo_holds_last_insertions_witness :
  let c0 : Fifo.FifoCache Z string := Fifo.mkFifoCache 2 0 ∅ [] in
  let puts := [(1, "a"%string); (2, "b"%string); (3, "c"%string)] in
  Fifo.construct 2 = inr c0 ∧ NoDup puts.*1 ∧
  Fifo.queue (Fifo.run ((λ p, Put p.1 p.2) <$> puts) c0) = [2; 3].
Proof.
  intros c0 puts.
  assert (NoDup puts.*1) as Hnd by (apply (bool_decide_unpack _); by vm_compute).
  split; [reflexivity|]. split; [exact Hnd|].
  exact (proj1 (fifo_holds_last_insertions Z _ _ string 2 c0 puts eq_refl Hnd)).
Defined.

(** X10. A new LRU engine given one [put] for each of a list of distinct
    keys holds exactly the last [capacity] of them: its recency chain is that
    tail of the list, newest first, [contains] is true for those keys only,
    and the index maps each to the value it was put with. *)
Theorem lru_holds_last_insertions :
  ∀ (Key : Type) (EqK : EqDecision Key) (CntK : Countable Key) (Value : Type)
    (capacity : Z) (c0 : Lru.LruCache Key Value) (puts : list (Key * Value)),
    Lru.construct capacity = inr c0 → NoDup puts.*1 →
    let c := Lru.run ((λ p, Put p.1 p.2) <$> puts) c0 in
    let kept := drop (length puts - Z.to_nat capacity) puts in
    Lru.chain c = reverse kept.*1 ∧
    (∀ key, Lru.contains key c = true ↔ key ∈ kept.*1) ∧
    (∀ key v, (key, v) ∈ kept → fst (Lru.get key c) = inr v).
Proof.
  intros Key EqK CntK Value capacity c0 puts Hc Hnd c kept.
  destruct (lru_window capacity c0 puts Hc Hnd) as [Hq Hm].
  fold c in Hq, Hm. fold kept in Hm. unfold kept at 1. rewrite fmap_drop.
  split; [done|].
  assert (NoDup kept.*1) as Hndk.
  { unfold kept. rewrite fmap_drop, <- (reverse_Permutation (drop _ _)), <- Hq.
    by destruct (Lru.wf_linked _
                  (lru_reachable_wf capacity c0 ((λ p, Put p.1 p.2) <$> puts) Hc)). }
  split.
  - intros key. rewrite lru_contains_true, Hm.
    rewrite <- not_eq_None_Some, <- not_elem_of_list_to_map.
    destruct (decide (key ∈ kept.*1)); tauto.
  - intros key v Hin. unfold Lru.get. rewrite Hm.
    by rewrite (elem_of_list_to_map_1 kept key v Hndk Hin).
Qed.

Lemma lru_holds_last_insertions_witness :
  let c0 : Lru.LruCache Z string := Lru.mkLruCache 2 0 ∅ [] in
  let puts := [(1, "a"%string); (2, "b"%string); (3, "c"%string)] in
  Lru.construct 2 = inr c0 ∧ NoDup puts.*1 ∧
  Lru.chain (Lru.run ((λ p, Put p.1 p.2) <$> puts) c0) = [3; 2].
Proof.
  intros c0 puts.
  assert (NoDup puts.*1) as Hnd by (apply (bool_decide_unpack _); by vm_compute).
  split; [reflexivity|]. split; [exact Hnd|].
  exact (proj1 (lru_holds_last_insertions Z _ _ string 2 c0 puts eq_refl Hnd)).
Defined.

(** ** LRU: the key just used is safe *)

Lemma lru_head_survives {Key : Type} `{Countable Key} {Value : Type}
    (c : Lru.LruCache Key Value) (key key' : Key) (v' : Value) :
  Lru.wf c → 2 <= Lru.capacity_ c → head (Lru.chain c) = Some key →
  Lru.contains key (Lru.step (Put key' v') c) = true.
Proof.
  intros Hwf Hcap Hhd. pose proof Hwf as [_ Hs Hl Hb].
  destruct (Lru.chain c) as [|k0 rest0] eqn:Hchain; [done|].
  injection Hhd as ->.
  assert (is_Some (Lru.cache_ c !! key)) as Hin.
  { apply (linked_lookup _ _ _ Hl). by left. }
  apply lru_contains_true. simpl.
  destruct (decide (key' = key)) as [->|Hne].
  { rewrite lru_put_existing by done. simpl. rewrite lookup_insert_eq. by eexists. }
  destruct (Lru.cache_ c !! key') as [old|] eqn:Hk'.
  { rewrite lru_put_existing by (by eexists). simpl.
    by rewrite lookup_insert_ne. }
  destruct (Z.lt_ge_cases (Lru.size_ c) (Lru.capacity_ c)) as [Hroom|Hfull].
  { rewrite lru_put_room by done. simpl. by rewrite lookup_insert_ne. }
  destruct (lru_put_full key' v' c Hwf Hk') as (t & rest & Hq & Hnt & ->); [lia|].
  simpl. rewrite lookup_insert_ne by done.
  rewrite lookup_delete_ne; [done|]. intros ->.
  pose proof (linked_length _ _ Hl) as Hlen.
  pose proof (linked_nodup _ _ Hl) as Hnd. rewrite Hchain in Hq.
  destruct rest as [|r0 rest]; simplify_eq/=.
  - lia.
  - apply NoDup_cons in Hnd as [Hnotin _].
    apply Hnotin, elem_of_app. right. by apply list_elem_of_singleton.
Qed.

(** X11. In an LRU engine of capacity 2 or more, a key that has just been
    used, by a [put] or by a successful [get], is still stored after the next
    [put], whatever key that one is for. *)
Theorem lru_protects_last_used :
  ∀ (Key : Type) (EqK : EqDecision Key) (CntK : Countable Key) (Value : Type)
    (capacity : Z) (c0 : Lru.LruCache Key Value) (ops : list (op Key Value))
    (key key' : Key) (v v' : Value),
    Lru.construct capacity = inr c0 → 2 <= capacity →
    let c := Lru.run ops c0 in
    Lru.contains key (Lru.step (Put key' v') (Lru.step (Put key v) c)) = true ∧
    (Lru.contains key c = true →
     Lru.contains key (Lru.step (Put key' v') (Lru.step (Get key) c)) = true).
Proof.
  intros Key EqK CntK Value capacity c0 ops key key' v v' Hc Hcap c.
  pose proof (lru_reachable_wf capacity c0 ops Hc) as Hwf. fold c in Hwf.
  assert (Lru.capacity_ c = capacity) as Hcapc.
  { unfold c. rewrite lru_run_capacity. unfold Lru.construct in Hc.
    destruct (capacity <=? 0); [done|]. by injection Hc as <-. }
  split.
  - apply lru_head_survives.
    + by apply lru_step_wf.
    + rewrite lru_step_capacity. lia.
    + simpl. destruct (Lru.cache_ c !! key) as [old|] eqn:Hk.
      * by rewrite lru_put_existing by (by eexists).
      * destruct (Z.lt_ge_cases (Lru.size_ c) (Lru.capacity_ c)) as [Hroom|Hfull].
        -- by rewrite lru_put_room.
        -- pose proof (Lru.wf_bound _ Hwf).
           by destruct (lru_put_full key v c Hwf Hk) as (t & rest & _ & _ & ->);
             [lia|].
  - intros [value Hk]%lru_contains_true. apply lru_head_survives.
    + by apply lru_step_wf.
    + rewrite lru_step_capacity. lia.
    + simpl. by rewrite (lru_get_existing key value).
Qed.

Lemma lru_protects_last_used_witness :
  let c0 : Lru.LruCache Z string := Lru.mkLruCache 2 0 ∅ [] in
  let c := Lru.run [Put 1 "a"%string; Put 2 "b"%string] c0 in
  Lru.construct 2 = inr c0 ∧ 2 <= 2 ∧ Lru.contains 1 c = true ∧
  Lru.contains 1 (Lru.step (Put 3 "c"%string) (Lru.step (Get 1) c)) = true ∧
  Lru.contains 1 (Lru.step (Put 3 "c"%string) c) = false.
Proof.
  intros c0 c. split; [reflexivity|]. split; [lia|]. split; [reflexivity|].
  split; [|reflexivity].
  exact (proj2 (lru_protects_last_used Z _ _ string 2 c0
                  [Put 1 "a"%string; Put 2 "b"%string] 1 3 "a"%string "c"%string
                  eq_refl ltac:(lia)) eq_refl).
Defined.

(** ** LFU: frequencies as access counts *)

Section LfuCounting.
Context {Key : Type} `{Countable Key} {Value : Type}.
Implicit Types (c : Lfu.LfuCache Key Value) (key k : Key) (v : Value).

(** Repeated [get]s keep the value of the node, and count in its frequency
    as long as the count fits an [int]. *)
Lemma lfu_gets_node (m : nat) key n c :
  Lfu.cache_ c !! key = Some n →
  ∃ f, Lfu.cache_ (Lfu.run (replicate m (Get key)) c) !! key =
         Some (Lfu.mkCacheNode (Lfu.value n) f) ∧
       (1 <= Lfu.frequency n → Lfu.frequency n + Z.of_nat m <= Lfu.INT_MAX →
        f = Lfu.frequency n + Z.of_nat m).
Proof.
  revert n c. induction m as [|m IH]; intros n c Hk; simpl.
  - exists (Lfu.frequency n). rewrite Hk. split; [by destruct n | lia].
  - rewrite (lfu_get_existing key n) by done. simpl.
    destruct (IH (Lfu.mkCacheNode (Lfu.value n) (Lfu.int_wrap (Lfu.frequency n + 1)))
                (Lfu.updateFrequency key c)) as (f & Hf & Hcount).
    { rewrite (lfu_updateFrequency_cache key n) by done. apply lookup_insert_eq. }
    exists f. split; [done|]. simpl in Hcount. intros Hpos Hmax.
    assert (Lfu.int_wrap (Lfu.frequency n + 1) = Lfu.frequency n + 1) as Hw.
    { apply lfu_int_wrap_fits. unfold Lfu.INT_MAX in *. lia. }
    rewrite Hw in Hcount. rewrite Hcount; lia.
Qed.

Lemma lfu_put_new_node key v c :
  Lfu.wf c → Lfu.cache_ c !! key = None →
  Lfu.cache_ (Lfu.step (Put key v) c) !! key = Some (Lfu.mkCacheNode v 1).
Proof.
  intros Hwf Hk. simpl. rewrite lfu_put_new by done. simpl.
  apply lookup_insert_eq.
Qed.

(** An entry other than the one [put] writes is an entry of before. *)
Lemma lfu_put_other key v k n c :
  Lfu.wf c → k ≠ key →
  Lfu.cache_ (Lfu.step (Put key v) c) !! k = Some n → Lfu.cache_ c !! k = Some n.
Proof.
  intros Hwf Hne. destruct (Lfu.cache_ c !! key) as [n0|] eqn:Hk.
  - rewrite (lfu_put_existing_cache key n0) by done.
    by rewrite lookup_insert_ne.
  - simpl. rewrite lfu_put_new by done. simpl. rewrite lookup_insert_ne by done.
    destruct (Z.of_nat (base.size (Lfu.cache_ c)) >=? Lfu.capacity_ c); [|done].
    apply lfu_evict_cache.
Qed.

(** A call raises no frequency by more than one. *)
Lemma lfu_step_bound (o : op Key Value) (bound : Z) c :
  Lfu.wf c → Lfu.counting c → 0 <= bound < Lfu.INT_MAX →
  (∀ k n, Lfu.cache_ c !! k = Some n → Lfu.frequency n <= bound) →
  ∀ k n, Lfu.cache_ (Lfu.step o c) !! k = Some n → Lfu.frequency n <= bound + 1.
Proof.
  intros Hwf [Hfreq _] Hmax Hb.
  assert (∀ f, 1 <= f <= bound → Lfu.int_wrap (f + 1) <= bound + 1) as Hw.
  { intros f Hf. rewrite lfu_int_wrap_fits; unfold Lfu.INT_MAX in *; lia. }
  assert (∀ k n, Lfu.cache_ c !! k = Some n → Lfu.frequency n <= bound + 1) as Hb'.
  { intros k n Hn. apply Hb in Hn. lia. }
  destruct o as [key|key v|key|]; simpl.
  - destruct (Lfu.cache_ c !! key) as [n0|] eqn:Hk.
    + rewrite (lfu_get_existing key n0) by done. simpl.
      rewrite (lfu_updateFrequency_cache key n0) by done.
      intros k n [[<- <-]|[_ Hn]]%lookup_insert_Some; [|by eapply Hb'].
      simpl. apply Hw. split; [by apply (Hfreq key) | by apply (Hb key)].
    + by rewrite lfu_get_missing.
  - intros k n. destruct (decide (k = key)) as [->|Hne].
    + destruct (Lfu.cache_ c !! key) as [n0|] eqn:Hk.
      * pose proof (lfu_put_existing_cache key n0 v c Hwf Hk) as Hc.
        simpl in Hc. rewrite Hc, lookup_insert_eq. intros [= <-]. simpl.
        apply Hw. split; [by apply (Hfreq key) | by apply (Hb key)].
      * pose proof (lfu_put_new_node key v c Hwf Hk) as Hc. simpl in Hc.
        rewrite Hc. intros [= <-]. simpl. lia.
    + intros Hn. apply (Hb' k). by apply (lfu_put_other key v).
  - apply Hb'.
  - intros k n. by rewrite lookup_empty.
Qed.

Lemma lfu_fits_bound (o : op Key Value) (bound : Z) c :
  0 <= bound < Lfu.INT_MAX →
  (∀ k n, Lfu.cache_ c !! k = Some n → Lfu.frequency n <= bound) →
  Lfu.fits o c = true.
Proof.
  intros Hmax Hb.
  assert (∀ key, (Lfu.getFrequency key c <? Lfu.INT_MAX) = true) as Hlt.
  { intros key. apply Z.ltb_lt. unfold Lfu.getFrequency.
    destruct (Lfu.cache_ c !! key) as [n|] eqn:Hk; [|by unfold Lfu.INT_MAX].
    apply Hb in Hk. lia. }
  destruct o; simpl; by rewrite ?Hlt.
Qed.

(** A run of [INT_MAX - bound] calls or fewer overflows no counter. *)
Lemma lfu_few_calls_fit ops (bound : Z) c :
  Lfu.wf c → Lfu.counting c → 0 <= bound →
  (∀ k n, Lfu.cache_ c !! k = Some n → Lfu.frequency n <= bound) →
  bound + Z.of_nat (length ops) <= Lfu.INT_MAX →
  Lfu.no_overflow ops c = true.
Proof.
  revert bound c. induction ops as [|o rest IH]; intros bound c Hwf Hcnt H0 Hb Hlen;
    simpl in *; [done|].
  assert (Lfu.fits o c = true) as Hfit.
  { apply (lfu_fits_bound o bound); [lia | done]. }
  rewrite Hfit. simpl. apply (IH (bound + 1)).
  - by apply lfu_step_wf.
  - by apply lfu_step_counting.
  - lia.
  - apply lfu_step_bound; [done | done | lia | done].
  - lia.
Qed.

End LfuCounting.

(** X12. In the LFU engine [getFrequency] counts the accesses of a stored
    key.  A run of at most [INT_MAX] calls on a new engine increments no
    frequency counter past [INT_MAX]; and as long as none has been, the
    frequency is 0 exactly for a key that is not stored, and
    [getMinFrequency()] is at least 1 and a lower bound of the frequency of
    every stored key.  Whatever the counters, when the cache is not empty
    [getMinFrequency()] is the frequency of a stored key; and a key newly put
    and then read [m] times is still read with the value it was put with, its
    frequency being [m + 1] when that fits an [int]. *)
Theorem lfu_frequency_counts_accesses :
  ∀ (Key : Type) (EqK : EqDecision Key) (CntK : Countable Key) (Value : Type)
    (capacity : Z) (c0 : Lfu.LfuCache Key Value) (ops : list (op Key Value)),
    Lfu.construct capacity = inr c0 →
    let c := Lfu.run ops c0 in
    (Z.of_nat (length ops) <= Lfu.INT_MAX → Lfu.no_overflow ops c0 = true) ∧
    (Lfu.no_overflow ops c0 = true →
       (∀ key, Lfu.getFrequency key c = 0 ↔ Lfu.contains key c = false) ∧
       1 <= Lfu.getMinFrequency c ∧
       (∀ key, Lfu.contains key c = true →
          Lfu.getMinFrequency c <= Lfu.getFrequency key c)) ∧
    (Lfu.empty c = false →
       ∃ key, Lfu.contains key c = true ∧
              Lfu.getFrequency key c = Lfu.getMinFrequency c) ∧
    (∀ key v (m : nat), Lfu.contains key c = false →
       let c' := Lfu.run (replicate m (Get key)) (Lfu.step (Put key v) c) in
       fst (Lfu.get key c') = inr v ∧
       (1 + Z.of_nat m <= Lfu.INT_MAX →
        Lfu.getFrequency key c' = 1 + Z.of_nat m)).
Proof.
  intros Key EqK CntK Value capacity c0 ops Hc c.
  pose proof (lfu_construct_wf capacity c0 Hc) as Hwf0.
  pose proof (lfu_reachable_wf capacity c0 ops Hc) as Hwf. fold c in Hwf.
  pose proof Hwf as [_ _ HL Hone Hmin].
  assert (Lfu.cache_ c ≠ ∅ →
          ∃ key n, Lfu.cache_ c !! key = Some n ∧
                   Lfu.frequency n = Lfu.min_frequency_ c) as Hattained.
  { intros Hne. destruct (Hmin Hne) as [key Hin].
    apply (Lfu.bl_node _ _ HL) in Hin as (n & Hn & Hf). by exists key, n. }
  split; [|split; [|split]].
  - intros Hlen. apply (lfu_few_calls_fit ops 0); [done | | lia | | lia].
    + apply (lfu_reachable_counting capacity c0 [] Hc eq_refl).
    + intros k n. unfold Lfu.construct in Hc. destruct (capacity <=? 0); [done|].
      injection Hc as <-. simpl. by rewrite lookup_empty.
  - intros Hfit.
    pose proof (lfu_reachable_counting capacity c0 ops Hc Hfit) as [Hfreq Hleast].
    fold c in Hfreq, Hleast. split; [|split].
    + intros key. rewrite lfu_contains_false. unfold Lfu.getFrequency.
      destruct (Lfu.cache_ c !! key) as [n|] eqn:Hk; [|done].
      pose proof (Hfreq _ _ Hk). split; [lia | done].
    + unfold Lfu.getMinFrequency.
      destruct (decide (Lfu.cache_ c = ∅)) as [He|Hne]; [by rewrite (Hone He)|].
      destruct (Hattained Hne) as (key & n & Hn & <-).
      by apply (Hfreq key).
    + intros key [n Hk]%lfu_contains_true.
      unfold Lfu.getMinFrequency, Lfu.getFrequency. rewrite Hk.
      by apply (Hleast key).
  - intros He. unfold Lfu.empty in He. apply bool_decide_eq_false in He.
    destruct (Hattained He) as (key & n & Hn & Hf). exists key. split.
    + apply lfu_contains_true. by eexists.
    + unfold Lfu.getFrequency, Lfu.getMinFrequency. by rewrite Hn.
  - intros key v m Hk%lfu_contains_false c'.
    destruct (lfu_gets_node m key _ _ (lfu_put_new_node key v c Hwf Hk))
      as (f & Hn & Hcount).
    fold c' in Hn. simpl in Hn, Hcount.
    unfold Lfu.getFrequency, Lfu.get. rewrite Hn. simpl. split; [done|].
    intros Hmax. apply Hcount; lia.
Qed.

Lemma lfu_frequency_counts_accesses_witness :
  let c0 : Lfu.LfuCache Z string := Lfu.mkLfuCache 2 1 ∅ ∅ in
  let ops := [Put 1 "a"%string] in
  let c := Lfu.run ops c0 in
  Lfu.construct 2 = inr c0 ∧ Lfu.contains 2 c = false ∧
  Z.of_nat (length ops) <= Lfu.INT_MAX ∧
  Lfu.no_overflow ops c0 = true ∧
  1 + Z.of_nat 3 <= Lfu.INT_MAX ∧
  1 <= Lfu.getMinFrequency c ∧
  Lfu.getFrequency 2
    (Lfu.run (replicate 3 (Get 2)) (Lfu.step (Put 2 "b"%string) c)) = 4.
Proof.
  intros c0 ops c.
  pose proof (lfu_frequency_counts_accesses Z _ _ string 2 c0 ops eq_refl)
    as (Hfew & Hcount & _ & Hreads).
  assert (Z.of_nat (length ops) <= Lfu.INT_MAX) as Hlen by (by vm_compute).
  assert (1 + Z.of_nat 3 <= Lfu.INT_MAX) as Hm by (by vm_compute).
  split; [reflexivity|]. split; [reflexivity|]. split; [exact Hlen|].
  split; [exact (Hfew Hlen)|]. split; [exact Hm|].
  split; [exact (proj1 (proj2 (Hcount (Hfew Hlen))))|].
  exact (proj2 (Hreads 2 "b"%string 3%nat eq_refl) Hm).
Defined.

(** X13. When the LFU engine evicts, as long as no frequency counter has
    been incremented past [INT_MAX], no stored key has a lower frequency than
    the victim: [put] of a new key on a full engine drops a key whose
    frequency is the least among the stored keys, and stores the new key with
    frequency 1. *)
Theorem lfu_evicts_least_frequent :
  ∀ (Key : Type) (EqK : EqDecision Key) (CntK : Countable Key) (Value : Type)
    (capacity : Z) (c0 : Lfu.LfuCache Key Value) (ops : list (op Key Value))
    (key : Key) (v : Value),
    Lfu.construct capacity = inr c0 →
    Lfu.no_overflow ops c0 = true →
    let c := Lfu.run ops c0 in
    Lfu.contains key c = false → Lfu.size c = Lfu.capacity c →
    ∃ victim,
      Lfu.contains victim c = true ∧
      Lfu.contains victim (Lfu.step (Put key v) c) = false ∧
      (∀ k, Lfu.contains k c = true →
            Lfu.getFrequency victim c <= Lfu.getFrequency k c) ∧
      Lfu.getFrequency key (Lfu.step (Put key v) c) = 1.
Proof.
  intros Key EqK CntK Value capacity c0 ops key v Hc Hfit c Hin Hfull.
  pose proof (lfu_reachable_wf capacity c0 ops Hc) as Hwf. fold c in Hwf.
  pose proof (lfu_reachable_counting capacity c0 ops Hc Hfit) as Hcnt.
  fold c in Hcnt.
  destruct (lfu_put_full key v c Hwf Hin Hfull) as
    (bm & rest & t & _ & _ & Hf & Ht & Hcache & Hgone).
  exists t. split; [done|]. split; [done|]. split.
  - intros k Hk. rewrite Hf. by apply lfu_min_frequency_least.
  - unfold Lfu.getFrequency. by rewrite Hcache, lookup_insert_eq.
Qed.

Lemma lfu_evicts_least_frequent_witness :
  let c0 : Lfu.LfuCache Z string := Lfu.mkLfuCache 2 1 ∅ ∅ in
  let ops := [Put 1 "a"%string; Put 2 "b"%string; Get 1] in
  let c := Lfu.run ops c0 in
  Lfu.construct 2 = inr c0 ∧ Lfu.no_overflow ops c0 = true ∧
  Lfu.contains 3 c = false ∧
  Lfu.size c = Lfu.capacity c ∧
  Lfu.contains 2 (Lfu.step (Put 3 "c"%string) c) = false ∧
  ∃ victim, Lfu.contains victim (Lfu.step (Put 3 "c"%string) c) = false ∧
    Lfu.getFrequency victim c <= Lfu.getFrequency 1 c.
Proof.
  intros c0 ops c. split; [reflexivity|]. split; [reflexivity|].
  split; [reflexivity|]. split; [reflexivity|]. split; [reflexivity|].
  destruct (lfu_evicts_least_frequent Z _ _ string 2 c0 ops 3 "c"%string
              eq_refl eq_refl eq_refl eq_refl) as (victim & _ & Hgone & Hleast & _).
  exists victim. split; [exact Hgone|]. apply Hleast. reflexivity.
Defined.

(** X14. The LFU engine gives a new key no grace: if every key stored has
    been used twice or more, a key newly put that fills the engine, or was put
    on a full one, is the very key that the next [put] of another new key
    evicts. *)
Theorem lfu_newest_key_evicted_first :
  ∀ (Key : Type) (EqK : EqDecision Key) (CntK : Countable Key) (Value : Type)
    (capacity : Z) (c0 : Lfu.LfuCache Key Value) (ops : list (op Key Value))
    (key key' : Key) (v v' : Value),
    Lfu.construct capacity = inr c0 →
    let c := Lfu.run ops c0 in
    let c1 := Lfu.step (Put key v) c in
    (∀ k, Lfu.contains k c = true → 2 <= Lfu.getFrequency k c) →
    Lfu.contains key c = false →
    Lfu.size c1 = Lfu.capacity c1 →
    Lfu.contains key' c1 = false →
    Lfu.contains key c1 = true ∧
    Lfu.contains key (Lfu.step (Put key' v') c1) = false.
Proof.
  intros Key EqK CntK Value capacity c0 ops key key' v v' Hc c c1 Hfreq Hk Hfull Hk'.
  pose proof (lfu_reachable_wf capacity c0 ops Hc) as Hwf. fold c in Hwf.
  assert (Lfu.wf c1) as Hwf1 by (by apply lfu_step_wf).
  pose proof Hk as Hkc%lfu_contains_false.
  pose proof (lfu_put_new_node key v c Hwf Hkc) as Hnode. fold c1 in Hnode.
  split; [apply lfu_contains_true; by eexists|].
  destruct (lfu_put_full key' v' c1 Hwf1 Hk' Hfull) as
    (bm & rest & t & _ & _ & Hf & [n Ht]%lfu_contains_true & _ & Hgone).
  assert (Lfu.min_frequency_ c1 = 1) as Hmin.
  { unfold c1. simpl. by rewrite lfu_put_new. }
  rewrite Hmin in Hf. unfold Lfu.getFrequency in Hf. rewrite Ht in Hf.
  destruct (decide (t = key)) as [->|Hne]; [done|]. exfalso.
  pose proof (lfu_put_other key v t n c Hwf Hne Ht) as Htc.
  assert (Lfu.contains t c = true) as Hin by (apply lfu_contains_true; by eexists).
  specialize (Hfreq t Hin). unfold Lfu.getFrequency in Hfreq.
  rewrite Htc in Hfreq. lia.
Qed.

Lemma lfu_newest_key_evicted_first_witness :
  let c0 : Lfu.LfuCache Z string := Lfu.mkLfuCache 2 1 ∅ ∅ in
  let c := Lfu.run [Put 1 "a"%string; Get 1] c0 in
  let c1 := Lfu.step (Put 2 "b"%string) c in
  Lfu.construct 2 = inr c0 ∧ Lfu.getFrequency 1 c = 2 ∧
  Lfu.size c1 = Lfu.capacity c1 ∧
  Lfu.contains 2 (Lfu.step (Put 3 "c"%string) c1) = false ∧
  Lfu.contains 1 (Lfu.step (Put 3 "c"%string) c1) = true.
Proof.
  intros c0 c c1. split; [reflexivity|]. split; [reflexivity|].
  split; [reflexivity|]. split; [|reflexivity].
  assert (∀ k, Lfu.contains k c = true → 2 <= Lfu.getFrequency k c) as Hfreq.
  { assert (Lfu.cache_ c = {[1 := Lfu.mkCacheNode "a"%string 2]}) as Hcache
      by reflexivity.
    intros k [n Hn]%lfu_contains_true. rewrite Hcache in Hn.
    apply lookup_singleton_Some in Hn as [<- _]. by vm_compute. }
  exact (proj2 (lfu_newest_key_evicted_first Z _ _ string 2 c0
                  [Put 1 "a"%string; Get 1] 2 3 "b"%string "c"%string
                  eq_refl Hfreq eq_refl eq_refl eq_refl)).
Defined.

(** ** LRU-K: calls that cannot fail, and the shape of the two tables *)

Section LruKTables.
Context {Key : Type} `{Countable Key} {Value : Type}.
Implicit Types (c : LruK.LruKCache Key Value) (key : Key) (v : Value) (now : Z).

Lemma lruk_put_ok now key v c : LruK.wf c → fst (LruK.put now key v c) = inr tt.
Proof.
  intros Hwf. destruct (LruK.cache_ c !! key) as [r|] eqn:Hk.
  - by rewrite (lruk_put_existing now key r).
  - destruct (Z.lt_ge_cases (LruK.getHistoryAccessCount key c + 1) (LruK.k_ c))
      as [Hbelow|Hreach].
    + by rewrite lruk_put_below.
    + by destruct (lruk_put_promote now key v c Hwf Hk Hreach)
        as (history2 & cache2 & -> & _).
Qed.

Lemma lruk_push_capped_full k now (times : list Z) :
  0 < k → Z.of_nat (length times) = k →
  Z.of_nat (length (LruK.push_capped k now times)) = k.
Proof.
  intros Hk Hlen. unfold LruK.push_capped. rewrite length_app. simpl.
  destruct (Z.gtb_spec (Z.of_nat (length times + 1)) k) as [_|Hle]; [|lia].
  destruct times as [|t r]; simpl in *; [lia|]. rewrite length_app. simpl. lia.
Qed.

(** Every promoted record holds exactly [k_] timestamps. *)
Lemma lruk_step_full_queues now (o : op Key Value) c :
  LruK.wf c →
  (∀ key r, LruK.cache_ c !! key = Some r →
            Z.of_nat (length (LruK.access_times r)) = LruK.k_ c) →
  ∀ key r, LruK.cache_ (LruK.step now o c) !! key = Some r →
           Z.of_nat (length (LruK.access_times r)) = LruK.k_ (LruK.step now o c).
Proof.
  intros Hwf Hfull key r. destruct (lruk_step_parameters now o c) as [_ ->].
  pose proof (LruK.wf_k _ Hwf) as Hkpos.
  destruct o as [k|k v|k|]; simpl.
  - destruct (LruK.cache_ c !! k) as [r0|] eqn:Hk.
    + rewrite (lruk_get_existing now k r0) by done. simpl.
      destruct (decide (key = k)) as [->|Hne].
      * rewrite lookup_insert_eq. intros [= <-]. simpl.
        apply lruk_push_capped_full; [done|]. by apply (Hfull k).
      * rewrite lookup_insert_ne by (by intros ->). apply Hfull.
    + rewrite lruk_get_missing by done. apply Hfull.
  - destruct (LruK.cache_ c !! k) as [r0|] eqn:Hk.
    { rewrite (lruk_put_existing now k r0) by done. simpl.
      destruct (decide (key = k)) as [->|Hne].
      - rewrite lookup_insert_eq. intros [= <-]. simpl.
        apply lruk_push_capped_full; [done|]. by apply (Hfull k).
      - rewrite lookup_insert_ne by (by intros ->). apply Hfull. }
    pose proof (lruk_count_bound k c Hwf) as Hcount.
    destruct (Z.lt_ge_cases (LruK.getHistoryAccessCount k c + 1) (LruK.k_ c))
      as [Hbelow|Hreach].
    + rewrite lruk_put_below by done. apply Hfull.
    + destruct (lruk_put_promote now k v c Hwf Hk Hreach)
        as (history2 & cache2 & -> & Hcases). simpl.
      destruct (decide (key = k)) as [->|Hne].
      * rewrite lookup_insert_eq. intros [= <-]. simpl.
        rewrite length_app. simpl. unfold LruK.getHistoryAccessCount in *.
        destruct (LruK.history_ c !! k); simpl; lia.
      * rewrite lookup_insert_ne by (by intros ->). intros Hr.
        apply (Hfull key).
        destruct Hcases as [(_ & _ & ->)|(_ & victim & _ & _ &
          [(_ & _ & ->)|(_ & _ & _ & ->)])]; [done | | done].
        by apply lookup_delete_Some in Hr as [_ ?].
  - apply Hfull.
  - by rewrite lookup_empty.
Qed.

Lemma lruk_run_full_queues ops c :
  LruK.wf c →
  (∀ key r, LruK.cache_ c !! key = Some r →
            Z.of_nat (length (LruK.access_times r)) = LruK.k_ c) →
  ∀ key r, LruK.cache_ (LruK.run ops c) !! key = Some r →
           Z.of_nat (length (LruK.access_times r)) = LruK.k_ (LruK.run ops c).
Proof.
  revert c. induction ops as [|[now o] rest IH]; intros c Hwf Hfull; simpl; [done|].
  apply IH; [by apply lruk_step_wf | by apply lruk_step_full_queues].
Qed.

(** With [k_ = 1] a promotion on a full table always evicts a promoted
    record, so the table never outgrows the capacity. *)
Lemma lruk_k1_step_bound now (o : op Key Value) c :
  LruK.wf c → LruK.k_ c = 1 →
  Z.of_nat (base.size (LruK.cache_ c)) <= LruK.capacity_ c →
  Z.of_nat (base.size (LruK.cache_ (LruK.step now o c))) <= LruK.capacity_ c.
Proof.
  intros Hwf Hk1 Hb. pose proof Hwf as [Hcap _ _ Hh].
  assert (∀ key, LruK.history_ c !! key = None) as Hnone.
  { intros key. destruct (LruK.history_ c !! key) as [times|] eqn:E; [|done].
    apply Hh in E. lia. }
  destruct o as [k|k v|k|]; simpl.
  - destruct (LruK.cache_ c !! k) as [r0|] eqn:Hk.
    + rewrite (lruk_get_existing now k r0) by done. simpl.
      by rewrite map_size_insert_Some by (by eexists).
    + by rewrite lruk_get_missing.
  - destruct (LruK.cache_ c !! k) as [r0|] eqn:Hk.
    { rewrite (lruk_put_existing now k r0) by done. simpl.
      by rewrite map_size_insert_Some by (by eexists). }
    destruct (lruk_put_promote now k v c Hwf Hk)
      as (history2 & cache2 & -> & Hcases).
    { unfold LruK.getHistoryAccessCount. rewrite Hnone. lia. }
    simpl.
    destruct Hcases as [(Hroom & _ & ->)|(Hfull & victim & _ & Hne &
      [([r Hv] & _ & ->)|(_ & Hin & _)])].
    + rewrite map_size_insert_None by done. lia.
    + rewrite map_size_insert_None by (by rewrite lookup_delete_ne).
      rewrite map_size_delete_Some by (by eexists).
      assert (base.size (LruK.cache_ c) ≠ 0%nat); [|lia].
      apply map_size_ne_0_lookup. by exists victim, r.
    + rewrite Hnone in Hin. by destruct Hin.
  - done.
  - rewrite map_size_empty. lia.
Qed.

Lemma lruk_k1_run_bound ops c :
  LruK.wf c → LruK.k_ c = 1 →
  Z.of_nat (base.size (LruK.cache_ c)) <= LruK.capacity_ c →
  Z.of_nat (base.size (LruK.cache_ (LruK.run ops c))) <= LruK.capacity_ c.
Proof.
  revert c. induction ops as [|[now o] rest IH]; intros c Hwf Hk1 Hb; simpl; [done|].
  destruct (lruk_step_parameters now o c) as [Hcap Hk].
  rewrite <- Hcap. apply IH.
  - by apply lruk_step_wf.
  - by rewrite Hk.
  - rewrite Hcap. by apply lruk_k1_step_bound.
Qed.

End LruKTables.

(** X15. In the LRU-K engine [put] never fails: neither the
    [runtime_error] of [findVictimKey] and of [promoteToCache] nor the read of
    an empty timestamp list can occur in an engine built by the constructor,
    whatever calls it has served. *)
Theorem lruk_put_never_fails :
  ∀ (Key : Type) (EqK : EqDecision Key) (CntK : Countable Key) (Value : Type)
    (capacity k : Z) (c0 : LruK.LruKCache Key Value)
    (ops : list (Z * op Key Value)) (now : Z) (key : Key) (v : Value),
    LruK.construct capacity k = inr c0 →
    fst (LruK.put now key v (LruK.run ops c0)) = inr tt.
Proof.
  intros Key EqK CntK Value capacity k c0 ops now key v Hc.
  by apply lruk_put_ok, (lruk_reachable_wf capacity k).
Qed.

Lemma lruk_put_never_fails_witness :
  let c0 : LruK.LruKCache Z string := LruK.mkLruKCache 1 2 ∅ ∅ in
  LruK.construct 1 2 = inr c0 ∧
  fst (LruK.put 5 3 "c"%string
         (LruK.run [(1, Put 1 "a"%string); (2, Put 1 "a"%string);
                    (3, Put 2 "b"%string); (4, Put 3 "c"%string)] c0)) = inr tt.
Proof.
  intros c0. split; [reflexivity|].
  exact (lruk_put_never_fails Z _ _ string 1 2 c0
           [(1, Put 1 "a"%string); (2, Put 1 "a"%string);
            (3, Put 2 "b"%string); (4, Put 3 "c"%string)] 5 3 "c"%string eq_refl).
Defined.

(** X16. The two tables of the LRU-K engine, after any calls: a promoted
    record holds exactly K timestamps, so [getCacheAccessCount] is K for a
    visible key and 0 otherwise; [getHistoryAccessCount] stays below K; and no
    key is in both tables: a visible key has history count 0. *)
Theorem lruk_access_counts :
  ∀ (Key : Type) (EqK : EqDecision Key) (CntK : Countable Key) (Value : Type)
    (capacity k : Z) (c0 : LruK.LruKCache Key Value)
    (ops : list (Z * op Key Value)),
    LruK.construct capacity k = inr c0 →
    let c := LruK.run ops c0 in
    ∀ key,
      LruK.getCacheAccessCount key c =
        (if LruK.contains key c then LruK.getK c else 0) ∧
      0 <= LruK.getHistoryAccessCount key c < LruK.getK c ∧
      (LruK.contains key c = true → LruK.getHistoryAccessCount key c = 0).
Proof.
  intros Key EqK CntK Value capacity k c0 ops Hc c key.
  pose proof (lruk_construct_wf capacity k c0 Hc) as Hwf0.
  pose proof (lruk_reachable_wf capacity k c0 ops Hc) as Hwf. fold c in Hwf.
  assert (∀ key r, LruK.cache_ c !! key = Some r →
            Z.of_nat (length (LruK.access_times r)) = LruK.k_ c) as Hfull.
  { apply lruk_run_full_queues; [done|]. intros key' r.
    unfold LruK.construct in Hc. destruct (capacity <=? 0); [done|].
    destruct (k <=? 0); [done|]. injection Hc as <-. simpl.
    by rewrite lookup_empty. }
  split; [|split].
  - unfold LruK.getCacheAccessCount, LruK.contains, LruK.getK.
    destruct (LruK.cache_ c !! key) as [r|] eqn:Hk; [|done].
    by rewrite (Hfull key r).
  - by apply lruk_count_bound.
  - intros [r Hk]%lruk_contains_true. unfold LruK.getHistoryAccessCount.
    destruct (LruK.history_ c !! key) as [times|] eqn:Hh; [|done].
    rewrite (LruK.wf_disjoint _ Hwf key) in Hk by (by eexists). done.
Qed.

Lemma lruk_access_counts_witness :
  let c0 : LruK.LruKCache Z string := LruK.mkLruKCache 2 2 ∅ ∅ in
  let c := LruK.run [(1, Put 1 "a"%string); (2, Put 1 "a"%string); (3, Get 1);
                     (4, Get 1); (5, Put 2 "b"%string)] c0 in
  LruK.construct 2 2 = inr c0 ∧
  LruK.getCacheAccessCount 1 c = 2 ∧ LruK.getHistoryAccessCount 2 c = 1 ∧
  LruK.getCacheAccessCount 1 c = (if LruK.contains 1 c then LruK.getK c else 0).
Proof.
  intros c0 c. split; [reflexivity|]. split; [reflexivity|].
  split; [reflexivity|].
  exact (proj1 (lruk_access_counts Z _ _ string 2 2 c0
                  [(1, Put 1 "a"%string); (2, Put 1 "a"%string); (3, Get 1);
                   (4, Get 1); (5, Put 2 "b"%string)] eq_refl 1)).
Defined.

(** X17. With K = 1 the LRU-K engine is a bounded cache: after any calls
    the history table is empty and [size()] is at most [capacity()], and every
    [put] makes its key visible at once, [get] returning the value put. *)
Theorem lruk_k1_is_bounded :
  ∀ (Key : Type) (EqK : EqDecision Key) (CntK : Countable Key) (Value : Type)
    (capacity : Z) (c0 : LruK.LruKCache Key Value)
    (ops : list (Z * op Key Value)),
    LruK.construct capacity 1 = inr c0 →
    let c := LruK.run ops c0 in
    LruK.size c <= LruK.capacity c ∧
    (∀ key, LruK.getHistoryAccessCount key c = 0) ∧
    (∀ key v now,
       LruK.contains key (LruK.step now (Put key v) c) = true ∧
       ∀ now', fst (LruK.get now' key (LruK.step now (Put key v) c)) = inr v).
Proof.
  intros Key EqK CntK Value capacity c0 ops Hc c.
  pose proof (lruk_construct_wf capacity 1 c0 Hc) as Hwf0.
  pose proof (lruk_reachable_wf capacity 1 c0 ops Hc) as Hwf. fold c in Hwf.
  assert (LruK.k_ c0 = 1 ∧ LruK.cache_ c0 = ∅) as [Hk0 Hc0].
  { unfold LruK.construct in Hc. destruct (capacity <=? 0); [done|].
    by injection Hc as <-. }
  destruct (lruk_run_parameters ops c0) as [Hcap Hk]. fold c in Hcap, Hk.
  rewrite Hk0 in Hk.
  assert (∀ key, LruK.getHistoryAccessCount key c = 0) as Hnone.
  { intros key. pose proof (lruk_count_bound key c Hwf). lia. }
  split; [|split; [done|]].
  - unfold LruK.size, LruK.capacity. rewrite Hcap.
    apply lruk_k1_run_bound; [done | done |].
    rewrite Hc0, map_size_empty. pose proof (LruK.wf_capacity _ Hwf0). lia.
  - intros key v now. destruct (LruK.contains key c) eqn:Hin.
    + apply lruk_contains_true in Hin as [r Hr]. simpl.
      rewrite (lruk_put_existing now key r) by done. simpl. split.
      * apply lruk_contains_true. simpl. rewrite lookup_insert_eq. by eexists.
      * intros now'. unfold LruK.get. simpl. by rewrite lookup_insert_eq.
    + destruct (lruk_promote_spec now key v c Hwf Hin) as (_ & _ & _ & Hvis & Hget).
      { rewrite Hnone. lia. }
      by split.
Qed.

Lemma lruk_k1_is_bounded_witness :
  let c0 : LruK.LruKCache Z string := LruK.mkLruKCache 1 1 ∅ ∅ in
  let c := LruK.run [(1, Put 1 "a"%string); (2, Put 2 "b"%string);
                     (3, Put 3 "c"%string)] c0 in
  LruK.construct 1 1 = inr c0 ∧ LruK.size c = 1 ∧
  LruK.size c <= LruK.capacity c.
Proof.
  intros c0 c. split; [reflexivity|]. split; [reflexivity|].
  exact (proj1 (lruk_k1_is_bounded Z _ _ string 1 c0
                  [(1, Put 1 "a"%string); (2, Put 2 "b"%string);
                   (3, Put 3 "c"%string)] eq_refl)).
Defined.

(** X18. The rule [findVictimKey] follows where [put] calls it, on the
    state left by [recordHistoryAccess] when some record is promoted and every
    queued timestamp is a value of the clock's type: it returns a key and
    never fails.  If some history record is below K, the victim is such a
    record and its first timestamp is the least among them.  If none is, the
    victim is a promoted record and its newest queued timestamp ([back()])
    is the least among the promoted records. *)
Theorem lruk_victim_choice :
  ∀ (Key : Type) (EqK : EqDecision Key) (CntK : Countable Key) (Value : Type)
    (capacity k : Z) (c0 : LruK.LruKCache Key Value)
    (ops : list (Z * op Key Value)) (now : Z) (key : Key),
    LruK.construct capacity k = inr c0 →
    let c := LruK.run ops c0 in
    let c1 := LruK.recordHistoryAccess now key c in
    0 < LruK.size c →
    (∀ key' record, LruK.cache_ c !! key' = Some record →
       LruK.getCacheKthAccessTime record <= LruK.TimeStamp_max) →
    ∃ victim, LruK.findVictimKey c1 = inr victim ∧
      ((∃ key' times, LruK.history_ c1 !! key' = Some times ∧
                      Z.of_nat (length times) < LruK.getK c) →
       ∃ times t,
         LruK.history_ c1 !! victim = Some times ∧
         Z.of_nat (length times) < LruK.getK c ∧ head times = Some t ∧
         ∀ key' times' t', LruK.history_ c1 !! key' = Some times' →
           Z.of_nat (length times') < LruK.getK c → head times' = Some t' →
           t <= t') ∧
      ((∀ key' times, LruK.history_ c1 !! key' = Some times →
                      LruK.getK c <= Z.of_nat (length times)) →
       ∃ record,
         LruK.cache_ c !! victim = Some record ∧
         ∀ key' record', LruK.cache_ c !! key' = Some record' →
           LruK.getCacheKthAccessTime record <= LruK.getCacheKthAccessTime record').
Proof.
  intros Key EqK CntK Value capacity k c0 ops now key Hc c c1 Hsize Hrange.
  pose proof (lruk_reachable_wf capacity k c0 ops Hc) as Hwf. fold c in Hwf.
  assert (c1 = LruK.mkLruKCache (LruK.capacity_ c) (LruK.k_ c)
                 (<[key := default [] (LruK.history_ c !! key) ++ [now]]>
                    (LruK.history_ c)) (LruK.cache_ c)) as Hc1.
  { by apply lruk_recordHistoryAccess_eq. }
  clearbody c1. subst c1. unfold LruK.getK.
  destruct (lruk_findVictimKey_spec
              (LruK.mkLruKCache (LruK.capacity_ c) (LruK.k_ c)
                 (<[key := default [] (LruK.history_ c !! key) ++ [now]]>
                    (LruK.history_ c)) (LruK.cache_ c)))
    as (victim & Hv & Hrule).
  { simpl. intros key' times [[_ <-]|[_ Hin]]%lookup_insert_Some.
    - by destruct (default [] (LruK.history_ c !! key)).
    - apply (LruK.wf_history _ Hwf) in Hin as [Hpos _].
      destruct times; simpl in Hpos; [lia | done]. }
  { simpl. intros He. unfold LruK.size in Hsize.
    rewrite He, map_size_empty in Hsize. lia. }
  simpl in Hv, Hrule. exists victim. split; [done|].
  destruct Hrule as [(times & t & Hin & Hlt & Hhd & Hmin)|
                     (Hnone & record & Hin & Hmin)]; simpl.
  - split.
    + intros _. by exists times, t.
    + intros Hall. apply Hall in Hin. lia.
  - split.
    + intros (key' & times & Hin' & Hlt). by apply Hnone in Hin'.
    + intros _. exists record. split; [done|]. intros key' record' Hin'.
      specialize (Hmin key' record' Hin'). specialize (Hrange victim record Hin).
      lia.
Qed.

Lemma lruk_victim_choice_witness :
  let c0 : LruK.LruKCache Z string := LruK.mkLruKCache 2 2 ∅ ∅ in
  let c := LruK.run [(1, Put 1 "a"%string); (2, Put 1 "a"%string);
                     (3, Put 2 "b"%string)] c0 in
  let c1 := LruK.recordHistoryAccess 4 3 c in
  LruK.construct 2 2 = inr c0 ∧
  0 < LruK.size c ∧
  (∀ key' record, LruK.cache_ c !! key' = Some record →
     LruK.getCacheKthAccessTime record <= LruK.TimeStamp_max) ∧
  LruK.findVictimKey c1 = inr 2 ∧
  ∃ victim, LruK.findVictimKey c1 = inr victim ∧
    ((∃ key' times, LruK.history_ c1 !! key' = Some times ∧
                    Z.of_nat (length times) < LruK.getK c) →
     ∃ times t,
       LruK.history_ c1 !! victim = Some times ∧
       Z.of_nat (length times) < LruK.getK c ∧ head times = Some t ∧
       ∀ key' times' t', LruK.history_ c1 !! key' = Some times' →
         Z.of_nat (length times') < LruK.getK c → head times' = Some t' →
         t <= t') ∧
    ((∀ key' times, LruK.history_ c1 !! key' = Some times →
                    LruK.getK c <= Z.of_nat (length times)) →
     ∃ record,
       LruK.cache_ c !! victim = Some record ∧
       ∀ key' record', LruK.cache_ c !! key' = Some record' →
         LruK.getCacheKthAccessTime record <= LruK.getCacheKthAccessTime record').
Proof.
  intros c0 c c1.
  assert (LruK.cache_ c = {[1 := LruK.mkCacheRecord "a"%string [1; 2]]}) as Hcache
    by reflexivity.
  assert (∀ key' record, LruK.cache_ c !! key' = Some record →
     LruK.getCacheKthAccessTime record <= LruK.TimeStamp_max) as Hrange.
  { intros key' record. rewrite Hcache.
    intros [_ <-]%lookup_singleton_Some. by vm_compute. }
  split; [reflexivity|]. split; [by vm_compute|]. split; [exact Hrange|].
  split; [reflexivity|].
  exact (lruk_victim_choice Z _ _ string 2 2 c0
           [(1, Put 1 "a"%string); (2, Put 1 "a"%string); (3, Put 2 "b"%string)]
           4 3 eq_refl eq_refl Hrange).
Defined.

(** X19. [getPolicyName]: the FIFO, LRU and LFU engines answer "FIFO",
    "LRU" and "LFU"; the LRU-K engine answers "LRU-" followed by the decimal
    numeral of its K, so its name differs from the three others, and two LRU-K
    engines have the same name exactly when they have the same K. *)
Theorem policy_names_tell_engines_apart :
  ∀ (Key : Type) (EqK : EqDecision Key) (CntK : Countable Key) (Value : Type)
    (f : Fifo.FifoCache Key Value) (l : Lru.LruCache Key Value)
    (u : Lfu.LfuCache Key Value) (h h' : LruK.LruKCache Key Value),
    Fifo.getPolicyName f ≠ Lru.getPolicyName l ∧
    Fifo.getPolicyName f ≠ Lfu.getPolicyName u ∧
    Lru.getPolicyName l ≠ Lfu.getPolicyName u ∧
    LruK.getPolicyName h ≠ Fifo.getPolicyName f ∧
    LruK.getPolicyName h ≠ Lru.getPolicyName l ∧
    LruK.getPolicyName h ≠ Lfu.getPolicyName u ∧
    (LruK.getPolicyName h = LruK.getPolicyName h' ↔ LruK.getK h = LruK.getK h') ∧
    (LruK.getK h = 2 → LruK.getPolicyName h = "LRU-2"%string).
Proof.
  intros Key EqK CntK Value f l u h h'.
  unfold Fifo.getPolicyName, Lru.getPolicyName, Lfu.getPolicyName,
    LruK.getPolicyName, LruK.getK.
  repeat split; try discriminate.
  - simpl. intros [= Heq]. by apply (inj pretty).
  - by intros ->.
  - by intros ->.
Qed.

Lemma policy_names_tell_engines_apart_witness :
  let h : LruK.LruKCache Z string := LruK.mkLruKCache 3 2 ∅ ∅ in
  LruK.getK h = 2 ∧ LruK.getPolicyName h = "LRU-2"%string.
Proof.
  intros h. split; [reflexivity|].
  exact (proj2 (proj2 (proj2 (proj2 (proj2 (proj2 (proj2
           (policy_names_tell_engines_apart Z _ _ string
              (Fifo.mkFifoCache 1 0 ∅ []) (Lru.mkLruCache 1 0 ∅ [])
              (Lfu.mkLfuCache 1 0 ∅ ∅) h h))))))) eq_refl).
Defined.

(** ** LRU-K under a clock that never goes back *)

Section LruKClock.
Context {Key : Type} `{Countable Key} {Value : Type}.
Implicit Types (c : LruK.LruKCache Key Value) (key : Key) (v : Value).
Implicit Types (now bound : Z) (times : list Z).

Lemma lruk_ascending_later bound now times :
  bound <= now → LruK.ascending bound times → LruK.ascending now times.
Proof.
  intros Hle [Hs Hb]. split; [done|].
  eapply Forall_impl; [exact Hb|]. simpl. intros t Ht. lia.
Qed.

Lemma lruk_ascending_snoc bound now times :
  bound <= now → LruK.ascending bound times → LruK.ascending now (times ++ [now]).
Proof.
  intros Hle [Hs Hb]. split.
  - apply StronglySorted_app_2; [|done|repeat constructor].
    intros t1 t2 Ht1 ->%list_elem_of_singleton.
    rewrite Forall_forall in Hb. specialize (Hb t1 Ht1). simpl in Hb. lia.
  - apply Forall_app. split; [|by repeat constructor; lia].
    eapply Forall_impl; [exact Hb|]. simpl. intros t Ht. lia.
Qed.

Lemma lruk_ascending_tail bound times :
  LruK.ascending bound times → LruK.ascending bound (tail times).
Proof.
  intros [Hs Hb]. destruct times as [|t r]; simpl; [done|].
  apply StronglySorted_cons in Hs as [_ Hs]. apply Forall_cons in Hb as [_ Hb].
  done.
Qed.

Lemma lruk_push_capped_ascending k bound now times :
  bound <= now → LruK.ascending bound times →
  LruK.ascending now (LruK.push_capped k now times).
Proof.
  intros Hle Ha. unfold LruK.push_capped.
  destruct (_ >? _); [apply lruk_ascending_tail|]; by eapply lruk_ascending_snoc.
Qed.

Lemma lruk_step_ordered bound now (o : op Key Value) c :
  LruK.wf c → bound <= now → LruK.ordered bound c →
  LruK.ordered now (LruK.step now o c).
Proof.
  intros Hwf Hle [Hh Hc].
  assert (∀ key times, LruK.history_ c !! key = Some times →
            LruK.ascending now times) as Hh'.
  { intros key times Hk. eapply lruk_ascending_later; [done|]. by eapply Hh. }
  assert (∀ key r, LruK.cache_ c !! key = Some r →
            LruK.ascending now (LruK.access_times r)) as Hc'.
  { intros key r Hk. eapply lruk_ascending_later; [done|]. by eapply Hc. }
  assert (∀ key, LruK.ascending now
            (default [] (LruK.history_ c !! key) ++ [now])) as Hnew.
  { intros key. apply (lruk_ascending_snoc bound); [done|].
    destruct (LruK.history_ c !! key) as [times|] eqn:Hk; simpl.
    - by eapply Hh.
    - split; constructor. }
  destruct o as [k|k v|k|]; simpl.
  - destruct (LruK.cache_ c !! k) as [r0|] eqn:Hk.
    + rewrite (lruk_get_existing now k r0) by done. split; simpl; [done|].
      intros key r [[<- <-]|[_ Hr]]%lookup_insert_Some; [|by eapply Hc'].
      simpl. apply (lruk_push_capped_ascending _ bound); [done|]. by eapply Hc.
    + rewrite lruk_get_missing by done. by split.
  - destruct (LruK.cache_ c !! k) as [r0|] eqn:Hk.
    { rewrite (lruk_put_existing now k r0) by done. split; simpl; [done|].
      intros key r [[<- <-]|[_ Hr]]%lookup_insert_Some; [|by eapply Hc'].
      simpl. apply (lruk_push_capped_ascending _ bound); [done|]. by eapply Hc. }
    destruct (Z.lt_ge_cases (LruK.getHistoryAccessCount k c + 1) (LruK.k_ c))
      as [Hbelow|Hreach].
    + rewrite lruk_put_below by done. split; simpl; [|done].
      intros key times [[<- <-]|[_ Hr]]%lookup_insert_Some; [done|].
      by eapply Hh'.
    + destruct (lruk_put_promote now k v c Hwf Hk Hreach)
        as (history2 & cache2 & -> & Hcases). split; simpl.
      * intros key times [Hne Hr]%lookup_delete_Some.
        assert (LruK.history_ c !! key = Some times) as Hold; [|by eapply Hh'].
        destruct Hcases as [(_ & -> & _)|(_ & victim & _ & _ &
          [(_ & -> & _)|(_ & _ & -> & _)])].
        -- by rewrite lookup_insert_ne in Hr.
        -- by rewrite lookup_insert_ne in Hr.
        -- apply lookup_delete_Some in Hr as [_ Hr].
           by rewrite lookup_insert_ne in Hr.
      * intros key r [[<- <-]|[_ Hr]]%lookup_insert_Some; [by simpl|].
        apply (Hc' key).
        destruct Hcases as [(_ & _ & ->)|(_ & victim & _ & _ &
          [(_ & _ & ->)|(_ & _ & _ & ->)])]; [done | | done].
        by apply lookup_delete_Some in Hr as [_ ?].
  - by split.
  - split; simpl; intros ? ?; by rewrite lookup_empty.
Qed.

Lemma lruk_run_ordered ops bound c :
  LruK.wf c → LruK.ordered bound c →
  Forall (λ t, bound <= t) ops.*1 → StronglySorted Z.le ops.*1 →
  ∃ bound', LruK.ordered bound' (LruK.run ops c).
Proof.
  revert bound c. induction ops as [|[now o] rest IH]; intros bound c Hwf Ho Hb Hs.
  - by exists bound.
  - simpl in *. apply Forall_cons in Hb as [Hle _].
    apply StronglySorted_cons in Hs as [Hb Hs].
    apply (IH now); [by apply lruk_step_wf | by eapply lruk_step_ordered | done..].
Qed.

End LruKClock.

(** X20. When the clock never goes back, that is when the readings of the
    successive calls are in ascending order, every queue of timestamps of the
    LRU-K engine is in ascending order.  So the first timestamp of a history
    record, which [findVictimKey] compares and [getKthAccessTime] returns, is
    the earliest access recorded for the key; and [getCacheKthAccessTime] of a
    promoted record is the latest access recorded for the key. *)
Theorem lruk_queues_follow_clock :
  ∀ (Key : Type) (EqK : EqDecision Key) (CntK : Countable Key) (Value : Type)
    (capacity k : Z) (c0 : LruK.LruKCache Key Value)
    (ops : list (Z * op Key Value)),
    LruK.construct capacity k = inr c0 →
    StronglySorted Z.le ops.*1 →
    let c := LruK.run ops c0 in
    (∀ key times, LruK.history_ c !! key = Some times →
       StronglySorted Z.le times ∧
       ∃ t, head times = Some t ∧ LruK.getKthAccessTime (LruK.getK c) times = t ∧
            Forall (λ t', t <= t') times) ∧
    (∀ key record, LruK.cache_ c !! key = Some record →
       StronglySorted Z.le (LruK.access_times record) ∧
       Forall (λ t', t' <= LruK.getCacheKthAccessTime record)
              (LruK.access_times record)).
Proof.
  intros Key EqK CntK Value capacity k c0 ops Hc Hs c.
  pose proof (lruk_construct_wf capacity k c0 Hc) as Hwf0.
  pose proof (lruk_reachable_wf capacity k c0 ops Hc) as Hwf. fold c in Hwf.
  assert (∃ bound, LruK.ordered bound c) as [bound [Hh Hca]].
  { assert (LruK.history_ c0 = ∅ ∧ LruK.cache_ c0 = ∅) as [Hh0 Hc0].
    { unfold LruK.construct in Hc. destruct (capacity <=? 0); [done|].
      destruct (k <=? 0); [done|]. by injection Hc as <-. }
    destruct ops as [|[now o] rest] eqn:Hops.
    - exists 0. subst c. simpl.
      split; intros ? ?; by rewrite ?Hh0, ?Hc0, lookup_empty.
    - subst c. rewrite <- Hops in *. apply (lruk_run_ordered ops now); [done| |..|done].
      + split; intros ? ?; by rewrite ?Hh0, ?Hc0, lookup_empty.
      + rewrite Hops in *. simpl in *. apply StronglySorted_cons in Hs as [Hb _].
        apply Forall_cons. split; [lia | done]. }
  split.
  - intros key times Hk. destruct (Hh key times Hk) as [Hst _].
    split; [done|].
    destruct (LruK.wf_history _ Hwf key times Hk) as [Hpos Hlt].
    destruct times as [|t r]; simpl in Hpos; [lia|]. exists t.
    split; [done|]. split.
    + unfold LruK.getKthAccessTime, LruK.getK.
      destruct (Z.ltb_spec (Z.of_nat (length (t :: r))) (LruK.k_ c)); [done|lia].
    + apply StronglySorted_cons in Hst as [Hall _].
      apply Forall_cons. split; [lia | done].
  - intros key record Hk. destruct (Hca key record Hk) as [Hst _].
    split; [done|]. unfold LruK.getCacheKthAccessTime.
    destruct (LruK.access_times record) as [|t r] eqn:Ht using rev_ind; [done|].
    rewrite last_snoc. apply StronglySorted_app in Hst as (Hle & _ & _).
    apply Forall_app. split.
    + apply Forall_forall. intros t' Hin. apply (Hle t' t Hin). by left.
    + repeat constructor. lia.
Qed.

Lemma lruk_queues_follow_clock_witness :
  let c0 : LruK.LruKCache Z string := LruK.mkLruKCache 2 3 ∅ ∅ in
  let ops := [(1, Put 1 "a"%string); (2, Put 2 "b"%string); (2, Put 1 "a"%string);
              (5, Put 1 "a"%string); (7, Get 1)] in
  let c := LruK.run ops c0 in
  LruK.construct 2 3 = inr c0 ∧
  StronglySorted Z.le ops.*1 ∧
  LruK.cache_ c !! 1 = Some (LruK.mkCacheRecord "a"%string [2; 5; 7]) ∧
  StronglySorted Z.le [2; 5; 7] ∧
  Forall (λ t', t' <= LruK.getCacheKthAccessTime (LruK.mkCacheRecord "a"%string [2; 5; 7]))
         [2; 5; 7].
Proof.
  intros c0 ops c.
  assert (StronglySorted Z.le ops.*1) as Hs.
  { apply (bool_decide_unpack _). by vm_compute. }
  split; [reflexivity|]. split; [exact Hs|]. split; [reflexivity|].
  exact (proj2 (lruk_queues_follow_clock Z _ _ string 2 3 c0 ops eq_refl Hs)
           1 (LruK.mkCacheRecord "a"%string [2; 5; 7]) eq_refl).
Defined.
